(** * Fuzzy reconciliation of the aggregated ledger against the PID table

    A shallow embedding of [preprocess_string], [find_best_match] and
    [merge_with_pid_fuzzy] of [Gaeltec2.0.py], with the pandas operations
    they use, and the properties of the reconciliation proved over it;
    then of the other functions of the file: [sanitize_sheet_name],
    [normalize_columns], [multi_select_filter],
    [assess_construction_impact], [poles_to_word] and the two weather
    requests.

    Modelling conventions.
    - A cell of a table is null ([None], [NaN]), a text or a number.
      Text is ASCII text: the character classes below are Python's on code
      points below 128.  For [sanitize_sheet_name], which tells ASCII from
      the rest, a character is a code point below 256.
    - A row is a pandas [Series]: labels with their values, in index order.
      A [DataFrame] is its column index and its rows; in a well-formed frame
      every row carries exactly the frame's columns ([df_wf]).
    - [fuzz.partial_ratio] of rapidfuzz is not part of the program: it is a
      parameter of the development.  The code only compares its result with
      0, with the threshold and with other scores, so the score scale is
      taken to be the integers.
    - Calls to streamlit and to the scorer are recorded in an event log;
      exceptions ([KeyError], [TypeError], [IndexError]) end the run.
    - The choice made in a sidebar widget and the answer to a weather
      request are parameters as well.  A weather document is parsed JSON
      with finite rational numbers; the Word document is the list of its
      paragraphs, each the list of its runs.

    The model comes first, then the vocabulary of the properties and the
    example tables, then the properties with their proofs. *)

From Stdlib Require Import ZArith List String Ascii Bool Lia Arith Permutation.
From Stdlib Require Import DecimalString.
From Stdlib Require Sorted OrderedTypeEx.
From Stdlib Require Import QArith Lqa.
Import ListNotations.
Local Open Scope string_scope.
Local Open Scope Z_scope.
Local Open Scope list_scope.

(** ** Cells *)

Inductive value : Type :=
| VNull
| VStr (s : string)
| VNum (z : Z).

Definition value_eq_dec (a b : value) : {a = b} + {a <> b}.
Proof. decide equality; [apply string_dec | apply Z.eq_dec]. Defined.

Definition value_eqb (a b : value) : bool :=
  if value_eq_dec a b then true else false.

(** [pd.isna] on a scalar. *)
Definition isna (v : value) : bool :=
  match v with VNull => true | _ => false end.

(** Elementwise [==] of pandas: a null cell equals nothing, itself included. *)
Definition py_eq (a b : value) : bool :=
  match a, b with
  | VStr s, VStr t => String.eqb s t
  | VNum x, VNum y => Z.eqb x y
  | _, _ => false
  end.

(** Truth value of a cell in an [if]. *)
Definition truthy (v : value) : bool :=
  match v with
  | VNull => false
  | VStr s => negb (String.eqb s "")
  | VNum z => negb (Z.eqb z 0)
  end.

(** [str(text)] for a non-null cell. *)
Definition py_str (v : value) : string :=
  match v with
  | VNull => "nan"
  | VStr s => s
  | VNum z => NilZero.string_of_int (Z.to_int z)
  end.

(** ** Character classes and string operations *)

Definition code (c : ascii) : nat := nat_of_ascii c.

Definition between (lo hi n : nat) : bool := Nat.leb lo n && Nat.leb n hi.

(** [str.isspace], and [\s] of [re]: the ASCII whitespace, the next-line
    control and the no-break space. *)
Definition is_space (c : ascii) : bool :=
  between 9 13 (code c) || between 28 32 (code c)
  || Nat.eqb (code c) 133 || Nat.eqb (code c) 160.

(** [str.isupper]: the letters that [str.lower] changes, [A-Z] and the
    accented capitals. *)
Definition is_upper (c : ascii) : bool :=
  between 65 90 (code c) || between 192 214 (code c) || between 216 222 (code c).

(** [a-z] and [0-9]. *)
Definition is_lower (c : ascii) : bool := between 97 122 (code c).
Definition is_digit (c : ascii) : bool := between 48 57 (code c).

(** [str.isalnum]: a letter or a numeric character; below 256 these are
    the ASCII ones, the ordinal indicators, the micro sign, the superscript
    digits, the fractions and the accented letters. *)
Definition is_alnum (c : ascii) : bool :=
  is_upper c || is_lower c || is_digit c
  || existsb (Nat.eqb (code c)) [170; 178; 179; 181; 185; 186; 188; 189; 190]%nat
  || between 223 246 (code c) || between 248 255 (code c).

(** [\w] of [re]: alphanumeric or underscore. *)
Definition is_word (c : ascii) : bool := is_alnum c || Nat.eqb (code c) 95.

Definition lower_char (c : ascii) : ascii :=
  if is_upper c then ascii_of_nat (code c + 32) else c.

Fixpoint smap (f : ascii -> ascii) (s : string) : string :=
  match s with
  | EmptyString => EmptyString
  | String c s' => String (f c) (smap f s')
  end.

Fixpoint sfilter (p : ascii -> bool) (s : string) : string :=
  match s with
  | EmptyString => EmptyString
  | String c s' => if p c then String c (sfilter p s') else sfilter p s'
  end.

Fixpoint sforall (p : ascii -> bool) (s : string) : bool :=
  match s with
  | EmptyString => true
  | String c s' => p c && sforall p s'
  end.

(** [str.lower]. *)
Definition lower (s : string) : string := smap lower_char s.

Fixpoint lstrip (s : string) : string :=
  match s with
  | EmptyString => EmptyString
  | String c s' => if is_space c then lstrip s' else s
  end.

Fixpoint rstrip (s : string) : string :=
  match s with
  | EmptyString => EmptyString
  | String c s' =>
      match rstrip s' with
      | EmptyString => if is_space c then EmptyString else String c EmptyString
      | t => String c t
      end
  end.

(** [str.strip]. *)
Definition strip (s : string) : string := rstrip (lstrip s).

(** [re.sub(r'\s+', ' ', text)]: [in_run] tells that the character before
    was whitespace, already replaced. *)
Fixpoint sub_spaces (in_run : bool) (s : string) : string :=
  match s with
  | EmptyString => EmptyString
  | String c s' =>
      if is_space c
      then if in_run then sub_spaces true s'
           else String " "%char (sub_spaces true s')
      else String c (sub_spaces false s')
  end.

(** [re.sub(r'[^\w\s]', '', text)]. *)
Definition sub_special (s : string) : string :=
  sfilter (fun c => is_word c || is_space c) s.

Definition preprocess_string (text : value) : string :=
  if isna text then ""
  else
    let text := strip (lower (py_str text)) in
    let text := sub_spaces false text in
    let text := sub_special text in
    text.

(** ** Rows and tables *)

(** A pandas [Series] used as a row: the index labels with their values. *)
Definition Series : Type := list (string * value).

Definition series_index (r : Series) : list string := map fst r.

(** [col in index]. *)
Definition mem (c : string) (l : list string) : bool :=
  existsb (String.eqb c) l.

(** [row[col]]; a label that the row lacks cannot be read in a well-formed
    frame, the model gives null there. *)
Fixpoint series_get (r : Series) (c : string) : value :=
  match r with
  | [] => VNull
  | (k, v) :: r' => if String.eqb k c then v else series_get r' c
  end.

(** [row[col] = v]: overwrite the label if the row has it, append it if not. *)
Fixpoint series_set (r : Series) (c : string) (v : value) : Series :=
  match r with
  | [] => [(c, v)]
  | (k, x) :: r' =>
      if String.eqb k c then (k, v) :: r' else (k, x) :: series_set r' c v
  end.

Record DataFrame : Type := mkDF { columns : list string; rows : list Series }.

(** Every row of a frame carries the frame's columns, each once. *)
Definition df_wf (df : DataFrame) : Prop :=
  NoDup (columns df) /\ Forall (fun r => series_index r = columns df) (rows df).

(** [df.empty]: an axis of length 0. *)
Definition df_empty (df : DataFrame) : bool :=
  match columns df, rows df with
  | [], _ => true
  | _, [] => true
  | _, _ => false
  end.

(** [df[mask]] for a row-wise mask. *)
Definition select (df : DataFrame) (mask : Series -> bool) : DataFrame :=
  mkDF (columns df) (filter mask (rows df)).

(** [pd.DataFrame([row])]. *)
Definition frame_of_row (r : Series) : DataFrame := mkDF (series_index r) [r].

(** [drop_duplicates] and [unique]: the first occurrence of each element is
    kept, in order; null counts as equal to null. *)
Fixpoint dedup {A : Type} (eqb : A -> A -> bool) (seen l : list A) : list A :=
  match l with
  | [] => []
  | x :: l' =>
      if existsb (eqb x) seen then dedup eqb seen l'
      else x :: dedup eqb (x :: seen) l'
  end.

Definition key : Type := (value * value)%type.

Definition key_eqb (a b : key) : bool :=
  value_eqb (fst a) (fst b) && value_eqb (snd a) (snd b).

Definition row_key (r : Series) : key :=
  (series_get r "project", series_get r "shire").

(** [df[['project', 'shire']].drop_duplicates()] as a list of tuples. *)
Definition unique_key_combinations (df : DataFrame) : list key :=
  dedup key_eqb [] (map row_key (rows df)).

(** [(df['project'] == project) & (df['shire'] == shire)]. *)
Definition key_mask (k : key) (r : Series) : bool :=
  py_eq (series_get r "project") (fst k) && py_eq (series_get r "shire") (snd k).

(** [s.dropna().unique()]. *)
Definition dropna_unique (l : list value) : list value :=
  dedup value_eqb [] (filter (fun v => negb (isna v)) l).

(** Union of the column indexes of [pd.concat], in order of appearance. *)
Definition union_index (a b : list string) : list string :=
  (a ++ filter (fun c => negb (mem c a)) (dedup String.eqb [] b))%list.

Definition reindex (cols : list string) (r : Series) : Series :=
  map (fun c => (c, series_get r c)) cols.

(** [pd.concat(frames, ignore_index=True)]: the rows of all frames, each
    over the union of the columns, null where a frame lacks a column. *)
Definition concat (frames : list DataFrame) : DataFrame :=
  let cols := fold_left union_index (map columns frames) [] in
  mkDF cols (flat_map (fun f => map (reindex cols) (rows f)) frames).
Arguments concat : simpl never.

(** ** Effects: the event log and exceptions *)

Inductive event : Type :=
| StWarningAgg (missing : list string)
| StWarningPid (missing : list string)
| SidebarInfo (total_combinations : nat)
| ProgressNew
| ProgressSet (done total : nat)
| ProgressEmpty
| PartialRatio (s1 s2 : string)
| SidebarSuccess (matched_count total_count : nat).

Inductive error : Type :=
| KeyError (label : string)
| TypeError
| IndexError.

Inductive result (A : Type) : Type :=
| Ok (a : A)
| Raise (e : error).
Arguments Ok {A} a.
Arguments Raise {A} e.

Definition M (A : Type) : Type := (list event * result A)%type.

Definition ret {A : Type} (a : A) : M A := ([], Ok a).

Definition bind {A B : Type} (m : M A) (f : A -> M B) : M B :=
  match m with
  | (l, Ok a) => let (l', r) := f a in ((l ++ l')%list, r)
  | (l, Raise e) => (l, Raise e)
  end.

Definition emit (e : event) : M unit := ([e], Ok tt).
Definition raise {A : Type} (e : error) : M A := ([], Raise e).

Definition log_of {A : Type} (m : M A) : list event := fst m.
Definition outcome {A : Type} (m : M A) : result A := snd m.

Notation "x <- m ;; k" := (bind m (fun x => k))
  (at level 61, m at next level, right associativity).
Notation "' p <- m ;; k" := (bind m (fun x => match x with p => k end))
  (at level 61, p pattern, m at next level, right associativity).
Notation "m ;;; k" := (bind m (fun _ => k))
  (at level 61, right associativity).

(** A [for] loop that updates a loop state. *)
Fixpoint for_each {A S : Type} (l : list A) (body : S -> A -> M S) (s : S) : M S :=
  match l with
  | [] => ret s
  | x :: l' => s' <- body s x ;; for_each l' body s'
  end.

Fixpoint enumerate {A : Type} (i : nat) (l : list A) : list (nat * A) :=
  match l with
  | [] => []
  | x :: l' => (i, x) :: enumerate (S i) l'
  end.

(** [df[col] = df[col].fillna(v)]. *)
Definition fillna_value (v d : value) : value := if isna v then d else v.

Definition fillna_column (df : DataFrame) (col : string) (d : value) : M DataFrame :=
  if mem col (columns df)
  then ret (mkDF (columns df)
              (map (fun r => series_set r col (fillna_value (series_get r col) d))
                   (rows df)))
  else raise (KeyError col).

(** [v >= k] for one cell of a column compared with a number. *)
Definition ge_number (v : value) (k : Z) : M bool :=
  match v with
  | VNum z => ret (k <=? z)
  | VNull => ret false
  | VStr _ => raise TypeError
  end.

(** [(df[col] >= k).sum()]. *)
Definition count_ge (df : DataFrame) (col : string) (k : Z) : M nat :=
  if mem col (columns df)
  then for_each (rows df)
         (fun n r => b <- ge_number (series_get r col) k ;;
                     ret (if b : bool then S n else n)) 0%nat
  else raise (KeyError col).

(** [df.iloc[0]]. *)
Definition iloc0 (df : DataFrame) : M Series :=
  match rows df with
  | r :: _ => ret r
  | [] => raise IndexError
  end.

Section Reconciler.

(** [fuzz.partial_ratio] of rapidfuzz. *)
Variable partial_ratio : string -> string -> Z.

Definition fuzz_partial_ratio (s1 s2 : string) : M Z :=
  emit (PartialRatio s1 s2) ;;; ret (partial_ratio s1 s2).

(** The body of the loop over the candidates; the loop state is
    [(best_match, best_score)]. *)
Definition best_loop (target : value) (threshold : Z)
    (st : option value * Z) (candidate : value) : M (option value * Z) :=
  let '(best_match, best_score) := st in
  if isna candidate then ret (best_match, best_score)
  else
    score <- fuzz_partial_ratio (preprocess_string target)
                                (preprocess_string candidate) ;;
    if (best_score <? score) && (threshold <=? score)
    then ret (Some candidate, score)
    else ret (best_match, best_score).

Definition find_best_match (target : value) (candidates : option (list value))
    (threshold : Z) : M (option value * Z) :=
  if isna target then ret (None, 0)
  else
    match candidates with
    | None => ret (None, 0)
    | Some candidates =>
        if Nat.eqb (List.length candidates) 0 then ret (None, 0)
        else
          let best_match := None in
          let best_score := 0 in
          for_each candidates (best_loop target threshold)
                   (best_match, best_score)
    end.

Definition required_agg_cols : list string := ["project"; "shire"; "segmentdesc"].
Definition required_pid_cols : list string :=
  ["project"; "shire"; "project_description"; "pid_ohl_nr"].

Definition missing_columns (required : list string) (df : DataFrame) : list string :=
  filter (fun col => negb (mem col (columns df))) required.

(** [for col in pid_subset.columns: ...]: the other columns of the matched
    reference row, where the new row has no such label yet. *)
Definition add_other_pid_columns (pid_columns : list string)
    (matched_pid_row new_row : Series) : Series :=
  fold_left
    (fun new_row col =>
       if negb (mem col (series_index new_row)) && negb (mem col ["project"; "shire"])
       then series_set new_row col (series_get matched_pid_row col)
       else new_row)
    pid_columns new_row.

(** The row built for an accepted match. *)
Definition enrich_row (agg_row : Series) (best_match : value) (match_score : Z)
    (pid_columns : list string) (matched_pid_row : Series) : Series :=
  let new_row := agg_row in
  let new_row := series_set new_row "matched_project_description" best_match in
  let new_row := series_set new_row "match_score" (VNum match_score) in
  let new_row := series_set new_row "pid_ohl_nr"
                   (series_get matched_pid_row "pid_ohl_nr") in
  let new_row := series_set new_row "project_description" best_match in
  add_other_pid_columns pid_columns matched_pid_row new_row.

(** The body of the loop over the rows of one partition: the frame it
    appends to [matched_rows]. *)
Definition match_agg_row (pid_subset : DataFrame) (pid_descriptions : list value)
    (matched_rows : list DataFrame) (agg_row : Series) : M (list DataFrame) :=
  let segment_desc := series_get agg_row "segmentdesc" in
  if isna segment_desc
  then ret (matched_rows ++ [frame_of_row agg_row])%list
  else
    '(best_match, match_score) <-
       find_best_match segment_desc (Some pid_descriptions) 75 ;;
    match best_match with
    | Some best_match' =>
        if truthy best_match' && (75 <=? match_score)
        then
          matched_pid_row <-
            iloc0 (select pid_subset
                     (fun r => py_eq (series_get r "project_description") best_match')) ;;
          let new_row := enrich_row agg_row best_match' match_score
                           (columns pid_subset) matched_pid_row in
          ret (matched_rows ++ [frame_of_row new_row])%list
        else ret (matched_rows ++ [frame_of_row agg_row])%list
    | None => ret (matched_rows ++ [frame_of_row agg_row])%list
    end.

(** The body of the loop over the (project, shire) combinations. *)
Definition match_combination (agg_df pid_df : DataFrame) (total_combinations : nat)
    (matched_rows : list DataFrame) (it : nat * key) : M (list DataFrame) :=
  let '(idx, k) := it in
  emit (ProgressSet (idx + 1) total_combinations) ;;;
  let agg_subset := select agg_df (key_mask k) in
  let pid_subset := select pid_df (key_mask k) in
  if df_empty pid_subset
  then ret (matched_rows ++ [agg_subset])%list
  else
    let pid_descriptions :=
      dropna_unique (map (fun r => series_get r "project_description")
                         (rows pid_subset)) in
    for_each (rows agg_subset) (match_agg_row pid_subset pid_descriptions)
             matched_rows.

(** The end of the function, from [if matched_rows:] on. *)
Definition combine_matched_rows (agg_df : DataFrame)
    (matched_rows : list DataFrame) : M DataFrame :=
  match matched_rows with
  | _ :: _ =>
      let result_df := concat matched_rows in
      result_df <- fillna_column result_df "matched_project_description"
                                 (VStr "No Match") ;;
      result_df <- fillna_column result_df "match_score" (VNum 0) ;;
      result_df <- fillna_column result_df "pid_ohl_nr"
                                 (VStr "Not Available") ;;
      matched_count <- count_ge result_df "match_score" 75 ;;
      let total_count := List.length (rows result_df) in
      emit (SidebarSuccess matched_count total_count) ;;;
      ret result_df
  | [] => ret agg_df
  end.

Definition merge_with_pid_fuzzy (agg_df : DataFrame) (pid_df : option DataFrame)
    : M DataFrame :=
  match pid_df with
  | None => ret agg_df
  | Some pid_df =>
      if df_empty agg_df then ret agg_df
      else
        let missing_agg := missing_columns required_agg_cols agg_df in
        let missing_pid := missing_columns required_pid_cols pid_df in
        match missing_agg, missing_pid with
        | _ :: _, _ => emit (StWarningAgg missing_agg) ;;; ret agg_df
        | [], _ :: _ => emit (StWarningPid missing_pid) ;;; ret agg_df
        | [], [] =>
            let unique_combinations := unique_key_combinations agg_df in
            emit ProgressNew ;;;
            let total_combinations := List.length unique_combinations in
            emit (SidebarInfo total_combinations) ;;;
            matched_rows <-
              for_each (enumerate 0 unique_combinations)
                       (match_combination agg_df pid_df total_combinations) [] ;;
            emit ProgressEmpty ;;;
            combine_matched_rows agg_df matched_rows
        end
  end.

End Reconciler.

(** ** The vocabulary of the properties *)

Section Vocabulary.

Variable partial_ratio : string -> string -> Z.

(** The score of a candidate for a target, as [find_best_match] computes
    it. *)
Definition score_of (target candidate : value) : Z :=
  partial_ratio (preprocess_string target) (preprocess_string candidate).

(** The comparisons made for a list of candidates. *)
Definition comparisons (target : value) (candidates : list value) : list event :=
  map (fun c => PartialRatio (preprocess_string target) (preprocess_string c))
      (filter (fun c => negb (isna c)) candidates).

Definition enrichment_cols : list string :=
  ["matched_project_description"; "match_score"; "pid_ohl_nr";
   "project_description"].

(** The candidates of a partition of the reference table. *)
Definition descriptions (pid_subset : DataFrame) : list value :=
  dropna_unique (map (fun r => series_get r "project_description")
                     (rows pid_subset)).

(** The test [if best_match and match_score >= 75]. *)
Definition accepted (best_match : option value) (match_score : Z) : bool :=
  match best_match with
  | Some b => truthy b && (75 <=? match_score)
  | None => false
  end.

(** What the loop body does with one aggregated row of a partition whose
    reference rows are [ps]: the comparisons it logs and the row it emits. *)
Inductive row_step (ps : DataFrame) (r : Series) : list event -> Series -> Prop :=
| RowNoDescription :
    isna (series_get r "segmentdesc") = true ->
    row_step ps r [] r
| RowUnmatched (bm : option value) (sc : Z) :
    isna (series_get r "segmentdesc") = false ->
    find_best_match partial_ratio (series_get r "segmentdesc")
                    (Some (descriptions ps)) 75
    = (comparisons (series_get r "segmentdesc") (descriptions ps), Ok (bm, sc)) ->
    accepted bm sc = false ->
    row_step ps r (comparisons (series_get r "segmentdesc") (descriptions ps)) r
| RowMatched (bm : value) (sc : Z) (p : Series) :
    isna (series_get r "segmentdesc") = false ->
    find_best_match partial_ratio (series_get r "segmentdesc")
                    (Some (descriptions ps)) 75
    = (comparisons (series_get r "segmentdesc") (descriptions ps),
       Ok (Some bm, sc)) ->
    accepted (Some bm) sc = true ->
    hd_error (filter (fun q => py_eq (series_get q "project_description") bm)
                     (rows ps)) = Some p ->
    row_step ps r (comparisons (series_get r "segmentdesc") (descriptions ps))
             (enrich_row r bm sc (columns ps) p).

(** The loop over the rows of a partition. *)
Inductive rows_step (ps : DataFrame) : list Series -> list event -> list Series -> Prop :=
| RowsNil : rows_step ps [] [] []
| RowsCons r rs l ls r' rs' :
    row_step ps r l r' ->
    rows_step ps rs ls rs' ->
    rows_step ps (r :: rs) (l ++ ls) (r' :: rs').

(** One (project, shire) combination: the comparisons logged and the frames
    appended to [matched_rows]. *)
Inductive group_step (agg_df pid_df : DataFrame) (k : key)
    : list event -> list DataFrame -> Prop :=
| GroupNoReference :
    df_empty (select pid_df (key_mask k)) = true ->
    group_step agg_df pid_df k [] [select agg_df (key_mask k)]
| GroupReference l rs' :
    df_empty (select pid_df (key_mask k)) = false ->
    rows_step (select pid_df (key_mask k))
              (filter (key_mask k) (rows agg_df)) l rs' ->
    group_step agg_df pid_df k l (map frame_of_row rs').

(** The loop over the combinations, from index [i]. *)
Inductive groups_step (agg_df pid_df : DataFrame) (n : nat)
    : nat -> list key -> list event -> list DataFrame -> Prop :=
| GroupsNil i : groups_step agg_df pid_df n i [] [] []
| GroupsCons i k ks l fs ls fss :
    group_step agg_df pid_df k l fs ->
    groups_step agg_df pid_df n (S i) ks ls fss ->
    groups_step agg_df pid_df n i (k :: ks)
                (ProgressSet (i + 1) n :: l ++ ls) (fs ++ fss).

(** The reconciliation proper is reached: a non-empty aggregated table and
    all required columns on both sides. *)
Definition main_path (agg_df pid_df : DataFrame) : Prop :=
  df_empty agg_df = false
  /\ missing_columns required_agg_cols agg_df = []
  /\ missing_columns required_pid_cols pid_df = [].

Definition fill (col : string) (d : value) (r : Series) : Series :=
  series_set r col (fillna_value (series_get r col) d).

(** The three [fillna] on one row. *)
Definition finalize (r : Series) : Series :=
  fill "pid_ohl_nr" (VStr "Not Available")
    (fill "match_score" (VNum 0)
       (fill "matched_project_description" (VStr "No Match") r)).

(** The aggregated rows in the order in which the loops visit them: by
    combination, in order of first appearance, and in table order inside a
    combination. *)
Definition grouped (agg_df : DataFrame) : list Series :=
  flat_map (fun k => filter (key_mask k) (rows agg_df))
           (unique_key_combinations agg_df).

(** What becomes of one aggregated row [r]: the row [r'] appended to
    [matched_rows] for it. *)
Inductive row_outcome (agg_df pid_df : DataFrame) (r r' : Series) : Prop :=
| OutNoReference k :
    In r (rows agg_df) ->
    key_mask k r = true ->
    df_empty (select pid_df (key_mask k)) = true ->
    r' = r ->
    row_outcome agg_df pid_df r r'
| OutStep k l :
    In r (rows agg_df) ->
    key_mask k r = true ->
    df_empty (select pid_df (key_mask k)) = false ->
    row_step (select pid_df (key_mask k)) r l r' ->
    row_outcome agg_df pid_df r r'.

Definition is_ascii (c : ascii) : bool := Nat.ltb (code c) 128.

(** A word character that [str.lower] leaves as it is: a lower-case
    letter, a digit or another numeric character, the underscore. *)
Definition word_not_upper (c : ascii) : bool := is_word c && negb (is_upper c).

(** The characters that a normalized string is made of: these word
    characters and the space. *)
Definition normal_char (c : ascii) : bool :=
  word_not_upper c || Nat.eqb (code c) 32.

(** Two whitespace characters side by side. *)
Fixpoint adjacent_spaces (s : string) : bool :=
  match s with
  | String a ((String b _) as s') =>
      (is_space a && is_space b) || adjacent_spaces s'
  | _ => false
  end.

(** The acceptance test of the reconciliation, [best_match and match_score
    >= threshold], on the result of [find_best_match] at [threshold]. *)
Definition accepts_at (threshold : Z) (query : value * option (list value)) : bool :=
  match outcome (find_best_match partial_ratio (fst query) (snd query) threshold) with
  | Ok (Some b, sc) => truthy b && (threshold <=? sc)
  | _ => false
  end.

(** The number of accepted matches among the queries (target, candidates). *)
Definition count_accepted (threshold : Z)
    (queries : list (value * option (list value))) : nat :=
  List.length (filter (accepts_at threshold) queries).

(** Two runs of the loop on the same candidates, at thresholds [t1 <= t2]:
    either they are in the same state, which has reached [t2], or the run
    at [t2] has not moved yet and the run at [t1] is still below [t2]. *)
Definition lockstep (t2 : Z) (st1 st2 : option value * Z) : Prop :=
  (st1 = st2 /\ t2 <= snd st2)
  \/ (st2 = (None, 0) /\ 0 < t2 /\ 0 <= snd st1 < t2).

(** The sentinel that the final [fillna] puts in a column. *)
Definition sentinel_of (c : string) : value :=
  if String.eqb c "matched_project_description" then VStr "No Match"
  else if String.eqb c "match_score" then VNum 0
  else if String.eqb c "pid_ohl_nr" then VStr "Not Available"
  else VNull.

(** A decision procedure for [df_wf], for concrete tables. *)
Fixpoint nodupb (l : list string) : bool :=
  match l with
  | [] => true
  | x :: l' => negb (mem x l') && nodupb l'
  end.

Fixpoint list_eqb (a b : list string) : bool :=
  match a, b with
  | [], [] => true
  | x :: a', y :: b' => String.eqb x y && list_eqb a' b'
  | _, _ => false
  end.

Definition df_wfb (df : DataFrame) : bool :=
  nodupb (columns df)
  && forallb (fun r => list_eqb (series_index r) (columns df)) (rows df).

(** The fields of [r] outside the enrichment fields are those of [o]. *)
Definition passes_through (agg_df : DataFrame) (r o : Series) : Prop :=
  forall c, In c (columns agg_df) -> ~ In c enrichment_cols ->
            series_get o c = series_get r c.

Definition keys_not_null (agg_df : DataFrame) : Prop :=
  Forall (fun r => isna (series_get r "project") = false
                   /\ isna (series_get r "shire") = false) (rows agg_df).

(** The rows of each key are side by side: the key of a row is that of the
    next row, or it does not come back. *)
Fixpoint contiguous (ks : list key) : bool :=
  match ks with
  | [] => true
  | k :: ks' =>
      match ks' with
      | [] => true
      | k' :: _ => key_eqb k k' || negb (existsb (key_eqb k) ks')
      end && contiguous ks'
  end.

(** A comparison made for an aggregated row [r] against the description of
    a reference row [p] with the project and the shire of [r]. *)
Definition in_partition (agg_df pid_df : DataFrame) (e : event) : Prop :=
  match e with
  | PartialRatio s1 s2 =>
      exists r p,
        In r (rows agg_df) /\ In p (rows pid_df)
        /\ series_get p "project" = series_get r "project"
        /\ series_get p "shire" = series_get r "shire"
        /\ s1 = preprocess_string (series_get r "segmentdesc")
        /\ s2 = preprocess_string (series_get p "project_description")
  | _ => True
  end.

(** The row [o] of the result is the aggregated row [r] with nothing taken
    from the reference table: its cells are those of [r], a sentinel where
    such a cell is null or absent. *)
Definition unenriched (r o : Series) : Prop :=
  forall c, series_get o c = fillna_value (series_get r c) (sentinel_of c).

(** The row [o] of the result carries the id and the description of a
    reference row that has the project and the shire of the aggregated row
    [r], which [o] keeps. *)
Definition copied_from_partition (pid_df : DataFrame) (r o : Series) : Prop :=
  exists p,
    In p (rows pid_df)
    /\ series_get p "project" = series_get r "project"
    /\ series_get p "shire" = series_get r "shire"
    /\ series_get o "project" = series_get r "project"
    /\ series_get o "shire" = series_get r "shire"
    /\ series_get o "pid_ohl_nr"
       = fillna_value (series_get p "pid_ohl_nr") (VStr "Not Available")
    /\ series_get o "project_description" = series_get p "project_description"
    /\ series_get o "matched_project_description"
       = series_get p "project_description"
    /\ exists sc, series_get o "match_score" = VNum sc /\ 75 <= sc.

(** The "no match" values of a row of the result. *)
Definition is_sentinel_row (o : Series) : Prop :=
  series_get o "matched_project_description" = VStr "No Match"
  /\ series_get o "match_score" = VNum 0
  /\ series_get o "pid_ohl_nr" = VStr "Not Available".

(** The aggregated table has none of the three filled columns yet. *)
Definition not_enriched_yet (agg_df : DataFrame) : Prop :=
  mem "matched_project_description" (columns agg_df) = false
  /\ mem "match_score" (columns agg_df) = false
  /\ mem "pid_ohl_nr" (columns agg_df) = false.

(** No candidate of the partition of [r] reaches the threshold. *)
Definition all_below_threshold (pid_df : DataFrame) (r : Series) : Prop :=
  forall c, In c (descriptions (select pid_df (key_mask (row_key r)))) ->
            score_of (series_get r "segmentdesc") c < 75.

(** The query that the loop body makes for an aggregated row: its
    description against the candidates of its partition. *)
Definition row_query (pid_df : DataFrame) (r : Series)
    : value * option (list value) :=
  (series_get r "segmentdesc",
   Some (descriptions (select pid_df (key_mask (row_key r))))).

Definition table_queries (agg_df pid_df : DataFrame)
    : list (value * option (list value)) :=
  map (row_query pid_df) (grouped agg_df).

(** [match_score >= 75] on a row of the result. *)
Definition score_reaches_75 (o : Series) : bool :=
  match series_get o "match_score" with
  | VNum z => 75 <=? z
  | _ => false
  end.

(** The number of rows of a table with [match_score >= 75]. *)
Definition accepted_rows (out : DataFrame) : nat :=
  List.length (filter score_reaches_75 (rows out)).

End Vocabulary.

(** ** Example tables and a concrete scorer *)

Fixpoint common_prefix (s t : string) : nat :=
  match s, t with
  | String a s', String b t' =>
      if Ascii.eqb a b then S (common_prefix s' t') else 0%nat
  | _, _ => 0%nat
  end.

Definition prefix_ratio (s t : string) : Z :=
  if String.eqb s t then 100
  else 100 * Z.of_nat (common_prefix s t)
       / Z.of_nat (Nat.max (String.length s) (String.length t)).

Definition row3 (p s d : value) : Series :=
  [("project", p); ("shire", s); ("segmentdesc", d)].

Definition pid4 (p s d i : value) : Series :=
  [("project", p); ("shire", s); ("project_description", d); ("pid_ohl_nr", i)].

Definition agg_columns3 : list string := ["project"; "shire"; "segmentdesc"].
Definition pid_columns4 : list string :=
  ["project"; "shire"; "project_description"; "pid_ohl_nr"].

Definition ledger9 : DataFrame :=
  mkDF ["project"; "shire"; "segmentdesc"; "qsub"; "project_description"]
    [ [("project", VStr "PCB 2022"); ("shire", VStr "Ayrshire");
       ("segmentdesc", VStr "Erect pole"); ("qsub", VNum 3);
       ("project_description", VStr "ledger text")] ].

Definition reference9 : DataFrame :=
  mkDF ["project"; "shire"; "project_description"; "pid_ohl_nr"; "voltage"]
    [ [("project", VStr "PCB 2022"); ("shire", VStr "Ayrshire");
       ("project_description", VStr "ERECT POLE"); ("pid_ohl_nr", VStr "OHL-001");
       ("voltage", VStr "11kV")] ].

Definition enriched9 : DataFrame :=
  mkDF ["project"; "shire"; "segmentdesc"; "qsub"; "project_description";
        "matched_project_description"; "match_score"; "pid_ohl_nr"; "voltage"]
    [ [("project", VStr "PCB 2022"); ("shire", VStr "Ayrshire");
       ("segmentdesc", VStr "Erect pole"); ("qsub", VNum 3);
       ("project_description", VStr "ERECT POLE");
       ("matched_project_description", VStr "ERECT POLE");
       ("match_score", VNum 100); ("pid_ohl_nr", VStr "OHL-001");
       ("voltage", VStr "11kV")] ].

Definition ledger1 : DataFrame :=
  mkDF agg_columns3
    [ row3 (VStr "PCB 2022") (VStr "Ayrshire") (VStr "Erect pole");
      row3 (VStr "PCB 2023") (VStr "Ayrshire") (VStr "Stay wire");
      row3 (VStr "PCB 2022") (VStr "Ayrshire") (VStr "Conductor");
      row3 VNull (VStr "Ayrshire") (VStr "Transformer") ].

(** [ledger1] without its row that has no project. *)
Definition ledger1_keyed : DataFrame :=
  mkDF agg_columns3 (firstn 3 (rows ledger1)).

Definition reference1 : DataFrame :=
  mkDF pid_columns4
    [ pid4 (VStr "PCB 2022") (VStr "Ayrshire") (VStr "erect pole")
           (VStr "OHL-001") ].

Definition segmentdescs (df : DataFrame) : list value :=
  map (fun r => series_get r "segmentdesc") (rows df).

Definition ledger5 : DataFrame :=
  mkDF ["shire"; "segmentdesc"]
    [ [("shire", VStr "Ayrshire"); ("segmentdesc", VStr "Erect pole")] ].

Definition reference5 : DataFrame :=
  mkDF ["project"; "shire"]
    [ [("project", VStr "PCB 2022"); ("shire", VStr "Ayrshire")] ].

Definition ledger2 : DataFrame :=
  mkDF agg_columns3
    [ row3 (VStr "PCB 2022") (VStr "Ayrshire") (VStr "Erect pole") ].

Definition reference2 : DataFrame :=
  mkDF pid_columns4
    [ pid4 (VStr "PCB 2022") (VStr "Ayrshire") (VStr "erect pole") VNull ].

Definition ledger6 : DataFrame :=
  mkDF agg_columns3
    [ row3 (VStr "PCB 2022") (VStr "Ayrshire") (VStr "Erect pole");
      row3 (VStr "PCB 2022") (VStr "Ayrshire") (VStr "abcd");
      row3 (VStr "PCB 2022") (VStr "Ayrshire") (VStr "");
      row3 (VStr "PCB 2022") (VStr "Ayrshire") VNull ].

Definition reference6 : DataFrame :=
  mkDF pid_columns4
    [ pid4 (VStr "PCB 2022") (VStr "Ayrshire") (VStr "erect pole")
           (VStr "OHL-001");
      pid4 (VStr "PCB 2022") (VStr "Ayrshire") (VStr "abxy") (VStr "OHL-002");
      pid4 (VStr "PCB 2022") (VStr "Ayrshire") (VStr "---") (VStr "OHL-003") ].

Definition match_scores (df : DataFrame) : list value :=
  map (fun r => series_get r "match_score") (rows df).

Definition reference_ids (df : DataFrame) : list value :=
  map (fun r => series_get r "pid_ohl_nr") (rows df).

Definition ledger4 : DataFrame :=
  mkDF agg_columns3
    [ row3 (VStr "PCB 2022") (VStr "Ayrshire")
           (VStr "Erect pole near substation A") ].

Definition reference4 : DataFrame :=
  mkDF pid_columns4
    [ pid4 (VStr "PCB 2022") (VStr "Lanark") (VStr "Erect pole substation A")
           (VStr "OHL-001") ].

Example preprocess_example :
  preprocess_string (VStr "  Erect  POLE,	near (Sub-station) A ")
  = "erect pole near substation a".
Proof. reflexivity. Qed.

Example preprocess_number : preprocess_string (VNum (-42)) = "42".
Proof. reflexivity. Qed.

(** ** Sheet names and column names *)

(** [re.sub(cls, '_', name)] for a character class [cls]. *)
Definition sub_class (cls : ascii -> bool) (s : string) : string :=
  smap (fun c => if cls c then "_"%char else c) s.

(** [name[:n]]. *)
Fixpoint slice_to (n : nat) (s : string) : string :=
  match n, s with
  | S n', String c s' => String c (slice_to n' s')
  | _, _ => EmptyString
  end.

(** The class [[:\\/*?\[\]]]. *)
Definition is_reserved (c : ascii) : bool :=
  existsb (Ascii.eqb c) [":"; "\"; "/"; "*"; "?"; "["; "]"]%char.

(** [\n] and [\r]. *)
Definition is_line_break (c : ascii) : bool :=
  Nat.eqb (code c) 10 || Nat.eqb (code c) 13.

(** The class [[^\x00-\x7F]]. *)
Definition is_not_ascii (c : ascii) : bool := negb (is_ascii c).

(** [sanitize_sheet_name] as defined first (line 29). *)
Definition sanitize_sheet_name0 (name : value) : string :=
  let name := py_str name in
  let name := sub_class is_reserved name in
  let name := sub_class is_not_ascii name in
  slice_to 31 name.

(** [sanitize_sheet_name] as defined again before the export loop (line
    1528); this is the definition in force where the function is called. *)
Definition sanitize_sheet_name (name : value) : string :=
  let name := py_str name in
  let name := sub_class (fun c => is_reserved c || is_line_break c) name in
  let name := sub_class is_not_ascii name in
  slice_to 31 name.

(** The chain of [.str] operations of [normalize_columns] on one label. *)
Definition normalize_column_name (c : string) : string :=
  let c := strip c in
  let c := lower c in
  let c := sub_class (fun ch => Ascii.eqb ch " ") c in
  let c := sub_class (fun ch => negb (is_word ch)) c in
  c.

(** Assigning [df.columns]: the labels are replaced position by position. *)
Definition rename_labels (f : string -> string) (r : Series) : Series :=
  map (fun kv => (f (fst kv), snd kv)) r.

Definition normalize_columns (df : DataFrame) : DataFrame :=
  mkDF (map normalize_column_name (columns df))
       (map (rename_labels normalize_column_name) (rows df)).

(** The characters of a normalized label. *)
Definition label_char (c : ascii) : bool :=
  is_lower c || is_digit c || Nat.eqb (code c) 95.

(** ** The sidebar filters *)

(** [s.isin(values)]: membership, a null cell being in a list that has a
    null. *)
Definition isin (v : value) (l : list value) : bool := existsb (value_eqb v) l.

(** ["All" in l]. *)
Definition has_all (l : list value) : bool := existsb (py_eq (VStr "All")) l.

(** [a < b] between two non-null cells: texts by code points, numbers by
    value, [TypeError] between a text and a number. *)
Definition py_lt (a b : value) : M bool :=
  match a, b with
  | VStr s, VStr t => ret (String.ltb s t)
  | VNum x, VNum y => ret (x <? y)
  | _, _ => raise TypeError
  end.

(** [sorted]: the sort is stable and compares with [<]; on a list that has
    a text and a number some comparison is between the two and raises. *)
Fixpoint py_insert (x : value) (l : list value) : M (list value) :=
  match l with
  | [] => ret [x]
  | y :: l' =>
      b <- py_lt x y ;;
      if b : bool then ret (x :: y :: l')
      else l'' <- py_insert x l' ;; ret (y :: l'')
  end.

Definition py_sorted (l : list value) : M (list value) :=
  for_each l (fun acc x => py_insert x acc) [].

(** [df[col]] as the list of its cells. *)
Definition column_values (df : DataFrame) (col : string) : list value :=
  map (fun r => series_get r col) (rows df).

(** The frame narrowed by the selection made in the parent filter. *)
Definition narrow_by_parent (temp : DataFrame)
    (parent : option (string * list value)) : M DataFrame :=
  match parent with
  | Some (pcol, psel) =>
      if negb (has_all psel)
      then if mem pcol (columns temp)
           then ret (select temp (fun r => isin (series_get r pcol) psel))
           else raise (KeyError pcol)
      else ret temp
  | None => ret temp
  end.

(** [["All"] + sorted(temp[col].dropna().unique())]. *)
Definition filter_options (temp : DataFrame) (col : string) : M (list value) :=
  l <- py_sorted (dropna_unique (column_values temp col)) ;;
  ret (VStr "All" :: l).

Section Filters.

(** [st.sidebar.multiselect(label, options, default=["All"])]: the choice
    of the user. *)
Variable multiselect : string -> list value -> list value.

Definition multi_select_filter (col label : string) (df : DataFrame)
    (parent : option (string * list value)) : M (list value * DataFrame) :=
  if negb (mem col (columns df)) then ret ([VStr "All"], df)
  else
    let temp := df in
    temp <- narrow_by_parent temp parent ;;
    options <- filter_options temp col ;;
    let selected := multiselect label options in
    let temp :=
      if negb (has_all selected)
      then select temp (fun r => isin (series_get r col) selected)
      else temp in
    ret (selected, temp).

End Filters.

(** ** The vocabulary of the further properties *)

Definition has_key (r : Series) : bool :=
  negb (isna (series_get r "project")) && negb (isna (series_get r "shire")).

(** A character that [sanitize_sheet_name] leaves in place. *)
Definition sheet_char (c : ascii) : bool :=
  is_ascii c && negb (is_reserved c) && negb (is_line_break c).

(** The two substitutions of [sanitize_sheet_name] on one character. *)
Definition sanitize_char (c : ascii) : ascii :=
  let c := if is_reserved c || is_line_break c then "_"%char else c in
  if is_not_ascii c then "_"%char else c.

(** The substitutions of [normalize_columns] on one character, after
    [strip]. *)
Definition normalize_char (c : ascii) : ascii :=
  let c := lower_char c in
  let c := if Ascii.eqb c " " then "_"%char else c in
  if negb (is_word c) then "_"%char else c.
(** ** The vocabulary of the filters *)

(** The test that a filter makes on a row: no narrowing when "All" is
    selected, the cell among the selected values otherwise. *)
Definition kept_by (col : string) (sel : list value) (r : Series) : bool :=
  has_all sel || isin (series_get r col) sel.

Definition kept_by_parent (parent : option (string * list value))
    (r : Series) : bool :=
  match parent with
  | Some (pcol, psel) => kept_by pcol psel r
  | None => true
  end.

(** The order of [sorted] on cells of one type. *)
Definition value_lt (a b : value) : Prop :=
  match a, b with
  | VStr s, VStr t => String.ltb s t = true
  | VNum x, VNum y => x < y
  | _, _ => False
  end.

(** The type of a cell: none, text or number. *)
Definition kind (v : value) : nat :=
  match v with
  | VNull => 0
  | VStr _ => 1
  | VNum _ => 2
  end.

(** A column that has a text and a number. *)
Definition mixed (l : list value) : Prop :=
  exists s z, In (VStr s) l /\ In (VNum z) l.

(** A table of sites and a user who selects Ayrshire in the shire filter
    and leaves the other filters on "All". *)
Definition sites : DataFrame :=
  mkDF ["shire"; "project"; "qsub"]
    [ [("shire", VStr "Lanark"); ("project", VStr "PCB 2023"); ("qsub", VNum 4)];
      [("shire", VStr "Ayrshire"); ("project", VStr "PCB 2023"); ("qsub", VStr "n/a")];
      [("shire", VNull); ("project", VStr "PCB 2022"); ("qsub", VNum 1)];
      [("shire", VStr "Ayrshire"); ("project", VStr "PCB 2022"); ("qsub", VNum 2)] ].

Definition choose_ayrshire (label : string) (options : list value) : list value :=
  if String.eqb label "Shire" then [VStr "Ayrshire"] else [VStr "All"].

Definition sites_ayrshire : DataFrame :=
  mkDF ["shire"; "project"; "qsub"]
    [ [("shire", VStr "Ayrshire"); ("project", VStr "PCB 2023"); ("qsub", VStr "n/a")];
      [("shire", VStr "Ayrshire"); ("project", VStr "PCB 2022"); ("qsub", VNum 2)] ].

(** A table as it is read from a file, with its column names not yet
    normalized. *)
Definition raw_ledger : DataFrame :=
  mkDF [" Project "; "Shire"; "Segment Desc."]
    [ [(" Project ", VStr "PCB 2022"); ("Shire", VStr "Ayrshire");
       ("Segment Desc.", VStr "Erect pole")] ].

(** ** The weather assessment *)

(** The data of [response.json()]: a parsed JSON document.  A number is a
    finite number; an object is its members, a key being read at its first
    occurrence. *)
#[warnings="-register-all"] Inductive json : Type :=
| JNull
| JBool (b : bool)
| JNum (q : Q)
| JStr (s : string)
| JArr (items : list json)
| JObj (members : list (string * json)).

(** The exceptions that reading such a document raises. *)
Inductive py_exception : Type :=
| PyKeyError
| PyIndexError
| PyTypeError
| PyAttributeError.

Inductive attempt (A : Type) : Type :=
| Done (a : A)
| Failed (e : py_exception).
Arguments Done {A} a.
Arguments Failed {A} e.

Definition and_then {A B : Type} (m : attempt A) (f : A -> attempt B)
    : attempt B :=
  match m with
  | Done a => f a
  | Failed e => Failed e
  end.

Notation "'let?' x ':=' m 'in' k" := (and_then m (fun x => k))
  (at level 10, x name, m at level 100, k at level 200).

(** The truth value of [weather_data] in [if not weather_data]. *)
Definition json_truthy (x : json) : bool :=
  match x with
  | JNull => false
  | JBool b => b
  | JNum q => negb (Qeq_bool q 0)
  | JStr s => negb (String.eqb s "")
  | JArr items => match items with [] => false | _ => true end
  | JObj members => match members with [] => false | _ => true end
  end.

Fixpoint member (k : string) (members : list (string * json)) : option json :=
  match members with
  | [] => None
  | (k', v) :: rest => if String.eqb k' k then Some v else member k rest
  end.

(** [x[k]] for a text [k]. *)
Definition subscript (x : json) (k : string) : attempt json :=
  match x with
  | JObj members =>
      match member k members with
      | Some v => Done v
      | None => Failed PyKeyError
      end
  | _ => Failed PyTypeError
  end.

(** [x[0]]: the first item of a list, the first character of a text; an
    object has no key [0]. *)
Definition subscript_0 (x : json) : attempt json :=
  match x with
  | JArr (v :: _) => Done v
  | JArr [] => Failed PyIndexError
  | JStr (String c _) => Done (JStr (String c EmptyString))
  | JStr EmptyString => Failed PyIndexError
  | JObj _ => Failed PyKeyError
  | _ => Failed PyTypeError
  end.

(** [x.lower()]. *)
Definition lower_method (x : json) : attempt string :=
  match x with
  | JStr s => Done (lower s)
  | _ => Failed PyAttributeError
  end.

(** The operand [x] of a comparison with a number. *)
Definition number (x : json) : attempt Q :=
  match x with
  | JNum q => Done q
  | JBool b => Done (if b then 1%Q else 0%Q)
  | _ => Failed PyTypeError
  end.

Definition Qlt_bool (a b : Q) : bool := negb (Qle_bool b a).

(** [keyword in description]. *)
Fixpoint contains (keyword s : string) : bool :=
  String.prefix keyword s
  || match s with
     | EmptyString => false
     | String _ s' => contains keyword s'
     end.

(** The lines of the assessment, in the order of the source. *)
Inductive impact : Type :=
| Freezing
| Cold
| Hot
| IdealTemperature
| Wet
| HighWinds
| Windy
| HighHumidity.

(** What [assess_construction_impact] returns: one of its fixed texts, the
    impacts joined by blank lines, or the text of the exception caught. *)
Inductive assessment : Type :=
| NoWeatherData
| Impacts (impacts : list impact)
| FavorableConditions
| CouldNotAssess (e : py_exception).

Definition precip_keywords : list string :=
  ["rain"; "drizzle"; "shower"; "storm"; "thunder"].

(** The body of the [try] block. *)
Definition assess_body (weather_data : json) : attempt assessment :=
  let? main := subscript weather_data "main" in
  let? temp := subscript main "temp" in
  let? weather := subscript weather_data "weather" in
  let? weather0 := subscript_0 weather in
  let? description := subscript weather0 "description" in
  let? description := lower_method description in
  let? wind := subscript weather_data "wind" in
  let? wind_speed := subscript wind "speed" in
  let? main := subscript weather_data "main" in
  let? humidity := subscript main "humidity" in
  let impacts := [] in
  let? t := number temp in
  let impacts :=
    if Qlt_bool t 0 then impacts ++ [Freezing]
    else if Qlt_bool t 5 then impacts ++ [Cold]
    else if Qlt_bool 25 t then impacts ++ [Hot]
    else impacts ++ [IdealTemperature] in
  let impacts :=
    if existsb (fun keyword => contains keyword description) precip_keywords
    then impacts ++ [Wet]
    else impacts in
  let? w := number wind_speed in
  let impacts :=
    if Qlt_bool 10 w then impacts ++ [HighWinds]
    else if Qlt_bool 6 w then impacts ++ [Windy]
    else impacts in
  let? h := number humidity in
  let impacts :=
    if Qlt_bool 80 h then impacts ++ [HighHumidity]
    else impacts in
  Done (match impacts with
        | [] => FavorableConditions
        | _ => Impacts impacts
        end).

Definition assess_construction_impact (weather_data : json) : assessment :=
  if negb (json_truthy weather_data) then NoWeatherData
  else
    match assess_body weather_data with
    | Done a => a
    | Failed e => CouldNotAssess e
    end.

(** The kind of an impact: temperature, precipitation, wind, humidity. *)
Definition category (i : impact) : nat :=
  match i with
  | Freezing | Cold | Hot | IdealTemperature => 0
  | Wet => 1
  | HighWinds | Windy => 2
  | HighHumidity => 3
  end.

(** The four readings of a document in which they are all there, the
    description a text and the others numbers. *)
Definition weather_readings (weather_data : json) : option (Q * string * Q * Q) :=
  match weather_data with
  | JObj top =>
      match member "main" top, member "weather" top, member "wind" top with
      | Some (JObj main), Some (JArr (JObj weather0 :: _)), Some (JObj wind) =>
          match member "temp" main, member "description" weather0,
                member "speed" wind, member "humidity" main with
          | Some temp, Some (JStr description), Some speed, Some humidity =>
              match number temp, number speed, number humidity with
              | Done t, Done w, Done h => Some (t, description, w, h)
              | _, _, _ => None
              end
          | _, _, _, _ => None
          end
      | _, _, _ => None
      end
  | _ => None
  end.

(** A weather report with its four readings. *)
Definition report (temp : Q) (description : string) (speed humidity : Q) : json :=
  JObj [("weather", JArr [JObj [("description", JStr description)]]);
        ("main", JObj [("temp", JNum temp); ("humidity", JNum humidity)]);
        ("wind", JObj [("speed", JNum speed)])].

(** ** The Word export of the work instructions *)

(** [df.replace(to_replace=["nan", "NaN", "None", None], value="")] on one
    cell. *)
Definition blank_cell (v : value) : value :=
  match v with
  | VNull => VStr ""
  | VStr s => if mem s ["nan"; "NaN"; "None"] then VStr "" else VStr s
  | VNum z => VNum z
  end.

Definition blank_missing (df : DataFrame) : DataFrame :=
  mkDF (columns df)
       (map (fun r => map (fun kv => (fst kv, blank_cell (snd kv))) r) (rows df)).

(** [df.groupby(col, sort=False)]: the non-null values of the column in
    order of first appearance, each with its rows in table order. *)
Definition groupby (df : DataFrame) (col : string) : M (list (value * list Series)) :=
  if mem col (columns df)
  then ret (map (fun k => (k, filter (fun r => value_eqb (series_get r col) k)
                                     (rows df)))
                (dropna_unique (column_values df col)))
  else raise (KeyError col).

(** [row.get(label, default)]. *)
Definition row_get (row : Series) (label : string) (default : value) : value :=
  if mem label (series_index row) then series_get row label else default.

(** [sep.join(parts)]. *)
Fixpoint join (sep : string) (parts : list string) : string :=
  match parts with
  | [] => ""
  | [p] => p
  | p :: rest => (p ++ sep ++ join sep rest)%string
  end.

(** [s.split()]: the pieces between whitespace characters, then those that
    are not empty. *)
Fixpoint split_at_spaces (s : string) : list string :=
  match s with
  | EmptyString => [EmptyString]
  | String c s' =>
      if is_space c then EmptyString :: split_at_spaces s'
      else
        match split_at_spaces s' with
        | w :: ws => String c w :: ws
        | [] => [String c EmptyString]
        end
  end.

Definition is_empty (s : string) : bool :=
  match s with
  | EmptyString => true
  | String _ _ => false
  end.

Definition words (s : string) : list string :=
  filter (fun w => negb (is_empty w)) (split_at_spaces s).

(** The capital E with acute accent and the text "CAFÉ". *)
Definition capital_e_acute : ascii := ascii_of_nat 201.
Definition small_e_acute : ascii := ascii_of_nat 233.

(** What [join] puts after a first piece. *)
Definition after_first (ws : list string) : string :=
  match ws with
  | [] => ""
  | _ => (" " ++ join " " ws)%string
  end.

(** [unique_texts[k] = v] on an [OrderedDict]: a key that is there keeps its
    place and takes the new value, a new key goes to the end. *)
Fixpoint od_set (k v : string) (d : list (string * string)) : list (string * string) :=
  match d with
  | [] => [(k, v)]
  | (k', v') :: d' =>
      if String.eqb k' k then (k', v) :: d' else (k', v') :: od_set k v d'
  end.

(** The runs added to a paragraph: the bold pole number with its dash, a
    bold instruction, highlighted in red or not, and the separator. *)
Inductive run : Type :=
| PoleRun (pole_str : string)
| ItemRun (text : string) (highlighted : bool)
| SeparatorRun.

Definition paragraph : Type := list run.
Definition document : Type := list paragraph.

(** The text made of one row: the instruction, then the comment in
    brackets; nothing when both are blank. *)
Definition row_text (row : Series) : option string :=
  let parts := [] in
  let wi := strip (py_str (row_get row "Work instructions" (VStr ""))) in
  let comment := strip (py_str (row_get row "comment" (VStr ""))) in
  let parts := if negb (String.eqb wi "") then parts ++ [wi] else parts in
  let parts :=
    if negb (String.eqb comment "")
    then parts ++ [("(" ++ comment ++ ")")%string]
    else parts in
  match parts with
  | [] => None
  | _ => Some (join " " parts)
  end.

(** The body of the loop over the rows of a pole. *)
Definition add_row_text (unique_texts : list (string * string)) (row : Series)
    : list (string * string) :=
  match row_text row with
  | Some text =>
      let normalized := strip (lower text) in
      od_set normalized text unique_texts
  | None => unique_texts
  end.

(** The loop over [enumerate(texts)]. *)
Fixpoint add_item_runs (texts : list string) : paragraph :=
  match texts with
  | [] => []
  | text :: rest =>
      ItemRun text (contains "Erect Pole" text)
      :: match rest with
         | [] => []
         | _ => SeparatorRun :: add_item_runs rest
         end
  end.

(** The body of the loop over the poles. *)
Definition add_pole (doc : document) (g : value * list Series) : document :=
  let '(pole, group) := g in
  let pole_str := strip (py_str pole) in
  if String.eqb pole_str "" then doc
  else
    let unique_texts := fold_left add_row_text group [] in
    match unique_texts with
    | [] => doc
    | _ =>
        let texts := map snd unique_texts in
        doc ++ [PoleRun pole_str :: add_item_runs texts]
    end.

(** The document that [poles_to_word] saves. *)
Definition poles_to_word (df : DataFrame) : M document :=
  let doc := [] in
  let df := blank_missing df in
  grouped <- groupby df "pole" ;;
  ret (fold_left add_pole grouped doc).

(** The instructions of a paragraph. *)
Fixpoint items_of (p : paragraph) : list string :=
  match p with
  | [] => []
  | ItemRun text _ :: p' => text :: items_of p'
  | _ :: p' => items_of p'
  end.

(** The key under which a text is kept. *)
Definition text_key (text : string) : string := strip (lower text).

(** The heading of a row: its pole as it is printed. *)
Definition pole_heading (row : Series) : string :=
  strip (py_str (series_get row "pole")).

(** A table of work instructions. *)
Definition works : DataFrame :=
  mkDF ["pole"; "Work instructions"; "comment"]
    [ [("pole", VNum 12); ("Work instructions", VStr "Erect Pole");
       ("comment", VStr "nan")];
      [("pole", VStr "A7"); ("Work instructions", VStr "Stay wire");
       ("comment", VStr "rock")];
      [("pole", VNum 12); ("Work instructions", VStr "erect pole ");
       ("comment", VNull)];
      [("pole", VNum 12); ("Work instructions", VNull);
       ("comment", VStr "access via farm")];
      [("pole", VNull); ("Work instructions", VStr "Survey");
       ("comment", VNull)] ].

(** ** The weather requests *)

Record coords : Type := mkCoords { lat : Q; lon : Q }.

(** The [locations] of [get_scottish_weather]. *)
Definition weather_locations : list (string * coords) :=
  [("Ayrshire", mkCoords 55.458 (-4.629));
   ("Lanarkshire", mkCoords 55.676 (-3.785));
   ("Glasgow", mkCoords 55.864 (-4.252));
   ("Edinburgh", mkCoords 55.953 (-3.188))].

(** The [locations] of [get_weather_forecast]. *)
Definition forecast_locations : list (string * coords) :=
  [("Ayrshire", mkCoords 55.458 (-4.629));
   ("Lanarkshire", mkCoords 55.676 (-3.785))].

Fixpoint lookup_location (location : string) (locations : list (string * coords))
    : option coords :=
  match locations with
  | [] => None
  | (name, c) :: rest =>
      if String.eqb name location then Some c else lookup_location location rest
  end.

(** [locations[location] if location in locations else
    locations["Ayrshire"]]. *)
Definition coords_of (locations : list (string * coords)) (location : string)
    : attempt coords :=
  match lookup_location location locations with
  | Some c => Done c
  | None =>
      match lookup_location "Ayrshire" locations with
      | Some c => Done c
      | None => Failed PyKeyError
      end
  end.

(** The request sent: the address and the [params]. *)
Record request : Type := mkRequest {
  base_url : string;
  param_lat : Q;
  param_lon : Q;
  param_appid : string;
  param_units : string
}.

(** The request of [get_scottish_weather]. *)
Definition weather_request (api_key location : string) : attempt request :=
  let? c := coords_of weather_locations location in
  let base_url := "http://api.openweathermap.org/data/2.5/weather" in
  Done (mkRequest base_url (lat c) (lon c) api_key "metric").

(** The request of [get_weather_forecast]. *)
Definition forecast_request (api_key location : string) : attempt request :=
  let? c := coords_of forecast_locations location in
  let base_url := "http://api.openweathermap.org/data/2.5/forecast" in
  Done (mkRequest base_url (lat c) (lon c) api_key "metric").

Section Weather.

(** [requests.get(base_url, params=params, timeout=10)] followed by
    [raise_for_status()] and [json()]: the document received, or nothing
    when one of the three raises. *)
Variable http_get : request -> option json.

(** What the [try] block does with a request: the document, or [None]
    after [st.error]; the flag tells whether [st.error] was called. *)
Definition fetch (params : request) : bool * option json :=
  match http_get params with
  | Some document => (false, Some document)
  | None => (true, None)
  end.

Definition get_scottish_weather (api_key location : string)
    : attempt (bool * option json) :=
  let? params := weather_request api_key location in
  Done (fetch params).

Definition get_weather_forecast (api_key location : string)
    : attempt (bool * option json) :=
  let? params := forecast_request api_key location in
  Done (fetch params).

End Weather.

(** * Properties *)

(** ** Cells, rows and the monad *)

Lemma py_eq_true (a b : value) : py_eq a b = true -> a = b /\ isna a = false.
Proof.
  destruct a, b; simpl; try discriminate; intros H.
  - apply String.eqb_eq in H. now subst.
  - apply Z.eqb_eq in H. now subst.
Qed.

Lemma py_eq_refl (a : value) : isna a = false -> py_eq a a = true.
Proof.
  destruct a; simpl; try discriminate; intros _.
  - apply String.eqb_refl.
  - apply Z.eqb_refl.
Qed.

Lemma value_eqb_eq (a b : value) : value_eqb a b = true <-> a = b.
Proof.
  unfold value_eqb. destruct (value_eq_dec a b); split; congruence.
Qed.

Lemma key_eqb_eq (a b : key) : key_eqb a b = true <-> a = b.
Proof.
  unfold key_eqb. rewrite andb_true_iff, !value_eqb_eq.
  destruct a, b; simpl. split; [intros [-> ->] | intros [= -> ->]]; auto.
Qed.

Lemma mem_In (c : string) (l : list string) : mem c l = true <-> In c l.
Proof.
  unfold mem. rewrite existsb_exists. split.
  - intros [x [Hx He]]. apply String.eqb_eq in He. now subst.
  - intros H. exists c. split; [assumption | apply String.eqb_refl].
Qed.

Lemma mem_false (c : string) (l : list string) : mem c l = false <-> ~ In c l.
Proof.
  rewrite <- mem_In. destruct (mem c l); split; congruence.
Qed.

Lemma bind_Ok {A B : Type} (m : M A) (f : A -> M B) (l : list event) (b : B) :
  bind m f = (l, Ok b) ->
  exists l1 a l2, m = (l1, Ok a) /\ f a = (l2, Ok b) /\ l = (l1 ++ l2)%list.
Proof.
  unfold bind. destruct m as [l1 [a | e]]; [| discriminate].
  destruct (f a) as [l2 r] eqn:E. intros [= <- ->].
  exists l1, a, l2. auto.
Qed.

Lemma bind_run {A B : Type} (m : M A) (f : A -> M B) (l1 l2 : list event)
    (a : A) (r : result B) :
  m = (l1, Ok a) -> f a = (l2, r) -> bind m f = ((l1 ++ l2)%list, r).
Proof. intros -> H. unfold bind. now rewrite H. Qed.

Lemma for_each_cons {A S : Type} (x : A) (l : list A) (body : S -> A -> M S)
    (s : S) :
  for_each (x :: l) body s = bind (body s x) (for_each l body).
Proof. reflexivity. Qed.

(** ** [find_best_match] *)

Section FindBestMatch.

Variable partial_ratio : string -> string -> Z.

Lemma best_loop_null (target : value) (threshold : Z) (st : option value * Z)
    (c : value) :
  isna c = true -> best_loop partial_ratio target threshold st c = ([], Ok st).
Proof. intros H. unfold best_loop. destruct st. now rewrite H. Qed.

Lemma best_loop_scored (target : value) (threshold : Z) (bm : option value)
    (bs : Z) (c : value) :
  isna c = false ->
  best_loop partial_ratio target threshold (bm, bs) c
  = ([PartialRatio (preprocess_string target) (preprocess_string c)],
     Ok (if (bs <? score_of partial_ratio target c)
            && (threshold <=? score_of partial_ratio target c)
         then (Some c, score_of partial_ratio target c) else (bm, bs))).
Proof.
  intros H. unfold best_loop, score_of. rewrite H.
  unfold fuzz_partial_ratio, emit, bind, ret.
  now destruct (_ && _).
Qed.

Lemma comparisons_null (target c : value) (cands : list value) :
  isna c = true -> comparisons target (c :: cands) = comparisons target cands.
Proof. intros H. unfold comparisons. simpl. now rewrite H. Qed.

Lemma comparisons_scored (target c : value) (cands : list value) :
  isna c = false ->
  comparisons target (c :: cands)
  = PartialRatio (preprocess_string target) (preprocess_string c)
      :: comparisons target cands.
Proof. intros H. unfold comparisons. simpl. now rewrite H. Qed.

(** The loop never raises; it logs one comparison per non-null candidate;
    the state only moves to a candidate that beats the score so far and
    reaches the threshold, and at the end no candidate that reaches the
    threshold beats the best score. *)
Lemma best_loop_spec (target : value) (threshold : Z) (cands : list value) :
  forall bm bs,
  exists bm' bs',
    for_each cands (best_loop partial_ratio target threshold) (bm, bs)
      = (comparisons target cands, Ok (bm', bs'))
    /\ bs <= bs'
    /\ ((bm', bs') = (bm, bs)
        \/ exists c, In c cands /\ isna c = false /\ bm' = Some c
                     /\ bs' = score_of partial_ratio target c
                     /\ threshold <= bs' /\ bs < bs')
    /\ (forall c, In c cands -> isna c = false ->
                  score_of partial_ratio target c < threshold
                  \/ score_of partial_ratio target c <= bs').
Proof.
  induction cands as [| c cands IH]; intros bm bs.
  - exists bm, bs. split; [reflexivity |]. split; [lia |].
    split; [now left | intros c []].
  - rewrite for_each_cons. destruct (isna c) eqn:Hna.
    + destruct (IH bm bs) as (bm' & bs' & Hrun & Hle & Hst & Hall).
      exists bm', bs'. split; [| split; [| split]].
      * rewrite comparisons_null by assumption.
        exact (bind_run _ _ _ _ _ _ (best_loop_null _ _ _ _ Hna) Hrun).
      * assumption.
      * destruct Hst as [Hst | (c' & Hin & Hc' & Hrest)]; [now left | right].
        exists c'. split; [now right | auto].
      * intros c' [<- | Hin] Hc'; [congruence | auto].
    + destruct ((bs <? score_of partial_ratio target c)
                && (threshold <=? score_of partial_ratio target c))
        eqn:Hup.
      * apply andb_true_iff in Hup. destruct Hup as [H1 H2].
        apply Z.ltb_lt in H1. apply Z.leb_le in H2.
        destruct (IH (Some c) (score_of partial_ratio target c))
          as (bm' & bs' & Hrun & Hle & Hst & Hall).
        exists bm', bs'. split; [| split; [| split]].
        -- rewrite comparisons_scored by assumption.
           pose proof (best_loop_scored target threshold bm bs c Hna) as Hstep.
           rewrite (proj2 (Z.ltb_lt _ _) H1), (proj2 (Z.leb_le _ _) H2) in Hstep.
           exact (bind_run _ _ _ _ _ _ Hstep Hrun).
        -- lia.
        -- right. destruct Hst as [Hst | (c' & Hin & Hc' & Hb & Hs & Ht & Hlt)].
           ++ injection Hst as -> ->. exists c. repeat split; auto. now left.
           ++ exists c'. repeat split; auto; [now right | lia].
        -- intros c' [<- | Hin] Hc'; [right; lia | auto].
      * destruct (IH bm bs) as (bm' & bs' & Hrun & Hle & Hst & Hall).
        exists bm', bs'. split; [| split; [| split]].
        -- rewrite comparisons_scored by assumption.
           pose proof (best_loop_scored target threshold bm bs c Hna) as Hstep.
           rewrite Hup in Hstep.
           exact (bind_run _ _ _ _ _ _ Hstep Hrun).
        -- assumption.
        -- destruct Hst as [Hst | (c' & Hin & Hc' & Hrest)]; [now left | right].
           exists c'. split; [now right | auto].
        -- intros c' [<- | Hin] Hc'; [| auto].
           apply andb_false_iff in Hup. destruct Hup as [Hup | Hup].
           ++ apply Z.ltb_ge in Hup. right. lia.
           ++ apply Z.leb_gt in Hup. left. lia.
Qed.

Lemma find_best_match_loop (target : value) (cands : list value) (threshold : Z) :
  isna target = false ->
  find_best_match partial_ratio target (Some cands) threshold
  = for_each cands (best_loop partial_ratio target threshold) (None, 0).
Proof.
  intros Hna. unfold find_best_match. rewrite Hna.
  destruct cands; reflexivity.
Qed.

(** What [find_best_match] returns on a non-null target. *)
Lemma find_best_match_spec (target : value) (cands : list value) (threshold : Z) :
  isna target = false ->
  exists bm bs,
    find_best_match partial_ratio target (Some cands) threshold
      = (comparisons target cands, Ok (bm, bs))
    /\ 0 <= bs
    /\ ((bm = None /\ bs = 0)
        \/ exists c, In c cands /\ isna c = false /\ bm = Some c
                     /\ bs = score_of partial_ratio target c /\ threshold <= bs /\ 0 < bs)
    /\ (forall c, In c cands -> isna c = false ->
                  score_of partial_ratio target c < threshold
                  \/ score_of partial_ratio target c <= bs).
Proof.
  intros Hna. rewrite find_best_match_loop by assumption.
  destruct (best_loop_spec target threshold cands None 0)
    as (bm & bs & Hrun & Hle & Hst & Hall).
  exists bm, bs. repeat split; auto.
  destruct Hst as [[= -> ->] | H]; [left; auto | right; assumption].
Qed.

End FindBestMatch.

(** ** Rows *)

Lemma series_get_set_same (r : Series) (c : string) (v : value) :
  series_get (series_set r c v) c = v.
Proof.
  induction r as [| [k x] r IH]; simpl.
  - now rewrite String.eqb_refl.
  - destruct (String.eqb k c) eqn:E; simpl; rewrite E; auto.
Qed.

Lemma series_get_set_other (r : Series) (c c' : string) (v : value) :
  c <> c' -> series_get (series_set r c v) c' = series_get r c'.
Proof.
  intros Hne. induction r as [| [k x] r IH]; simpl.
  - destruct (String.eqb c c') eqn:E; [apply String.eqb_eq in E; contradiction | auto].
  - destruct (String.eqb k c) eqn:E; simpl.
    + apply String.eqb_eq in E. subst k.
      destruct (String.eqb c c') eqn:E'; [apply String.eqb_eq in E'; contradiction | auto].
    + now rewrite IH.
Qed.

Lemma series_index_set (r : Series) (c : string) (v : value) :
  series_index (series_set r c v)
  = if mem c (series_index r) then series_index r
    else (series_index r ++ [c])%list.
Proof.
  unfold series_index, mem. induction r as [| [k x] r IH]; simpl.
  - reflexivity.
  - rewrite (String.eqb_sym c k). destruct (String.eqb k c) eqn:E; simpl.
    + reflexivity.
    + rewrite IH. now destruct (existsb _ _).
Qed.

Lemma series_get_absent (r : Series) (c : string) :
  ~ In c (series_index r) -> series_get r c = VNull.
Proof.
  induction r as [| [k x] r IH]; simpl; intros H; [reflexivity |].
  destruct (String.eqb k c) eqn:E.
  - apply String.eqb_eq in E. tauto.
  - apply IH. tauto.
Qed.

Lemma series_get_reindex (cols : list string) (r : Series) (c : string) :
  series_get (reindex cols r) c = if mem c cols then series_get r c else VNull.
Proof.
  unfold reindex, mem. induction cols as [| k cols IH]; simpl; [reflexivity |].
  rewrite (String.eqb_sym c k). destruct (String.eqb k c) eqn:E; simpl.
  - apply String.eqb_eq in E. now subst.
  - assumption.
Qed.

Lemma series_index_reindex (cols : list string) (r : Series) :
  series_index (reindex cols r) = cols.
Proof.
  unfold series_index, reindex. rewrite map_map. simpl. apply map_id.
Qed.

(** A [set] extends the index at its end and keeps what was there. *)
Lemma series_set_extends (r : Series) (c : string) (v : value) :
  exists extra, series_index (series_set r c v) = (series_index r ++ extra)%list
                /\ incl extra [c].
Proof.
  rewrite series_index_set. destruct (mem c (series_index r)).
  - exists []. split; [now rewrite app_nil_r | intros x []].
  - exists [c]. split; [reflexivity | apply incl_refl].
Qed.

Lemma add_other_pid_columns_cons (col : string) (cols : list string)
    (p new_row : Series) :
  add_other_pid_columns (col :: cols) p new_row
  = add_other_pid_columns cols p
      (if negb (mem col (series_index new_row))
          && negb (mem col ["project"; "shire"])
       then series_set new_row col (series_get p col)
       else new_row).
Proof. reflexivity. Qed.

Lemma add_other_pid_columns_spec (pid_columns : list string) (p : Series) :
  forall new_row,
    (forall c, In c (series_index new_row) ->
               series_get (add_other_pid_columns pid_columns p new_row) c
               = series_get new_row c)
    /\ exists extra,
         series_index (add_other_pid_columns pid_columns p new_row)
         = (series_index new_row ++ extra)%list
         /\ incl extra pid_columns.
Proof.
  induction pid_columns as [| col cols IH]; intros new_row.
  - split; [auto |]. exists []. split; [now rewrite app_nil_r | intros x []].
  - rewrite add_other_pid_columns_cons.
    destruct (negb (mem col (series_index new_row))
              && negb (mem col ["project"; "shire"])) eqn:E.
    + apply andb_true_iff in E. destruct E as [E _].
      apply negb_true_iff, mem_false in E.
      destruct (IH (series_set new_row col (series_get p col)))
        as [Hget (extra & Hidx & Hincl)].
      rewrite series_index_set in Hget, Hidx.
      rewrite (proj2 (mem_false _ _) E) in Hget, Hidx.
      split.
      * intros c Hc. rewrite Hget by (apply in_or_app; now left).
        apply series_get_set_other. intros ->. contradiction.
      * exists (col :: extra). split.
        -- rewrite Hidx, <- app_assoc. reflexivity.
        -- intros x [<- | Hx]; [now left | right; auto].
    + destruct (IH new_row) as [Hget (extra & Hidx & Hincl)].
      split; [assumption |]. exists extra. split; [assumption |].
      intros x Hx. right. auto.
Qed.

(** The four fields written by an accepted match. *)
Lemma enrich_row_fields (r : Series) (bm : value) (sc : Z) (pc : list string)
    (p : Series) :
  let r' := enrich_row r bm sc pc p in
  series_get r' "matched_project_description" = bm
  /\ series_get r' "match_score" = VNum sc
  /\ series_get r' "pid_ohl_nr" = series_get p "pid_ohl_nr"
  /\ series_get r' "project_description" = bm.
Proof.
  unfold enrich_row. cbv zeta.
  set (r1 := series_set r "matched_project_description" bm).
  set (r2 := series_set r1 "match_score" (VNum sc)).
  set (r3 := series_set r2 "pid_ohl_nr" (series_get p "pid_ohl_nr")).
  set (r4 := series_set r3 "project_description" bm).
  destruct (add_other_pid_columns_spec pc p r4) as [Hget _].
  assert (Hin : forall (x : Series) c v, In c (series_index (series_set x c v))).
  { intros x c v. rewrite series_index_set.
    destruct (mem c (series_index x)) eqn:E;
      [now apply mem_In | apply in_or_app; right; now left]. }
  assert (Hkeep : forall (x : Series) c c' v,
             In c (series_index x) -> In c (series_index (series_set x c' v))).
  { intros x c c' v H. rewrite series_index_set.
    destruct (mem c' (series_index x)); [assumption | apply in_or_app; now left]. }
  repeat split.
  - rewrite Hget by (unfold r4, r3, r2, r1; auto).
    unfold r4, r3, r2, r1.
    rewrite !series_get_set_other by discriminate.
    apply series_get_set_same.
  - rewrite Hget by (unfold r4, r3, r2; auto).
    unfold r4, r3, r2.
    rewrite !series_get_set_other by discriminate.
    apply series_get_set_same.
  - rewrite Hget by (unfold r4, r3; auto).
    unfold r4, r3.
    rewrite !series_get_set_other by discriminate.
    apply series_get_set_same.
  - rewrite Hget by (unfold r4; auto).
    unfold r4. apply series_get_set_same.
Qed.

(** An accepted match keeps every other field of the aggregated row and
    appends its new labels after the row's own. *)
Lemma enrich_row_frame (r : Series) (bm : value) (sc : Z) (pc : list string)
    (p : Series) :
  let r' := enrich_row r bm sc pc p in
  (forall c, In c (series_index r) -> ~ In c enrichment_cols ->
             series_get r' c = series_get r c)
  /\ exists extra, series_index r' = (series_index r ++ extra)%list
                   /\ incl extra (enrichment_cols ++ pc)%list.
Proof.
  unfold enrich_row. cbv zeta.
  set (r1 := series_set r "matched_project_description" bm).
  set (r2 := series_set r1 "match_score" (VNum sc)).
  set (r3 := series_set r2 "pid_ohl_nr" (series_get p "pid_ohl_nr")).
  set (r4 := series_set r3 "project_description" bm).
  destruct (add_other_pid_columns_spec pc p r4) as [Hget (e5 & H5 & I5)].
  destruct (series_set_extends r "matched_project_description" bm)
    as (e1 & H1 & I1). fold r1 in H1.
  destruct (series_set_extends r1 "match_score" (VNum sc)) as (e2 & H2 & I2).
  fold r2 in H2.
  destruct (series_set_extends r2 "pid_ohl_nr" (series_get p "pid_ohl_nr"))
    as (e3 & H3 & I3). fold r3 in H3.
  destruct (series_set_extends r3 "project_description" bm) as (e4 & H4 & I4).
  fold r4 in H4.
  split.
  - intros c Hc Hn.
    rewrite Hget
      by (rewrite H4, H3, H2, H1; repeat (apply in_or_app; left); assumption).
    unfold r4, r3, r2, r1.
    rewrite !series_get_set_other; [reflexivity | | | |];
      intros <-; apply Hn; simpl; auto.
  - exists (e1 ++ e2 ++ e3 ++ e4 ++ e5)%list. split.
    + rewrite H5, H4, H3, H2, H1. now rewrite <- !app_assoc.
    + intros x Hx. apply in_or_app.
      repeat (apply in_app_or in Hx; destruct Hx as [Hx | Hx]).
      * left. apply I1 in Hx. destruct Hx as [<- | []]. simpl; auto.
      * left. apply I2 in Hx. destruct Hx as [<- | []]. simpl; auto.
      * left. apply I3 in Hx. destruct Hx as [<- | []]. simpl; auto.
      * left. apply I4 in Hx. destruct Hx as [<- | []]. simpl; auto.
      * right. auto.
Qed.

Lemma dedup_In {A : Type} (eqb : A -> A -> bool) (l : list A) :
  forall seen x, In x (dedup eqb seen l) -> In x l.
Proof.
  induction l as [| y l IH]; intros seen x; simpl; [auto |].
  destruct (existsb (eqb y) seen).
  - intros H. right. eauto.
  - intros [<- | H]; [now left | right; eauto].
Qed.

Lemma dropna_unique_In (l : list value) (x : value) :
  In x (dropna_unique l) -> In x l /\ isna x = false.
Proof.
  unfold dropna_unique. intros H. apply dedup_In in H.
  apply filter_In in H. destruct H as [H1 H2].
  split; [assumption | now apply negb_true_iff].
Qed.

(** ** The steps of the reconciliation *)

Section Steps.

Variable partial_ratio : string -> string -> Z.

Lemma descriptions_row (ps : DataFrame) (c : value) :
  In c (descriptions ps) ->
  exists q, In q (rows ps)
            /\ py_eq (series_get q "project_description") c = true.
Proof.
  intros H. apply dropna_unique_In in H. destruct H as [H Hna].
  apply in_map_iff in H. destruct H as (q & Hq & Hin).
  exists q. split; [assumption |]. rewrite Hq. now apply py_eq_refl.
Qed.

Lemma match_agg_row_spec (ps : DataFrame) (acc : list DataFrame) (r : Series) :
  exists l r',
    match_agg_row partial_ratio ps (descriptions ps) acc r
    = (l, Ok (acc ++ [frame_of_row r'])%list)
    /\ row_step partial_ratio ps r l r'.
Proof.
  unfold match_agg_row.
  destruct (isna (series_get r "segmentdesc")) eqn:Hna.
  - exists [], r. split; [reflexivity | now constructor].
  - destruct (find_best_match_spec partial_ratio (series_get r "segmentdesc")
                (descriptions ps) 75 Hna)
      as (bm & bs & Hrun & Hpos & Hst & Hall).
    rewrite Hrun. unfold bind.
    destruct bm as [c |].
    + destruct (truthy c && (75 <=? bs)) eqn:Hacc.
      * destruct Hst as [[? _] | (c' & Hin & Hc' & [= <-] & _)]; [discriminate |].
        destruct (descriptions_row ps c Hin) as (q & Hq & Heq).
        unfold iloc0, select. simpl rows.
        destruct (filter (fun q0 => py_eq (series_get q0 "project_description") c)
                         (rows ps)) as [| p rest] eqn:Hf.
        { assert (Hq' : In q (filter (fun q0 =>
                     py_eq (series_get q0 "project_description") c) (rows ps)))
            by (apply filter_In; auto).
          rewrite Hf in Hq'. destruct Hq'. }
        exists (comparisons (series_get r "segmentdesc") (descriptions ps)),
               (enrich_row r c bs (columns ps) p).
        split.
        -- unfold ret. simpl. now rewrite !app_nil_r.
        -- eapply RowMatched; eauto. now rewrite Hf.
      * exists (comparisons (series_get r "segmentdesc") (descriptions ps)), r.
        split.
        -- unfold ret. now rewrite app_nil_r.
        -- eapply RowUnmatched; eauto.
    + exists (comparisons (series_get r "segmentdesc") (descriptions ps)), r.
      split.
      * unfold ret. now rewrite app_nil_r.
      * eapply RowUnmatched; eauto.
Qed.

Lemma for_each_rows_spec (ps : DataFrame) (rs : list Series) :
  forall acc,
  exists l rs',
    for_each rs (match_agg_row partial_ratio ps (descriptions ps)) acc
    = (l, Ok (acc ++ map frame_of_row rs')%list)
    /\ rows_step partial_ratio ps rs l rs'.
Proof.
  induction rs as [| r rs IH]; intros acc.
  - exists [], []. split; [simpl; now rewrite app_nil_r | constructor].
  - destruct (match_agg_row_spec ps acc r) as (l & r' & Hrun & Hstep).
    destruct (IH (acc ++ [frame_of_row r'])%list) as (ls & rs' & Hruns & Hsteps).
    exists (l ++ ls)%list, (r' :: rs'). split.
    + rewrite for_each_cons.
      rewrite <- app_assoc in Hruns.
      exact (bind_run _ _ _ _ _ _ Hrun Hruns).
    + now constructor.
Qed.

Lemma match_combination_spec (agg_df pid_df : DataFrame) (n : nat)
    (acc : list DataFrame) (idx : nat) (k : key) :
  exists l fs,
    match_combination partial_ratio agg_df pid_df n acc (idx, k)
    = (ProgressSet (idx + 1) n :: l, Ok (acc ++ fs)%list)
    /\ group_step partial_ratio agg_df pid_df k l fs.
Proof.
  unfold match_combination.
  destruct (df_empty (select pid_df (key_mask k))) eqn:He.
  - exists [], [select agg_df (key_mask k)]. split; [reflexivity | now constructor].
  - destruct (for_each_rows_spec (select pid_df (key_mask k))
                (filter (key_mask k) (rows agg_df)) acc)
      as (l & rs' & Hrun & Hsteps).
    exists l, (map frame_of_row rs'). split.
    + unfold descriptions in Hrun. simpl rows in *.
      unfold emit, bind. simpl rows. rewrite Hrun. reflexivity.
    + now constructor.
Qed.

Lemma for_each_groups_spec (agg_df pid_df : DataFrame) (n : nat)
    (ks : list key) :
  forall i acc,
  exists ls fss,
    for_each (enumerate i ks) (match_combination partial_ratio agg_df pid_df n) acc
    = (ls, Ok (acc ++ fss)%list)
    /\ groups_step partial_ratio agg_df pid_df n i ks ls fss.
Proof.
  induction ks as [| k ks IH]; intros i acc.
  - exists [], []. split; [simpl; now rewrite app_nil_r | constructor].
  - destruct (match_combination_spec agg_df pid_df n acc i k)
      as (l & fs & Hrun & Hstep).
    destruct (IH (S i) (acc ++ fs)%list) as (ls & fss & Hruns & Hsteps).
    exists (ProgressSet (i + 1) n :: l ++ ls)%list, (fs ++ fss)%list. split.
    + simpl enumerate. rewrite for_each_cons.
      rewrite <- app_assoc in Hruns.
      exact (bind_run _ _ _ _ _ _ Hrun Hruns).
    + now constructor.
Qed.

End Steps.

Lemma fillna_column_Ok (df : DataFrame) (col : string) (d : value)
    (l : list event) (df' : DataFrame) :
  fillna_column df col d = (l, Ok df') ->
  l = [] /\ In col (columns df)
  /\ df' = mkDF (columns df) (map (fill col d) (rows df)).
Proof.
  unfold fillna_column. destruct (mem col (columns df)) eqn:E.
  - intros [= <- <-]. repeat split. now apply mem_In.
  - discriminate.
Qed.

Lemma count_ge_log (df : DataFrame) (col : string) (k : Z) (l : list event)
    (r : result nat) :
  count_ge df col k = (l, r) -> l = [].
Proof.
  unfold count_ge. destruct (mem col (columns df)); [| now intros [= <- _]].
  revert l r. generalize 0%nat.
  induction (rows df) as [| x xs IH]; intros n l r.
  - now intros [= <- _].
  - rewrite for_each_cons. unfold ge_number.
    destruct (series_get x col); unfold bind, ret, raise; simpl.
    + destruct (for_each xs _ n) as [l' r'] eqn:E. intros [= <- _]. eauto.
    + now intros [= <- _].
    + destruct (for_each xs _ _) as [l' r'] eqn:E. intros [= <- _]. eauto.
Qed.

Section Merge.

Variable partial_ratio : string -> string -> Z.

Lemma merge_main_spec (agg_df pid_df : DataFrame) (log : list event)
    (out : DataFrame) :
  main_path agg_df pid_df ->
  merge_with_pid_fuzzy partial_ratio agg_df (Some pid_df) = (log, Ok out) ->
  let n := List.length (unique_key_combinations agg_df) in
  exists ls fss,
    groups_step partial_ratio agg_df pid_df n 0
                (unique_key_combinations agg_df) ls fss
    /\ ((fss = [] /\ out = agg_df
         /\ log = (ProgressNew :: SidebarInfo n :: ls ++ [ProgressEmpty])%list)
        \/ (fss <> []
            /\ out = mkDF (columns (concat fss))
                          (map finalize (rows (concat fss)))
            /\ In "matched_project_description" (columns (concat fss))
            /\ In "match_score" (columns (concat fss))
            /\ In "pid_ohl_nr" (columns (concat fss))
            /\ exists m,
                 log = (ProgressNew :: SidebarInfo n :: ls
                          ++ [ProgressEmpty;
                              SidebarSuccess m (List.length (rows out))])%list)).
Proof.
  intros (He & Ha & Hp) Hrun n.
  unfold merge_with_pid_fuzzy in Hrun. rewrite He, Ha, Hp in Hrun.
  fold n in Hrun.
  destruct (for_each_groups_spec partial_ratio agg_df pid_df n
              (unique_key_combinations agg_df) 0%nat [])
    as (ls & fss & Hloop & Hsteps).
  simpl app in Hloop.
  exists ls, fss. split; [assumption |].
  unfold emit in Hrun. unfold bind at 1 2 in Hrun.
  rewrite Hloop in Hrun. unfold bind at 1 in Hrun.
  unfold combine_matched_rows in Hrun.
  destruct fss as [| f fss].
  - left. unfold bind, ret in Hrun. simpl in Hrun.
    injection Hrun as <- <-. repeat split.
  - right. split; [discriminate |].
    remember (f :: fss) as frames eqn:Hfr.
    set (rest := bind ([ProgressEmpty], Ok tt) _) in Hrun.
    destruct rest as [l1 r1] eqn:Hm. subst rest.
    injection Hrun as <- ->.
    apply bind_Ok in Hm. destruct Hm as (la & u & lb & H0 & Hm & ->).
    injection H0 as <- _.
    apply bind_Ok in Hm. destruct Hm as (la & d1 & lb' & H1 & Hm & ->).
    apply fillna_column_Ok in H1. destruct H1 as (-> & Hin1 & ->).
    apply bind_Ok in Hm. destruct Hm as (la & d2 & lc & H2 & Hm & ->).
    apply fillna_column_Ok in H2. destruct H2 as (-> & Hin2 & ->).
    apply bind_Ok in Hm. destruct Hm as (la & d3 & ld & H3 & Hm & ->).
    apply fillna_column_Ok in H3. destruct H3 as (-> & Hin3 & ->).
    apply bind_Ok in Hm. destruct Hm as (la & m & le & H4 & Hm & ->).
    apply count_ge_log in H4. subst la.
    unfold emit, bind, ret in Hm. simpl in Hm. injection Hm as <- <-.
    simpl columns in *. simpl rows in *.
    split; [| split; [assumption | split; [assumption | split; [assumption |]]]].
    + f_equal. rewrite !map_map. reflexivity.
    + exists m. simpl. rewrite !map_map. reflexivity.
Qed.

End Merge.

(** ** [pd.concat] *)

Lemma dedup_complete {A : Type} (eqb : A -> A -> bool)
    (eqb_eq : forall a b, eqb a b = true <-> a = b) (l : list A) :
  forall seen x, In x l -> In x seen \/ In x (dedup eqb seen l).
Proof.
  induction l as [| y l IH]; intros seen x; simpl; [tauto |].
  intros [-> | H].
  - destruct (existsb (eqb x) seen) eqn:E.
    + left. apply existsb_exists in E. destruct E as (z & Hz & Hxz).
      apply eqb_eq in Hxz. now subst.
    + right. now left.
  - destruct (existsb (eqb y) seen) eqn:E.
    + now apply IH.
    + destruct (IH (y :: seen) x H) as [[-> | Hs] | Hd].
      * right. now left.
      * now left.
      * right. now right.
Qed.

Lemma dedup_NoDup {A : Type} (eqb : A -> A -> bool)
    (eqb_eq : forall a b, eqb a b = true <-> a = b) (l : list A) :
  forall seen,
    NoDup (dedup eqb seen l)
    /\ forall x, In x (dedup eqb seen l) -> ~ In x seen.
Proof.
  induction l as [| y l IH]; intros seen; simpl.
  - split; [constructor | intros x []].
  - destruct (existsb (eqb y) seen) eqn:E; [apply IH |].
    destruct (IH (y :: seen)) as [Hnd Hns]. split.
    + constructor; [| assumption].
      intros Hy. apply (Hns y Hy). now left.
    + intros x [<- | Hx].
      * intros Hs. assert (existsb (eqb y) seen = true); [| congruence].
        apply existsb_exists. exists y. split; [assumption | now apply eqb_eq].
      * intros Hs. apply (Hns x Hx). now right.
Qed.

Lemma union_index_In (a b : list string) (c : string) :
  In c (union_index a b) <-> In c a \/ In c b.
Proof.
  unfold union_index. rewrite in_app_iff, filter_In. split.
  - intros [H | [H _]]; [now left | right; eapply dedup_In; eauto].
  - intros [H | H]; [now left |].
    destruct (mem c a) eqn:E; [left; now apply mem_In |].
    right. split; [| reflexivity].
    destruct (dedup_complete String.eqb String.eqb_eq b [] c H) as [[] | Hd].
    assumption.
Qed.

Lemma fold_union_In (ls : list (list string)) :
  forall acc c,
    In c (fold_left union_index ls acc)
    <-> In c acc \/ exists l, In l ls /\ In c l.
Proof.
  induction ls as [| l ls IH]; intros acc c; simpl.
  - split; [now left | intros [H | (l & [] & _)]; assumption].
  - rewrite IH, union_index_In. split.
    + intros [[H | H] | (l' & Hl' & Hc)].
      * now left.
      * right. exists l. split; [now left | assumption].
      * right. exists l'. split; [now right | assumption].
    + intros [H | (l' & [<- | Hl'] & Hc)].
      * left. now left.
      * left. now right.
      * right. exists l'. split; assumption.
Qed.

Lemma columns_concat_In (frames : list DataFrame) (c : string) :
  In c (columns (concat frames))
  <-> exists f, In f frames /\ In c (columns f).
Proof.
  unfold concat. simpl columns. rewrite fold_union_In. split.
  - intros [[] | (l & Hl & Hc)]. apply in_map_iff in Hl.
    destruct Hl as (f & <- & Hf). exists f. split; assumption.
  - intros (f & Hf & Hc). right. exists (columns f). split; [| assumption].
    now apply in_map.
Qed.

Lemma rows_concat (frames : list DataFrame) :
  rows (concat frames)
  = map (reindex (columns (concat frames))) (flat_map rows frames).
Proof.
  unfold concat. simpl. generalize (fold_left union_index (map columns frames) []).
  intros cols. induction frames as [| f fs IH]; simpl; [reflexivity |].
  now rewrite map_app, IH.
Qed.

Lemma dedup_NoDup_id (l : list string) :
  NoDup l -> forall seen, (forall x, In x l -> ~ In x seen) ->
  dedup String.eqb seen l = l.
Proof.
  induction 1 as [| x l Hx Hnd IH]; intros seen Hs; simpl; [reflexivity |].
  destruct (existsb (String.eqb x) seen) eqn:E.
  - exfalso. apply existsb_exists in E. destruct E as (y & Hy & He).
    apply String.eqb_eq in He. subst y. apply (Hs x); [now left | assumption].
  - f_equal. apply IH. intros y Hy [<- | Hs']; [contradiction |].
    apply (Hs y); [now right | assumption].
Qed.

(** When every frame starts with the columns [A], so does their union. *)
Lemma fold_union_prefix (A : list string) (ls : list (list string)) :
  forall e,
    (forall l, In l ls -> exists e', l = (A ++ e')%list) ->
    exists e'', fold_left union_index ls (A ++ e)%list = (A ++ e'')%list
                /\ forall c, In c e'' ->
                     In c e \/ exists l, In l ls /\ In c l /\ ~ In c A.
Proof.
  induction ls as [| l ls IH]; intros e Hl; simpl.
  - exists e. split; [reflexivity | auto].
  - destruct (Hl l (or_introl eq_refl)) as (e' & ->).
    assert (Hstep : exists e1, union_index (A ++ e)%list (A ++ e')%list = (A ++ e1)%list
                      /\ forall c, In c e1 ->
                           In c e \/ (In c (A ++ e')%list /\ ~ In c A)).
    { unfold union_index.
      exists (e ++ filter (fun c => negb (mem c (A ++ e)%list))
                          (dedup String.eqb [] (A ++ e')%list))%list.
      split; [now rewrite app_assoc |].
      intros c Hc. apply in_app_or in Hc. destruct Hc as [Hc | Hc]; [now left |].
      apply filter_In in Hc. destruct Hc as [Hc Hm].
      apply dedup_In in Hc. apply negb_true_iff, mem_false in Hm.
      right. split; [assumption |]. intros Ha. apply Hm.
      apply in_or_app. now left. }
    destruct Hstep as (e1 & -> & He1).
    destruct (IH e1 (fun l' H => Hl l' (or_intror H))) as (e2 & -> & He2).
    exists e2. split; [reflexivity |].
    intros c Hc. destruct (He2 c Hc) as [H1 | (l' & Hl' & Hc' & Hn)].
    + destruct (He1 c H1) as [H | [H Hn]]; [now left |].
      right. exists (A ++ e')%list. repeat split; auto.
    + right. exists l'. repeat split; auto.
Qed.

Lemma columns_concat_prefix (A : list string) (f : DataFrame)
    (fs : list DataFrame) :
  NoDup A ->
  (forall g, In g (f :: fs) -> exists e, NoDup (columns g)
                                        /\ columns g = (A ++ e)%list) ->
  exists extra,
    columns (concat (f :: fs)) = (A ++ extra)%list
    /\ forall c, In c extra ->
         exists g, In g (f :: fs) /\ In c (columns g) /\ ~ In c A.
Proof.
  intros HA Hfs. unfold concat. simpl columns. simpl map. simpl fold_left.
  destruct (Hfs f (or_introl eq_refl)) as (e & Hnd & He).
  assert (H0 : union_index [] (columns f) = (A ++ e)%list).
  { unfold union_index. simpl.
    rewrite dedup_NoDup_id by (auto; intros x _ []).
    rewrite <- He. clear. induction (columns f); simpl; [reflexivity | now f_equal]. }
  rewrite H0.
  destruct (fold_union_prefix A (map columns fs) e) as (e2 & -> & He2).
  { intros l Hl. apply in_map_iff in Hl. destruct Hl as (g & <- & Hg).
    destruct (Hfs g (or_intror Hg)) as (e' & _ & E). eauto. }
  exists e2. split; [reflexivity |].
  intros c Hc. destruct (He2 c Hc) as [H | (l & Hl & Hcl & Hn)].
  - exists f. split; [now left |]. rewrite He. split.
    + apply in_or_app. now right.
    + intros Ha. rewrite He in Hnd. apply NoDup_app_remove_l in Hnd as Hnd'.
      clear - Hnd H Ha. induction A as [| a A IH]; [destruct Ha |].
      simpl in Hnd. inversion Hnd as [| ? ? Hna Hnd']; subst.
      destruct Ha as [<- | Ha]; [| auto].
      apply Hna. apply in_or_app. now right.
  - apply in_map_iff in Hl. destruct Hl as (g & <- & Hg).
    exists g. split; [now right | split; assumption].
Qed.

Lemma series_set_NoDup (r : Series) (c : string) (v : value) :
  NoDup (series_index r) -> NoDup (series_index (series_set r c v)).
Proof.
  intros H. rewrite series_index_set. destruct (mem c (series_index r)) eqn:E.
  - assumption.
  - apply mem_false in E. apply NoDup_app; [assumption | repeat constructor; auto | ].
    intros x Hx [<- | []]. contradiction.
Qed.

Lemma add_other_pid_columns_NoDup (pid_columns : list string) (p : Series) :
  forall new_row,
    NoDup (series_index new_row) ->
    NoDup (series_index (add_other_pid_columns pid_columns p new_row)).
Proof.
  induction pid_columns as [| col cols IH]; intros new_row H; [assumption |].
  rewrite add_other_pid_columns_cons. apply IH.
  destruct (_ && _); [now apply series_set_NoDup | assumption].
Qed.

Lemma enrich_row_NoDup (r : Series) (bm : value) (sc : Z) (pc : list string)
    (p : Series) :
  NoDup (series_index r) -> NoDup (series_index (enrich_row r bm sc pc p)).
Proof.
  intros H. unfold enrich_row.
  apply add_other_pid_columns_NoDup. now repeat apply series_set_NoDup.
Qed.

(** ** From the loops to the rows of the result *)

Section Outcome.

Variable partial_ratio : string -> string -> Z.

Lemma rows_step_Forall2 (ps : DataFrame) (rs : list Series) (l : list event)
    (rs' : list Series) :
  rows_step partial_ratio ps rs l rs' ->
  Forall2 (fun r r' => exists l', row_step partial_ratio ps r l' r') rs rs'.
Proof. induction 1; constructor; eauto. Qed.

Lemma Forall2_app_both {A B : Type} (R : A -> B -> Prop) (l1 l2 : list A)
    (m1 m2 : list B) :
  Forall2 R l1 m1 -> Forall2 R l2 m2 -> Forall2 R (l1 ++ l2) (m1 ++ m2).
Proof. induction 1; simpl; auto. Qed.

Lemma Forall2_weaken_In {A B : Type} (R R' : A -> B -> Prop) (l : list A)
    (m : list B) :
  Forall2 R l m ->
  (forall a b, In a l -> In b m -> R a b -> R' a b) ->
  Forall2 R' l m.
Proof.
  induction 1 as [| a b l m Hab H IH]; intros Himp; constructor.
  - apply Himp; simpl; auto.
  - apply IH. intros a' b' Ha Hb. apply Himp; simpl; auto.
Qed.

Lemma Forall2_filter_same {A : Type} (R : A -> A -> Prop) (p : A -> bool)
    (l : list A) :
  (forall a, In a l -> p a = true -> R a a) -> Forall2 R (filter p l) (filter p l).
Proof.
  induction l as [| a l IH]; intros H; simpl; [constructor |].
  destruct (p a) eqn:E.
  - constructor; [apply H; simpl; auto | apply IH; intros; apply H; simpl; auto].
  - apply IH. intros; apply H; simpl; auto.
Qed.

Lemma flat_map_rows_frames (rs : list Series) :
  flat_map rows (map frame_of_row rs) = rs.
Proof. induction rs; simpl; [reflexivity | now f_equal]. Qed.

(** Each visited row has its outcome, and the row appended for it carries
    the columns of the frame it is in. *)
Lemma group_rows (agg_df pid_df : DataFrame) (k : key) (l : list event)
    (fs : list DataFrame) :
  df_wf agg_df ->
  group_step partial_ratio agg_df pid_df k l fs ->
  Forall2 (fun r r' => row_outcome partial_ratio agg_df pid_df r r'
                       /\ exists f, In f fs /\ series_index r' = columns f)
          (filter (key_mask k) (rows agg_df)) (flat_map rows fs).
Proof.
  intros [_ Hwf] Hg. destruct Hg as [He | l rs' He Hrs].
  - simpl. rewrite app_nil_r. apply Forall2_filter_same.
    intros r Hr Hk. split.
    + eapply OutNoReference; eauto.
    + exists (select agg_df (key_mask k)). split; [now left |].
      simpl. rewrite Forall_forall in Hwf. auto.
  - rewrite flat_map_rows_frames.
    apply rows_step_Forall2 in Hrs.
    eapply Forall2_weaken_In; [exact Hrs |].
    intros r r' Hr Hr' (l' & Hstep). apply filter_In in Hr. destruct Hr as [Hr Hk].
    split.
    + eapply OutStep; eauto.
    + exists (frame_of_row r'). split; [now apply in_map | reflexivity].
Qed.

Lemma groups_rows (agg_df pid_df : DataFrame) (n i : nat) (ks : list key)
    (ls : list event) (fss : list DataFrame) :
  df_wf agg_df ->
  groups_step partial_ratio agg_df pid_df n i ks ls fss ->
  Forall2 (fun r r' => row_outcome partial_ratio agg_df pid_df r r'
                       /\ exists f, In f fss /\ series_index r' = columns f)
          (flat_map (fun k => filter (key_mask k) (rows agg_df)) ks)
          (flat_map rows fss).
Proof.
  intros Hwf. induction 1 as [| i k ks l fs ls fss Hg Hgs IH]; simpl.
  - constructor.
  - rewrite flat_map_app. apply Forall2_app_both.
    + eapply Forall2_weaken_In; [exact (group_rows _ _ _ _ _ Hwf Hg) |].
      intros r r' _ _ [Ho (f & Hf & Hi)]. split; [assumption |].
      exists f. split; [apply in_or_app; now left | assumption].
    + eapply Forall2_weaken_In; [exact IH |].
      intros r r' _ _ [Ho (f & Hf & Hi)]. split; [assumption |].
      exists f. split; [apply in_or_app; now right | assumption].
Qed.

(** The columns of every appended frame: those of the aggregated table, then
    labels among the enrichment fields and the columns of the reference
    table. *)
Lemma row_step_index (agg_df ps : DataFrame) (r : Series) (l : list event)
    (r' : Series) :
  NoDup (columns agg_df) ->
  series_index r = columns agg_df ->
  row_step partial_ratio ps r l r' ->
  exists e, NoDup (series_index r')
            /\ series_index r' = columns agg_df ++ e
            /\ incl e (enrichment_cols ++ columns ps).
Proof.
  intros Hnd Hidx Hstep. destruct Hstep.
  - exists []. rewrite app_nil_r, Hidx. repeat split; auto. intros x [].
  - exists []. rewrite app_nil_r, Hidx. repeat split; auto. intros x [].
  - destruct (enrich_row_frame r bm sc (columns ps) p) as [_ (e & He & Hi)].
    exists e. rewrite <- Hidx. repeat split; auto.
    apply enrich_row_NoDup. now rewrite Hidx.
Qed.

Lemma rows_step_In (ps : DataFrame) (rs : list Series) (l : list event)
    (rs' : list Series) (r' : Series) :
  rows_step partial_ratio ps rs l rs' -> In r' rs' ->
  exists r l', In r rs /\ row_step partial_ratio ps r l' r'.
Proof.
  induction 1 as [| r rs l ls r0 rs' Hs Hss IH]; intros Hin; [destruct Hin |].
  destruct Hin as [<- | Hin].
  - exists r, l. split; [now left | assumption].
  - destruct (IH Hin) as (r1 & l1 & H1 & H2). exists r1, l1. split; [now right | auto].
Qed.

Lemma groups_frames_shape (agg_df pid_df : DataFrame) (n i : nat)
    (ks : list key) (ls : list event) (fss : list DataFrame) :
  df_wf agg_df ->
  groups_step partial_ratio agg_df pid_df n i ks ls fss ->
  forall f, In f fss ->
    exists e, NoDup (columns f)
              /\ columns f = columns agg_df ++ e
              /\ incl e (enrichment_cols ++ columns pid_df).
Proof.
  intros [Hnd Hwf]. induction 1 as [| i k ks l fs ls fss Hg Hgs IH]; intros f Hf.
  - destruct Hf.
  - apply in_app_or in Hf. destruct Hf as [Hf | Hf]; [| auto].
    destruct Hg as [He | l rs' He Hrs].
    + destruct Hf as [<- | []]. exists []. simpl. rewrite app_nil_r.
      repeat split; auto. intros x [].
    + apply in_map_iff in Hf. destruct Hf as (r' & <- & Hr').
      destruct (rows_step_In _ _ _ _ _ Hrs Hr') as (r & l' & Hr & Hstep).
      apply filter_In in Hr. destruct Hr as [Hr _].
      rewrite Forall_forall in Hwf.
      exact (row_step_index agg_df _ r l' r' Hnd (Hwf r Hr) Hstep).
Qed.

End Outcome.

Section Table.

Variable partial_ratio : string -> string -> Z.

Lemma unique_key_combinations_In (agg_df : DataFrame) (k : key) :
  In k (unique_key_combinations agg_df)
  <-> exists r, In r (rows agg_df) /\ row_key r = k.
Proof.
  unfold unique_key_combinations. split.
  - intros H. apply dedup_In in H. apply in_map_iff in H.
    destruct H as (r & Hr & Hin). eauto.
  - intros (r & Hr & Hk).
    destruct (dedup_complete key_eqb key_eqb_eq (map row_key (rows agg_df)) [] k)
      as [[] | H]; [| assumption].
    apply in_map_iff. eauto.
Qed.

(** A row is selected by its own key as soon as that key has no null. *)
Lemma key_mask_row_key (r : Series) :
  isna (series_get r "project") = false ->
  isna (series_get r "shire") = false ->
  key_mask (row_key r) r = true.
Proof.
  intros H1 H2. unfold key_mask, row_key. simpl.
  now rewrite !py_eq_refl.
Qed.

Lemma key_mask_true (k : key) (r : Series) :
  key_mask k r = true ->
  row_key r = k /\ isna (fst k) = false /\ isna (snd k) = false.
Proof.
  unfold key_mask, row_key. intros H. apply andb_true_iff in H.
  destruct H as [H1 H2]. apply py_eq_true in H1, H2.
  destruct H1 as [H1 N1], H2 as [H2 N2]. destruct k as [a b]. simpl in *.
  subst. auto.
Qed.

Lemma df_empty_select_false (df : DataFrame) (mask : Series -> bool) :
  df_empty (select df mask) = false -> exists q, In q (rows df) /\ mask q = true.
Proof.
  unfold df_empty, select. simpl. destruct (columns df); [discriminate |].
  destruct (filter mask (rows df)) as [| q qs] eqn:E; [discriminate |].
  intros _. exists q. apply filter_In. rewrite E. now left.
Qed.

Lemma rows_step_length (ps : DataFrame) (rs : list Series) (l : list event)
    (rs' : list Series) :
  rows_step partial_ratio ps rs l rs' -> List.length rs' = List.length rs.
Proof. induction 1; simpl; auto. Qed.

Lemma group_step_nonempty (agg_df pid_df : DataFrame) (k : key)
    (l : list event) (fs : list DataFrame) :
  In k (unique_key_combinations agg_df) ->
  group_step partial_ratio agg_df pid_df k l fs -> fs <> [].
Proof.
  intros Hk Hg. destruct Hg as [He | l rs' He Hrs]; [discriminate |].
  apply df_empty_select_false in He. destruct He as (q & _ & Hq).
  apply key_mask_true in Hq. destruct Hq as (_ & N1 & N2).
  apply unique_key_combinations_In in Hk. destruct Hk as (r & Hr & <-).
  assert (Hin : In r (filter (key_mask (row_key r)) (rows agg_df))).
  { apply filter_In. split; [assumption |]. now apply key_mask_row_key. }
  apply rows_step_length in Hrs.
  destruct rs'; [| discriminate].
  simpl in Hrs. destruct (filter _ _); [destruct Hin | discriminate].
Qed.

Lemma unique_key_combinations_nonempty (agg_df : DataFrame) :
  df_empty agg_df = false -> unique_key_combinations agg_df <> [].
Proof.
  unfold df_empty, unique_key_combinations.
  destruct (columns agg_df); [discriminate |].
  destruct (rows agg_df); [discriminate |]. simpl. discriminate.
Qed.

Lemma Forall2_map_r {A B C : Type} (R : A -> B -> Prop) (g : B -> C)
    (l : list A) (m : list B) :
  Forall2 R l m -> Forall2 (fun a c => exists b, R a b /\ c = g b) l (map g m).
Proof. induction 1; simpl; constructor; eauto. Qed.

(** The result of the reconciliation proper: its columns are those of the
    aggregated table followed by appended ones, and its rows are, in the
    order of [grouped], the outcome of each aggregated row put over these
    columns with the three sentinels filled in. *)
Lemma merge_rows_spec (agg_df pid_df : DataFrame) (log : list event)
    (out : DataFrame) :
  df_wf agg_df ->
  main_path agg_df pid_df ->
  merge_with_pid_fuzzy partial_ratio agg_df (Some pid_df) = (log, Ok out) ->
  (exists extra,
     columns out = columns agg_df ++ extra
     /\ forall c, In c extra ->
          In c (enrichment_cols ++ columns pid_df) /\ ~ In c (columns agg_df))
  /\ In "matched_project_description" (columns out)
  /\ In "match_score" (columns out)
  /\ In "pid_ohl_nr" (columns out)
  /\ Forall2 (fun r o =>
                exists r', row_outcome partial_ratio agg_df pid_df r r'
                           /\ incl (series_index r') (columns out)
                           /\ o = finalize (reindex (columns out) r'))
             (grouped agg_df) (rows out).
Proof.
  intros Hwf Hmain Hrun.
  destruct (merge_main_spec partial_ratio agg_df pid_df log out Hmain Hrun)
    as (ls & fss & Hsteps & Hcase).
  destruct Hcase as [(-> & _) | (Hne & -> & H1 & H2 & H3 & _)].
  { exfalso. destruct Hmain as (He & _).
    apply unique_key_combinations_nonempty in He.
    destruct (unique_key_combinations agg_df) as [| k ks] eqn:Hks; [congruence |].
    inversion Hsteps as [| ? ? ? l fs ls' fss' Hg Hgs]; subst.
    match goal with
    | H : _ ++ _ = [] |- _ => apply app_eq_nil in H; destruct H as [-> _]
    end.
    eapply group_step_nonempty; [| exact Hg | reflexivity].
    rewrite Hks. now left. }
  cbn [columns rows].
  pose proof (groups_frames_shape partial_ratio _ _ _ _ _ _ _ Hwf Hsteps) as Hshape.
  split; [| split; [assumption | split; [assumption | split; [assumption |]]]].
  - destruct fss as [| f fs]; [congruence |].
    destruct (columns_concat_prefix (columns agg_df) f fs (proj1 Hwf)) as (extra & He & Hx).
    { intros g Hg. destruct (Hshape g Hg) as (e & Hnd & Hc & _). eauto. }
    exists extra. split; [assumption |].
    intros c Hc. destruct (Hx c Hc) as (g & Hg & Hcg & Hn). split; [| assumption].
    destruct (Hshape g Hg) as (e & _ & Hce & Hi).
    rewrite Hce in Hcg. apply in_app_or in Hcg. destruct Hcg as [? | Hcg]; [contradiction |].
    auto.
  - rewrite rows_concat, map_map.
    pose proof (groups_rows partial_ratio _ _ _ _ _ _ _ Hwf Hsteps) as Hrows.
    fold (grouped agg_df) in Hrows.
    apply (Forall2_map_r _ (fun r' => finalize (reindex (columns (concat fss)) r')))
      in Hrows.
    eapply Forall2_weaken_In; [exact Hrows |].
    intros r o _ _ (r' & [Ho (f & Hf & Hi)] & ->).
    exists r'. split; [assumption | split; [| reflexivity]].
    intros c Hc. apply columns_concat_In. exists f. split; [assumption |].
    now rewrite <- Hi.
Qed.

End Table.

(** * Normalization of descriptions *)

Ltac by_cases_on_char c :=
  destruct c as [[] [] [] [] [] [] [] []]; try reflexivity; try discriminate.

Lemma is_upper_lower_char (c : ascii) : is_upper (lower_char c) = false.
Proof. by_cases_on_char c. Qed.

Lemma is_word_lower_char (c : ascii) : is_word (lower_char c) = is_word c.
Proof. by_cases_on_char c. Qed.

Lemma word_not_space (c : ascii) : is_word c = true -> is_space c = false.
Proof. by_cases_on_char c. Qed.

Lemma kept_char_normal (c : ascii) :
  is_word c || is_space c = true ->
  is_upper c = false ->
  (is_space c = true -> c = " "%char) ->
  normal_char c = true.
Proof.
  intros Hk Hu Hs. destruct (is_space c) eqn:E.
  - now rewrite Hs.
  - rewrite orb_false_r in Hk. unfold normal_char, word_not_upper.
    now rewrite Hk, Hu.
Qed.

Lemma sforall_lstrip (p : ascii -> bool) (s : string) :
  sforall p s = true -> sforall p (lstrip s) = true.
Proof.
  induction s as [| c s IH]; simpl; [auto |].
  intros H. apply andb_true_iff in H. destruct H as [H1 H2].
  destruct (is_space c); [auto | simpl; now rewrite H1, H2].
Qed.

Lemma sforall_rstrip (p : ascii -> bool) (s : string) :
  sforall p s = true -> sforall p (rstrip s) = true.
Proof.
  induction s as [| c s IH]; simpl; [auto |].
  intros H. apply andb_true_iff in H. destruct H as [H1 H2].
  specialize (IH H2). destruct (rstrip s) as [| d t].
  - destruct (is_space c); simpl; [reflexivity | now rewrite H1].
  - simpl. simpl in IH. now rewrite H1, IH.
Qed.

Lemma sforall_lower (s : string) :
  sforall (fun c => negb (is_upper c)) (lower s) = true.
Proof.
  unfold lower. induction s as [| c s IH]; simpl; [reflexivity |].
  now rewrite is_upper_lower_char, IH.
Qed.

Lemma sforall_sub_spaces (s : string) :
  forall b,
    sforall (fun c => negb (is_upper c)) s = true ->
    sforall (fun c => negb (is_upper c)
                      && (negb (is_space c) || Ascii.eqb c " "%char))
            (sub_spaces b s) = true.
Proof.
  induction s as [| c s IH]; intros b; simpl; [auto |].
  intros H. apply andb_true_iff in H. destruct H as [H1 H2].
  destruct (is_space c) eqn:E.
  - destruct b; simpl; auto.
  - simpl. rewrite H1, E. simpl. auto.
Qed.

Lemma sforall_sub_special (s : string) :
  sforall (fun c => negb (is_upper c)
                    && (negb (is_space c) || Ascii.eqb c " "%char)) s = true ->
  sforall normal_char (sub_special s) = true.
Proof.
  unfold sub_special. induction s as [| c s IH]; simpl; [auto |].
  intros H. apply andb_true_iff in H. destruct H as [H1 H2].
  apply andb_true_iff in H1. destruct H1 as [Hu Hs].
  destruct (is_word c || is_space c) eqn:E; [| auto].
  simpl. rewrite IH by assumption. rewrite andb_true_r.
  apply kept_char_normal; [assumption | now apply negb_true_iff |].
  intros Hsp. rewrite Hsp in Hs. simpl in Hs. now apply Ascii.eqb_eq.
Qed.

Lemma adjacent_spaces_sub_spaces (s : string) :
  forall b, adjacent_spaces (sub_spaces b s) = false
            /\ (b = true ->
                match sub_spaces b s with
                | String a _ => is_space a = false
                | EmptyString => True
                end).
Proof.
  induction s as [| c s IH]; intros b; simpl; [auto |].
  destruct (is_space c) eqn:E.
  - destruct b.
    + apply IH.
    + destruct (IH true) as [H1 H2]. split; [| discriminate].
      simpl. destruct (sub_spaces true s) as [| a t] eqn:Es; [reflexivity |].
      rewrite (H2 eq_refl). simpl. exact H1.
  - destruct (IH false) as [H1 _]. split; [| auto].
    simpl. destruct (sub_spaces false s) as [| a t] eqn:Es; [reflexivity |].
    rewrite E. simpl. exact H1.
Qed.

Lemma sfilter_word_lstrip (s : string) :
  sfilter is_word (lstrip s) = sfilter is_word s.
Proof.
  induction s as [| c s IH]; simpl; [reflexivity |].
  destruct (is_space c) eqn:E; [| reflexivity].
  destruct (is_word c) eqn:W; [apply word_not_space in W; congruence | exact IH].
Qed.

Lemma sfilter_word_rstrip (s : string) :
  sfilter is_word (rstrip s) = sfilter is_word s.
Proof.
  induction s as [| c s IH]; simpl; [reflexivity |].
  destruct (rstrip s) as [| d t].
  - simpl in IH. rewrite <- IH.
    destruct (is_space c) eqn:E; [| reflexivity].
    destruct (is_word c) eqn:W; [apply word_not_space in W; congruence | reflexivity].
  - simpl. simpl in IH. now rewrite IH.
Qed.

Lemma sfilter_word_sub_spaces (s : string) :
  forall b, sfilter is_word (sub_spaces b s) = sfilter is_word s.
Proof.
  induction s as [| c s IH]; intros b; simpl; [reflexivity |].
  destruct (is_space c) eqn:E.
  - destruct (is_word c) eqn:W; [apply word_not_space in W; congruence |].
    destruct b; simpl; apply IH.
  - simpl. now rewrite IH.
Qed.

Lemma sfilter_word_sub_special (s : string) :
  sfilter is_word (sub_special s) = sfilter is_word s.
Proof.
  unfold sub_special. induction s as [| c s IH]; simpl; [reflexivity |].
  destruct (is_word c) eqn:W; simpl.
  - now rewrite W, IH.
  - destruct (is_space c); simpl; [now rewrite W |]; exact IH.
Qed.

Lemma sfilter_word_lower (s : string) :
  sfilter is_word (lower s) = lower (sfilter is_word s).
Proof.
  unfold lower. induction s as [| c s IH]; simpl; [reflexivity |].
  rewrite is_word_lower_char. destruct (is_word c); simpl; now rewrite IH.
Qed.

(** ** Words *)

Lemma join_cons (w : string) (ws : list string) :
  join " " (w :: ws) = (w ++ after_first ws)%string.
Proof.
  destruct ws as [| w' ws]; simpl.
  - induction w as [| c w IH]; simpl; [reflexivity | now rewrite <- IH].
  - reflexivity.
Qed.

Lemma split_at_spaces_cons (s : string) :
  exists hd tl, split_at_spaces s = hd :: tl.
Proof.
  destruct s as [| c s]; simpl; [eauto |].
  destruct (is_space c); [eauto |].
  destruct (split_at_spaces s); eauto.
Qed.

Lemma words_space (c : ascii) (s : string) :
  is_space c = true -> words (String c s) = words s.
Proof. intros H. unfold words. simpl. now rewrite H. Qed.

Lemma split_not_space (c : ascii) (s hd : string) (tl : list string) :
  is_space c = false -> split_at_spaces s = hd :: tl ->
  split_at_spaces (String c s) = String c hd :: tl.
Proof. intros H E. simpl. now rewrite H, E. Qed.

(** A string of whitespace has no word. *)
Lemma rstrip_empty (s : string) : rstrip s = "" <-> words s = [].
Proof.
  induction s as [| c s IH]; [split; reflexivity |].
  cbn [rstrip]. destruct (is_space c) eqn:E.
  - rewrite (words_space c s E), <- IH.
    destruct (rstrip s); split; try reflexivity; discriminate.
  - destruct (split_at_spaces_cons s) as (hd & tl & Hs).
    unfold words. rewrite (split_not_space c s hd tl E Hs). simpl.
    destruct (rstrip s); split; discriminate.
Qed.

Lemma rstrip_cons_empty (c : ascii) (s : string) :
  rstrip s = "" ->
  rstrip (String c s) = if is_space c then "" else String c "".
Proof. intros H. cbn [rstrip]. now rewrite H. Qed.

Lemma rstrip_cons_nonempty (c : ascii) (s : string) :
  rstrip s <> "" -> rstrip (String c s) = String c (rstrip s).
Proof. intros H. cbn [rstrip]. destruct (rstrip s); [congruence | reflexivity]. Qed.

Lemma sub_spaces_space (b : bool) (c : ascii) (s : string) :
  is_space c = true ->
  sub_spaces b (String c s)
  = if b then sub_spaces true s else String " " (sub_spaces true s).
Proof. intros H. cbn [sub_spaces]. now rewrite H. Qed.

Lemma sub_spaces_char (b : bool) (c : ascii) (s : string) :
  is_space c = false ->
  sub_spaces b (String c s) = String c (sub_spaces false s).
Proof. intros H. cbn [sub_spaces]. now rewrite H. Qed.

(** Whitespace runs collapsed in a string without trailing whitespace. *)
Lemma sub_spaces_rstrip (s : string) :
  forall hd tl,
    split_at_spaces s = hd :: tl ->
    sub_spaces false (rstrip s)
    = (hd ++ after_first (filter (fun w => negb (is_empty w)) tl))%string
    /\ sub_spaces true (rstrip s) = join " " (words s).
Proof.
  induction s as [| c s IH]; intros hd tl Hsplit.
  - injection Hsplit as <- <-. split; reflexivity.
  - destruct (split_at_spaces_cons s) as (hd' & tl' & Hs).
    destruct (IH hd' tl' Hs) as [IHf IHt].
    pose proof (rstrip_empty s) as Hempty.
    assert (Hw : words s = filter (fun w => negb (is_empty w)) (hd' :: tl'))
      by (unfold words; now rewrite Hs).
    destruct (string_dec (rstrip s) "") as [Er | Er].
    + rewrite (rstrip_cons_empty c s Er).
      pose proof (proj1 Hempty Er) as Hnil.
      destruct (is_space c) eqn:E.
      * rewrite (words_space c s E), Hnil.
        simpl in Hsplit. rewrite E in Hsplit. injection Hsplit as <- <-.
        rewrite Hs, <- Hw, Hnil. split; reflexivity.
      * rewrite (split_not_space c s hd' tl' E Hs) in Hsplit.
        injection Hsplit as <- <-.
        unfold words. rewrite (split_not_space c s hd' tl' E Hs).
        cbn [filter is_empty negb]. rewrite join_cons.
        rewrite !(sub_spaces_char _ c "" E).
        rewrite Hw in Hnil. cbn [filter] in Hnil.
        destruct hd' as [| h hd']; [| discriminate Hnil].
        cbn [is_empty negb] in Hnil. rewrite Hnil. split; reflexivity.
    + rewrite (rstrip_cons_nonempty c s Er).
      destruct (is_space c) eqn:E.
      * rewrite (words_space c s E).
        simpl in Hsplit. rewrite E in Hsplit. injection Hsplit as <- <-.
        rewrite Hs, <- Hw. rewrite !(sub_spaces_space _ c _ E), IHt.
        split; [| reflexivity].
        destruct (words s) eqn:Ew; [| reflexivity].
        exfalso. apply Er. now apply Hempty.
      * rewrite (split_not_space c s hd' tl' E Hs) in Hsplit.
        injection Hsplit as <- <-.
        unfold words. rewrite (split_not_space c s hd' tl' E Hs).
        cbn [filter is_empty negb]. rewrite join_cons.
        rewrite !(sub_spaces_char _ c _ E), IHf. split; reflexivity.
Qed.

Lemma words_lstrip (s : string) : words (lstrip s) = words s.
Proof.
  induction s as [| c s IH]; [reflexivity |].
  cbn [lstrip]. destruct (is_space c) eqn:E; [| reflexivity].
  now rewrite (words_space c s E).
Qed.

Lemma sub_spaces_head (s : string) :
  match s with
  | EmptyString => True
  | String c _ => is_space c = false
  end ->
  sub_spaces false s = sub_spaces true s.
Proof. destruct s as [| c s]; [reflexivity |]. simpl. now intros ->. Qed.

Lemma strip_head (s : string) :
  match strip s with
  | EmptyString => True
  | String c _ => is_space c = false
  end.
Proof.
  unfold strip.
  assert (H : match lstrip s with
              | EmptyString => True
              | String c _ => is_space c = false
              end).
  { induction s as [| c s IH]; simpl; [exact I |].
    destruct (is_space c) eqn:E; [exact IH | exact E]. }
  destruct (lstrip s) as [| c t]; [exact I |].
  cbn [rstrip]. destruct (rstrip t); [rewrite H; exact H | exact H].
Qed.

(** Stripping and collapsing the whitespace runs joins the words with
    single spaces. *)
Lemma collapse_words (s : string) :
  sub_spaces false (strip s) = join " " (words s).
Proof.
  rewrite (sub_spaces_head _ (strip_head s)). unfold strip.
  destruct (split_at_spaces_cons (lstrip s)) as (hd & tl & Hs).
  rewrite (proj2 (sub_spaces_rstrip (lstrip s) hd tl Hs)).
  now rewrite words_lstrip.
Qed.

Lemma split_no_space (s : string) :
  Forall (fun w => sforall (fun c => negb (is_space c)) w = true)
         (split_at_spaces s).
Proof.
  induction s as [| c s IH]; simpl; [repeat constructor |].
  destruct (is_space c) eqn:E; [constructor; [reflexivity | assumption] |].
  destruct (split_at_spaces s) as [| w ws]; [repeat constructor; simpl; now rewrite E |].
  inversion IH as [| x l Hx Hl]; subst.
  constructor; [simpl; now rewrite E, Hx | assumption].
Qed.

Lemma words_pieces (s : string) :
  Forall (fun w => w <> ""
                   /\ sforall (fun c => negb (is_space c)) w = true)
         (words s).
Proof.
  unfold words. apply Forall_forall. intros w Hw.
  apply filter_In in Hw. destruct Hw as [Hw Hne].
  split.
  - intros ->. discriminate Hne.
  - pose proof (split_no_space s) as H. rewrite Forall_forall in H. auto.
Qed.

Lemma sfilter_all (p : ascii -> bool) (s : string) :
  sforall p s = true -> sfilter p s = s.
Proof.
  induction s as [| c s IH]; simpl; [reflexivity |].
  intros H. apply andb_true_iff in H. destruct H as [H1 H2].
  now rewrite H1, IH.
Qed.

Lemma is_space_lower_char (c : ascii) : is_space (lower_char c) = is_space c.
Proof. by_cases_on_char c. Qed.

Lemma sforall_kept_lower (s : string) :
  sforall (fun c => is_word c || is_space c) s = true ->
  sforall (fun c => is_word c || is_space c) (lower s) = true.
Proof.
  unfold lower. induction s as [| c s IH]; simpl; [reflexivity |].
  intros H. apply andb_true_iff in H. destruct H as [H1 H2].
  now rewrite is_word_lower_char, is_space_lower_char, H1, IH.
Qed.

Lemma sforall_kept_sub_spaces (s : string) :
  forall b,
    sforall (fun c => is_word c || is_space c) s = true ->
    sforall (fun c => is_word c || is_space c) (sub_spaces b s) = true.
Proof.
  induction s as [| c s IH]; intros b; simpl; [reflexivity |].
  intros H. apply andb_true_iff in H. destruct H as [H1 H2].
  destruct (is_space c) eqn:E.
  - destruct b; simpl; auto.
  - simpl. rewrite E, H1. now apply IH.
Qed.




(** * Threshold monotonicity *)

Section Threshold.

Variable partial_ratio : string -> string -> Z.

Lemma best_loop_lockstep (target : value) (t1 t2 : Z) (cands : list value) :
  t1 <= t2 ->
  forall st1 st2,
    lockstep t2 st1 st2 ->
    exists st1' st2',
      for_each cands (best_loop partial_ratio target t1) st1
        = (comparisons target cands, Ok st1')
      /\ for_each cands (best_loop partial_ratio target t2) st2
        = (comparisons target cands, Ok st2')
      /\ lockstep t2 st1' st2'.
Proof.
  intros Ht. induction cands as [| c cands IH]; intros st1 st2 Hl.
  - exists st1, st2. repeat split; assumption.
  - rewrite !for_each_cons. destruct (isna c) eqn:Hna.
    + destruct (IH st1 st2 Hl) as (st1' & st2' & H1 & H2 & Hl').
      exists st1', st2'. rewrite comparisons_null by assumption.
      split; [| split; [| assumption]].
      * exact (bind_run _ _ _ _ _ _ (best_loop_null _ _ _ _ _ Hna) H1).
      * exact (bind_run _ _ _ _ _ _ (best_loop_null _ _ _ _ _ Hna) H2).
    + destruct st1 as [bm1 bs1], st2 as [bm2 bs2].
      pose proof (best_loop_scored partial_ratio target t1 bm1 bs1 c Hna) as S1.
      pose proof (best_loop_scored partial_ratio target t2 bm2 bs2 c Hna) as S2.
      set (s := score_of partial_ratio target c) in *.
      match type of S1 with _ = (_, Ok ?x) => set (n1 := x) in * end.
      match type of S2 with _ = (_, Ok ?x) => set (n2 := x) in * end.
      assert (Hn : lockstep t2 n1 n2).
      { unfold lockstep in *. subst n1 n2. simpl in Hl.
        destruct Hl as [[[= -> ->] Hge] | ([= -> ->] & Hpos & Hlt)].
        - destruct (bs2 <? s) eqn:E1; simpl.
          + apply Z.ltb_lt in E1.
            rewrite (proj2 (Z.leb_le t1 s)), (proj2 (Z.leb_le t2 s)) by lia.
            left. simpl. split; [reflexivity | lia].
          + left. simpl. auto.
        - destruct (t2 <=? s) eqn:E2.
          + apply Z.leb_le in E2.
            rewrite (proj2 (Z.ltb_lt bs1 s)), (proj2 (Z.leb_le t1 s)),
              (proj2 (Z.ltb_lt 0 s)) by lia.
            left. simpl. split; [reflexivity | lia].
          + apply Z.leb_gt in E2. rewrite andb_false_r.
            right. split; [reflexivity | split; [assumption |]].
            destruct ((bs1 <? s) && (t1 <=? s)) eqn:E1; simpl; [| lia].
            apply andb_true_iff in E1. destruct E1 as [E1 _].
            apply Z.ltb_lt in E1. lia. }
      destruct (IH n1 n2 Hn) as (st1' & st2' & H1 & H2 & Hl').
      exists st1', st2'. rewrite comparisons_scored by assumption.
      split; [| split; [| assumption]].
      * exact (bind_run _ _ _ _ _ _ S1 H1).
      * exact (bind_run _ _ _ _ _ _ S2 H2).
Qed.

(** A match returned at the higher threshold is returned, the same, at the
    lower one. *)
Lemma find_best_match_lower (target : value) (cands : option (list value))
    (t1 t2 : Z) (bm : value) (sc : Z) :
  t1 <= t2 ->
  outcome (find_best_match partial_ratio target cands t2) = Ok (Some bm, sc) ->
  outcome (find_best_match partial_ratio target cands t1) = Ok (Some bm, sc).
Proof.
  intros Ht. destruct (isna target) eqn:Hna.
  { unfold find_best_match. rewrite Hna. intros H. discriminate H. }
  destruct cands as [cands |];
    [| unfold find_best_match; rewrite Hna; intros H; discriminate H].
  rewrite !find_best_match_loop by assumption.
  assert (Hl : lockstep t2 (None, 0) (None, 0)).
  { unfold lockstep. simpl. destruct (Z.le_gt_cases t2 0); [left | right]; auto.
    repeat split; lia. }
  destruct (best_loop_lockstep target t1 t2 cands Ht _ _ Hl)
    as (st1' & st2' & H1 & H2 & Hl').
  rewrite H1, H2. unfold outcome. simpl. intros [= ->].
  destruct Hl' as [[-> _] | ([=] & _)]. reflexivity.
Qed.

Lemma accepts_at_lower (t1 t2 : Z) (q : value * option (list value)) :
  t1 <= t2 ->
  accepts_at partial_ratio t2 q = true -> accepts_at partial_ratio t1 q = true.
Proof.
  intros Ht. unfold accepts_at.
  destruct (outcome (find_best_match partial_ratio (fst q) (snd q) t2))
    as [[[b |] sc] | e] eqn:E; try discriminate.
  rewrite (find_best_match_lower _ _ t1 t2 b sc Ht E).
  intros H. apply andb_true_iff in H. destruct H as [Hb Hs].
  apply Z.leb_le in Hs. rewrite Hb. apply Z.leb_le. lia.
Qed.

Lemma filter_length_le {A : Type} (p q : A -> bool) (l : list A) :
  (forall a, p a = true -> q a = true) ->
  (List.length (filter p l) <= List.length (filter q l))%nat.
Proof.
  intros H. induction l as [| a l IH]; simpl; [lia |].
  destruct (p a) eqn:E.
  - rewrite (H a E). simpl. lia.
  - destruct (q a); simpl; lia.
Qed.

End Threshold.

(** * Rows of the result *)

Lemma fillna_value_null (v : value) : fillna_value v VNull = v.
Proof. now destruct v. Qed.

Lemma series_get_fill (col c : string) (d : value) (x : Series) :
  series_get (fill col d x) c
  = if String.eqb col c then fillna_value (series_get x col) d
    else series_get x c.
Proof.
  unfold fill. destruct (String.eqb col c) eqn:E.
  - apply String.eqb_eq in E. subst. apply series_get_set_same.
  - apply series_get_set_other. intros ->. now rewrite String.eqb_refl in E.
Qed.

Lemma series_get_finalize (x : Series) (c : string) :
  series_get (finalize x) c = fillna_value (series_get x c) (sentinel_of c).
Proof.
  unfold finalize, sentinel_of. rewrite !series_get_fill.
  rewrite (String.eqb_sym c "matched_project_description"),
    (String.eqb_sym c "match_score"), (String.eqb_sym c "pid_ohl_nr").
  destruct (String.eqb "pid_ohl_nr" c) eqn:E3.
  - apply String.eqb_eq in E3. subst c. simpl. reflexivity.
  - destruct (String.eqb "match_score" c) eqn:E2.
    + apply String.eqb_eq in E2. subst c. simpl. reflexivity.
    + destruct (String.eqb "matched_project_description" c) eqn:E1.
      * apply String.eqb_eq in E1. subst c. reflexivity.
      * now rewrite fillna_value_null.
Qed.

Lemma series_get_reindex_incl (cols : list string) (r : Series) (c : string) :
  incl (series_index r) cols -> series_get (reindex cols r) c = series_get r c.
Proof.
  intros Hi. rewrite series_get_reindex. destruct (mem c cols) eqn:E; [reflexivity |].
  symmetry. apply series_get_absent. intros Hc. apply mem_false in E. auto.
Qed.

(** A cell of a row of the result, from the row appended for it. *)
Lemma series_get_output (cols : list string) (r' : Series) (c : string) :
  incl (series_index r') cols ->
  series_get (finalize (reindex cols r')) c
  = fillna_value (series_get r' c) (sentinel_of c).
Proof.
  intros Hi. now rewrite series_get_finalize, series_get_reindex_incl.
Qed.

Lemma series_index_fill (col : string) (d : value) (x : Series) :
  In col (series_index x) -> series_index (fill col d x) = series_index x.
Proof.
  intros H. unfold fill. rewrite series_index_set.
  now rewrite (proj2 (mem_In _ _) H).
Qed.

Lemma sentinel_of_other (c : string) :
  ~ In c enrichment_cols -> sentinel_of c = VNull.
Proof.
  intros H. unfold sentinel_of.
  destruct (String.eqb c "matched_project_description") eqn:E1;
    [apply String.eqb_eq in E1; subst; exfalso; apply H; simpl; auto |].
  destruct (String.eqb c "match_score") eqn:E2;
    [apply String.eqb_eq in E2; subst; exfalso; apply H; simpl; auto |].
  destruct (String.eqb c "pid_ohl_nr") eqn:E3;
    [apply String.eqb_eq in E3; subst; exfalso; apply H; simpl; auto |].
  reflexivity.
Qed.

Lemma series_index_output (cols : list string) (r' : Series) :
  In "matched_project_description" cols ->
  In "match_score" cols ->
  In "pid_ohl_nr" cols ->
  series_index (finalize (reindex cols r')) = cols.
Proof.
  intros H1 H2 H3. unfold finalize.
  assert (E0 : series_index (reindex cols r') = cols)
    by apply series_index_reindex.
  assert (E1 : series_index (fill "matched_project_description" (VStr "No Match")
                               (reindex cols r')) = cols)
    by (rewrite series_index_fill; rewrite E0; auto).
  assert (E2 : series_index (fill "match_score" (VNum 0)
                 (fill "matched_project_description" (VStr "No Match")
                    (reindex cols r'))) = cols)
    by (rewrite series_index_fill; rewrite E1; auto).
  rewrite series_index_fill; rewrite E2; auto.
Qed.

Lemma nodupb_NoDup (l : list string) : nodupb l = true -> NoDup l.
Proof.
  induction l as [| x l IH]; simpl; intros H; constructor;
    apply andb_true_iff in H; destruct H as [H1 H2].
  - apply negb_true_iff in H1. now apply mem_false.
  - auto.
Qed.

Lemma list_eqb_eq (a b : list string) : list_eqb a b = true -> a = b.
Proof.
  revert b. induction a as [| x a IH]; intros [| y b]; simpl; try discriminate; auto.
  intros H. apply andb_true_iff in H. destruct H as [H1 H2].
  apply String.eqb_eq in H1. subst. f_equal. auto.
Qed.

Lemma df_wf_check (df : DataFrame) : df_wfb df = true -> df_wf df.
Proof.
  unfold df_wfb, df_wf. intros H. apply andb_true_iff in H. destruct H as [H1 H2].
  split; [now apply nodupb_NoDup |].
  apply Forall_forall. intros r Hr. rewrite forallb_forall in H2.
  apply list_eqb_eq. auto.
Qed.

(** * Pass-through of the aggregated columns *)

Lemma Forall2_In_r {A B : Type} (R : A -> B -> Prop) (l : list A) (m : list B)
    (b : B) :
  Forall2 R l m -> In b m -> exists a, In a l /\ R a b.
Proof.
  induction 1 as [| a b' l m Hab H IH]; intros Hin; [destruct Hin |].
  destruct Hin as [<- | Hin].
  - exists a. split; [now left | assumption].
  - destruct (IH Hin) as (a' & Ha & Hr). exists a'. split; [now right | assumption].
Qed.

Section RowFacts.

Variable partial_ratio : string -> string -> Z.

(** An aggregated field outside the enrichment fields is the same in the
    row appended for an aggregated row. *)
Lemma row_outcome_passes (agg_df pid_df : DataFrame) (r r' : Series) (c : string) :
  df_wf agg_df ->
  row_outcome partial_ratio agg_df pid_df r r' ->
  In c (columns agg_df) -> ~ In c enrichment_cols ->
  series_get r' c = series_get r c.
Proof.
  intros [_ Hwf] Ho Hc Hn. rewrite Forall_forall in Hwf.
  destruct Ho as [k Hr _ _ -> | k l Hr _ _ Hstep]; [reflexivity |].
  destruct Hstep; try reflexivity.
  apply enrich_row_frame; [| assumption]. now rewrite (Hwf r Hr).
Qed.

Lemma outcome_run {A : Type} (m : M A) (a : A) :
  outcome m = Ok a -> m = (log_of m, Ok a).
Proof. destruct m as [l r]. unfold outcome, log_of. simpl. now intros ->. Qed.

End RowFacts.




(** * Cardinality and order *)

Lemma flat_map_ext_In {A B : Type} (f g : A -> list B) (l : list A) :
  (forall a, In a l -> f a = g a) -> flat_map f l = flat_map g l.
Proof.
  induction l as [| a l IH]; intros H; simpl; [reflexivity |].
  rewrite (H a (or_introl eq_refl)), IH; [reflexivity |].
  intros; apply H; now right.
Qed.

Lemma flat_map_nil {A B : Type} (l : list A) :
  flat_map (fun _ : A => @nil B) l = [].
Proof. induction l; simpl; auto. Qed.

(** Selecting by each key of a duplicate-free list of keys that covers the
    list rearranges the list. *)
Lemma partition_Permutation {A K : Type} (key_of : A -> K) (eqb : K -> K -> bool)
    (eqb_eq : forall a b, eqb a b = true <-> a = b) (ks : list K) (l : list A) :
  NoDup ks ->
  (forall a, In a l -> In (key_of a) ks) ->
  Permutation (flat_map (fun k => filter (fun a => eqb (key_of a) k) l) ks) l.
Proof.
  intros Hnd. induction l as [| a l IH]; intros Hcov.
  - simpl. now rewrite flat_map_nil.
  - assert (Hl : forall x, In x l -> In (key_of x) ks)
      by (intros; apply Hcov; now right).
    specialize (IH Hl).
    destruct (in_split _ _ (Hcov a (or_introl eq_refl))) as (ks1 & ks2 & Hks).
    rewrite Hks in Hnd, IH |- *.
    apply NoDup_remove_2 in Hnd.
    assert (Hother : forall k, In k (ks1 ++ ks2) ->
              filter (fun x => eqb (key_of x) k) (a :: l)
              = filter (fun x => eqb (key_of x) k) l).
    { intros k Hk. simpl. destruct (eqb (key_of a) k) eqn:E; [| reflexivity].
      apply eqb_eq in E. subst k. contradiction. }
    rewrite !flat_map_app in *. simpl flat_map in *.
    rewrite (flat_map_ext_In _ (fun k => filter (fun x => eqb (key_of x) k) l) ks1)
      by (intros k Hk; apply Hother, in_or_app; now left).
    rewrite (flat_map_ext_In _ (fun k => filter (fun x => eqb (key_of x) k) l) ks2)
      by (intros k Hk; apply Hother, in_or_app; now right).
    simpl filter. rewrite (proj2 (eqb_eq (key_of a) (key_of a)) eq_refl).
    simpl. apply Permutation_sym, Permutation_cons_app, Permutation_sym.
    exact IH.
Qed.

Lemma key_mask_key_eqb (r : Series) (k : key) :
  isna (series_get r "project") = false ->
  isna (series_get r "shire") = false ->
  key_mask k r = key_eqb (row_key r) k.
Proof.
  intros H1 H2. destruct (key_mask k r) eqn:E.
  - apply key_mask_true in E. destruct E as [<- _]. symmetry. now apply key_eqb_eq.
  - destruct (key_eqb (row_key r) k) eqn:E'; [| reflexivity].
    apply key_eqb_eq in E'. subst k. rewrite key_mask_row_key in E; auto.
Qed.

Lemma grouped_key_eqb (agg_df : DataFrame) :
  keys_not_null agg_df ->
  grouped agg_df
  = flat_map (fun k => filter (fun r => key_eqb (row_key r) k) (rows agg_df))
             (unique_key_combinations agg_df).
Proof.
  intros Hk. unfold grouped. apply flat_map_ext_In. intros k _.
  apply filter_ext_in. intros r Hr.
  unfold keys_not_null in Hk. rewrite Forall_forall in Hk.
  destruct (Hk r Hr) as [H1 H2]. now apply key_mask_key_eqb.
Qed.

(** With no null key the loops visit every aggregated row exactly once. *)
Lemma grouped_Permutation (agg_df : DataFrame) :
  keys_not_null agg_df -> Permutation (grouped agg_df) (rows agg_df).
Proof.
  intros Hk. rewrite grouped_key_eqb by assumption.
  apply (partition_Permutation row_key key_eqb key_eqb_eq).
  - apply (dedup_NoDup key_eqb key_eqb_eq).
  - intros r Hr. apply unique_key_combinations_In. eauto.
Qed.

Lemma dedup_seen_ext {A : Type} (eqb : A -> A -> bool) (l : list A) :
  forall s1 s2,
    (forall y, In y l -> existsb (eqb y) s1 = existsb (eqb y) s2) ->
    dedup eqb s1 l = dedup eqb s2 l.
Proof.
  induction l as [| y l IH]; intros s1 s2 H; simpl; [reflexivity |].
  rewrite <- (H y (or_introl eq_refl)).
  destruct (existsb (eqb y) s1).
  - apply IH. intros; apply H; now right.
  - f_equal. apply IH. intros z Hz. simpl. f_equal. apply H. now right.
Qed.

Lemma filter_none {A : Type} (p : A -> bool) (l : list A) :
  (forall a, In a l -> p a = false) -> filter p l = [].
Proof.
  induction l as [| a l IH]; intros H; simpl; [reflexivity |].
  rewrite (H a (or_introl eq_refl)). apply IH. intros; apply H; now right.
Qed.

Lemma existsb_key_false (k : key) (ks : list key) :
  existsb (key_eqb k) ks = false -> ~ In k ks.
Proof.
  intros H Hin. assert (existsb (key_eqb k) ks = true); [| congruence].
  apply existsb_exists. exists k. split; [assumption | now apply key_eqb_eq].
Qed.

Lemma contiguous_cons (k : key) (ks : list key) :
  contiguous (k :: ks) = true -> contiguous ks = true.
Proof. simpl. intros H. apply andb_true_iff in H. tauto. Qed.

Lemma contiguous_head (k k' : key) (ks : list key) :
  contiguous (k :: k' :: ks) = true -> k = k' \/ ~ In k (k' :: ks).
Proof.
  intros H. change (contiguous (k :: k' :: ks))
    with ((key_eqb k k' || negb (existsb (key_eqb k) (k' :: ks)))
          && contiguous (k' :: ks)) in H.
  apply andb_true_iff in H. destruct H as [H _].
  apply orb_true_iff in H. destruct H as [H | H].
  - left. now apply key_eqb_eq.
  - right. apply negb_true_iff in H. now apply existsb_key_false.
Qed.

Lemma dedup_cons_new {A : Type} (eqb : A -> A -> bool) (seen : list A) (x : A)
    (l : list A) :
  existsb (eqb x) seen = false ->
  dedup eqb seen (x :: l) = x :: dedup eqb (x :: seen) l.
Proof. intros H. simpl. now rewrite H. Qed.

Lemma dedup_cons_seen {A : Type} (eqb : A -> A -> bool) (seen : list A) (x : A)
    (l : list A) :
  existsb (eqb x) seen = true -> dedup eqb seen (x :: l) = dedup eqb seen l.
Proof. intros H. simpl. now rewrite H. Qed.

Lemma filter_cons_true {A : Type} (p : A -> bool) (a : A) (l : list A) :
  p a = true -> filter p (a :: l) = a :: filter p l.
Proof. intros H. simpl. now rewrite H. Qed.

(** When the rows of each key are contiguous, selecting by key in order of
    first appearance gives the table back. *)
Lemma contiguous_regroup (l : list Series) :
  contiguous (map row_key l) = true ->
  flat_map (fun k => filter (fun r => key_eqb (row_key r) k) l)
           (dedup key_eqb [] (map row_key l)) = l.
Proof.
  induction l as [| a l IH]; intros Hc; [reflexivity |].
  change (map row_key (a :: l)) with (row_key a :: map row_key l) in *.
  specialize (IH (contiguous_cons _ _ Hc)).
  rewrite dedup_cons_new by reflexivity. cbn [flat_map].
  rewrite filter_cons_true by (now apply key_eqb_eq).
  rewrite (flat_map_ext_In _
             (fun k => filter (fun r => key_eqb (row_key r) k) l)).
  2:{ intros k Hk. simpl.
      destruct (key_eqb (row_key a) k) eqn:E; [| reflexivity].
      apply key_eqb_eq in E. subst k.
      apply (dedup_NoDup key_eqb key_eqb_eq) in Hk. exfalso. apply Hk. now left. }
  cbn [app]. f_equal.
  destruct l as [| b l']; [reflexivity |].
  change (map row_key (b :: l')) with (row_key b :: map row_key l') in *.
  rewrite dedup_cons_new in IH by reflexivity. cbn [flat_map] in IH.
  destruct (contiguous_head _ _ _ Hc) as [Hsame | Hgone].
  - rewrite Hsame.
    rewrite dedup_cons_seen
      by (simpl; now rewrite (proj2 (key_eqb_eq _ _) eq_refl)).
    exact IH.
  - rewrite filter_none.
    + cbn [app].
      rewrite (dedup_seen_ext key_eqb _ [row_key a] []).
      * rewrite dedup_cons_new by reflexivity. exact IH.
      * intros y Hy. simpl.
        destruct (key_eqb y (row_key a)) eqn:E; [| reflexivity].
        apply key_eqb_eq in E. subst y. contradiction.
    + intros r Hr. destruct (key_eqb (row_key r) (row_key a)) eqn:E; [| reflexivity].
      apply key_eqb_eq in E. exfalso. apply Hgone. rewrite <- E.
      change (In (row_key r) (map row_key (b :: l'))). now apply in_map.
Qed.

Lemma Forall2_same {A : Type} (R : A -> A -> Prop) (l : list A) :
  (forall a, In a l -> R a a) -> Forall2 R l l.
Proof.
  induction l as [| a l IH]; intros H; constructor.
  - apply H. now left.
  - apply IH. intros; apply H; now right.
Qed.

Lemma main_path_dec (agg_df pid_df : DataFrame) :
  {main_path agg_df pid_df} + {~ main_path agg_df pid_df}.
Proof.
  unfold main_path.
  destruct (df_empty agg_df); [right; intros [H _]; discriminate |].
  destruct (missing_columns required_agg_cols agg_df);
    [| right; intros (_ & H & _); discriminate].
  destruct (missing_columns required_pid_cols pid_df);
    [| right; intros (_ & _ & H); discriminate].
  left. auto.
Defined.

Section Cardinality.

Variable partial_ratio : string -> string -> Z.

(** Outside the reconciliation proper the aggregated table is returned. *)
Lemma merge_not_reconciled (agg_df pid_df : DataFrame) :
  ~ main_path agg_df pid_df ->
  outcome (merge_with_pid_fuzzy partial_ratio agg_df (Some pid_df)) = Ok agg_df.
Proof.
  unfold main_path, merge_with_pid_fuzzy. intros H.
  destruct (df_empty agg_df); [reflexivity |].
  destruct (missing_columns required_agg_cols agg_df); [| reflexivity].
  destruct (missing_columns required_pid_cols pid_df); [| reflexivity].
  exfalso. auto.
Qed.

Lemma merge_passes_through (agg_df pid_df out : DataFrame) :
  df_wf agg_df ->
  main_path agg_df pid_df ->
  outcome (merge_with_pid_fuzzy partial_ratio agg_df (Some pid_df)) = Ok out ->
  Forall2 (passes_through agg_df) (grouped agg_df) (rows out).
Proof.
  intros Hwf Hmain Hrun. apply outcome_run in Hrun.
  destruct (merge_rows_spec partial_ratio _ _ _ _ Hwf Hmain Hrun)
    as (_ & _ & _ & _ & Hrows).
  eapply Forall2_weaken_In; [exact Hrows |].
  intros r o _ _ (r' & Ho & Hi & ->) c Hc Hn.
  rewrite series_get_output by assumption.
  rewrite (sentinel_of_other c Hn), fillna_value_null.
  eapply row_outcome_passes; eauto.
Qed.

End Cardinality.

(** C1, as amended.  For an aggregated table without null project or shire,
    a returned table has as many rows as the aggregated table and each
    aggregated row appears in it exactly once (with its values outside the
    enrichment fields): in the reconciliation proper in the order of
    [grouped] -- by (project, shire) in order of first appearance, in table
    order inside a combination -- which is the order of the aggregated
    table when the rows of each combination are contiguous; and when the
    function returns early, without reconciling, the table returned is the
    aggregated table itself, in its own order. *)
Theorem rows_kept_in_grouped_order (partial_ratio : string -> string -> Z)
    (agg_df : DataFrame) (pid_df : option DataFrame) (out : DataFrame) :
  df_wf agg_df ->
  keys_not_null agg_df ->
  outcome (merge_with_pid_fuzzy partial_ratio agg_df pid_df) = Ok out ->
  List.length (rows out) = List.length (rows agg_df)
  /\ exists order,
       Permutation order (rows agg_df)
       /\ Forall2 (passes_through agg_df) order (rows out)
       /\ (forall pid, pid_df = Some pid -> main_path agg_df pid ->
                       order = grouped agg_df)
       /\ (contiguous (map row_key (rows agg_df)) = true ->
           order = rows agg_df)
       /\ ((forall pid, pid_df = Some pid -> ~ main_path agg_df pid) ->
           order = rows agg_df /\ out = agg_df).
Proof.
  intros Hwf Hkeys Hrun.
  assert (Hearly : out = agg_df ->
            (forall pid, pid_df = Some pid -> ~ main_path agg_df pid) ->
            List.length (rows out) = List.length (rows agg_df)
            /\ exists order,
                 Permutation order (rows agg_df)
                 /\ Forall2 (passes_through agg_df) order (rows out)
                 /\ (forall pid, pid_df = Some pid -> main_path agg_df pid ->
                                 order = grouped agg_df)
                 /\ (contiguous (map row_key (rows agg_df)) = true ->
                     order = rows agg_df)
                 /\ ((forall pid, pid_df = Some pid -> ~ main_path agg_df pid) ->
                     order = rows agg_df /\ out = agg_df)).
  { intros -> Hnot. split; [reflexivity |]. exists (rows agg_df).
    split; [apply Permutation_refl |]. split; [| split; [| split]].
    - apply Forall2_same. intros r _ c _ _. reflexivity.
    - intros pid Hp Hm. destruct (Hnot pid Hp Hm).
    - reflexivity.
    - intros _. split; reflexivity. }
  destruct pid_df as [pid |].
  - destruct (main_path_dec agg_df pid) as [Hm | Hm].
    + pose proof (merge_passes_through partial_ratio _ _ _ Hwf Hm Hrun) as Hpass.
      pose proof (grouped_Permutation agg_df Hkeys) as Hperm.
      split.
      * rewrite <- (Forall2_length Hpass). now apply Permutation_length.
      * exists (grouped agg_df).
        split; [assumption |]. split; [assumption |].
        split; [reflexivity |]. split.
        -- intros Hc. rewrite grouped_key_eqb by assumption.
           now apply contiguous_regroup.
        -- intros Hnot. destruct (Hnot pid eq_refl Hm).
    + rewrite (merge_not_reconciled partial_ratio _ _ Hm) in Hrun.
      injection Hrun as <-. apply Hearly; [reflexivity |].
      intros pid' [= <-]. assumption.
  - simpl in Hrun. injection Hrun as <-. apply Hearly; [reflexivity |].
    intros pid' [=].
Qed.

Lemma rows_kept_in_grouped_order_witness :
  df_wf ledger1_keyed /\ keys_not_null ledger1_keyed
  /\ exists out,
       outcome (merge_with_pid_fuzzy prefix_ratio ledger1_keyed (Some reference1))
       = Ok out
       /\ List.length (rows out) = List.length (rows ledger1_keyed).
Proof.
  assert (Hwf : df_wf ledger1_keyed) by (apply df_wf_check; reflexivity).
  assert (Hkeys : keys_not_null ledger1_keyed)
    by (repeat constructor).
  split; [exact Hwf | split; [exact Hkeys |]].
  eexists. split; [reflexivity |].
  eapply (rows_kept_in_grouped_order prefix_ratio ledger1_keyed (Some reference1));
    [exact Hwf | exact Hkeys | reflexivity].
Defined.

(** C1 as stated fails: the third row, of the same combination as the first,
    comes out second, before the row that was between them, and the row
    without a project is not in the result at all. *)
Lemma rows_regrouped_and_null_keys_dropped :
  exists out,
    outcome (merge_with_pid_fuzzy prefix_ratio ledger1 (Some reference1)) = Ok out
    /\ segmentdescs ledger1
       = [VStr "Erect pole"; VStr "Stay wire"; VStr "Conductor"; VStr "Transformer"]
    /\ segmentdescs out
       = [VStr "Erect pole"; VStr "Conductor"; VStr "Stay wire"]
    /\ List.length (rows out) <> List.length (rows ledger1).
Proof.
  eexists. split; [reflexivity |]. repeat split. discriminate.
Qed.

(** * Missing required columns *)

Lemma missing_columns_In (required : list string) (df : DataFrame) (c : string) :
  In c (missing_columns required df) <-> In c required /\ ~ In c (columns df).
Proof.
  unfold missing_columns. rewrite filter_In, negb_true_iff, mem_false. tauto.
Qed.

(** C5, as amended.  When a required column is absent on either side, no
    comparison is made and the aggregated table is returned as it is.  For
    an empty aggregated table nothing is reported.  Otherwise there is one
    diagnostic: it names exactly the absent aggregated columns when there
    are any, and else exactly the absent reference columns. *)
Theorem missing_columns_reported (partial_ratio : string -> string -> Z)
    (agg_df pid_df : DataFrame) :
  missing_columns required_agg_cols agg_df <> []
  \/ missing_columns required_pid_cols pid_df <> [] ->
  outcome (merge_with_pid_fuzzy partial_ratio agg_df (Some pid_df)) = Ok agg_df
  /\ log_of (merge_with_pid_fuzzy partial_ratio agg_df (Some pid_df))
     = (if df_empty agg_df then []
        else match missing_columns required_agg_cols agg_df with
             | _ :: _ => [StWarningAgg (missing_columns required_agg_cols agg_df)]
             | [] => [StWarningPid (missing_columns required_pid_cols pid_df)]
             end)
  /\ (forall c, In c (missing_columns required_agg_cols agg_df)
                <-> In c required_agg_cols /\ ~ In c (columns agg_df))
  /\ (forall c, In c (missing_columns required_pid_cols pid_df)
                <-> In c required_pid_cols /\ ~ In c (columns pid_df)).
Proof.
  intros H. unfold merge_with_pid_fuzzy.
  split; [| split; [| split; intros c; apply missing_columns_In]].
  - destruct (df_empty agg_df); [reflexivity |].
    destruct (missing_columns required_agg_cols agg_df); [| reflexivity].
    destruct (missing_columns required_pid_cols pid_df); [| reflexivity].
    destruct H as [H | H]; congruence.
  - destruct (df_empty agg_df); [reflexivity |].
    destruct (missing_columns required_agg_cols agg_df); [| reflexivity].
    destruct (missing_columns required_pid_cols pid_df); [| reflexivity].
    destruct H as [H | H]; congruence.
Qed.

Lemma missing_columns_reported_witness :
  (missing_columns required_agg_cols ledger5 <> []
   \/ missing_columns required_pid_cols reference5 <> [])
  /\ outcome (merge_with_pid_fuzzy prefix_ratio ledger5 (Some reference5))
     = Ok ledger5.
Proof.
  assert (H : missing_columns required_agg_cols ledger5 <> []
              \/ missing_columns required_pid_cols reference5 <> [])
    by (left; discriminate).
  split; [exact H |].
  apply (missing_columns_reported prefix_ratio ledger5 reference5 H).
Defined.

(** C5 as stated fails.  With columns absent on both sides the diagnostic
    names the absent aggregated column only, not [project_description] and
    [pid_ohl_nr] that the reference table lacks; and for an aggregated table
    with no rows there is no diagnostic at all. *)
Lemma missing_columns_not_all_named :
  missing_columns required_agg_cols ledger5 = ["project"]
  /\ missing_columns required_pid_cols reference5
     = ["project_description"; "pid_ohl_nr"]
  /\ log_of (merge_with_pid_fuzzy prefix_ratio ledger5 (Some reference5))
     = [StWarningAgg ["project"]]
  /\ missing_columns required_agg_cols (mkDF ["shire"] []) = ["project"; "segmentdesc"]
  /\ log_of (merge_with_pid_fuzzy prefix_ratio (mkDF ["shire"] []) (Some reference5))
     = [].
Proof. repeat split. Qed.

(** * Matching inside the partition *)

Section Partition.

Variable partial_ratio : string -> string -> Z.

Lemma find_best_match_Some (target : value) (cands : list value) (threshold : Z)
    (l : list event) (bm : value) (sc : Z) :
  isna target = false ->
  find_best_match partial_ratio target (Some cands) threshold
  = (l, Ok (Some bm, sc)) ->
  In bm cands /\ isna bm = false
  /\ sc = score_of partial_ratio target bm /\ threshold <= sc /\ 0 < sc.
Proof.
  intros Hna Hrun.
  destruct (find_best_match_spec partial_ratio target cands threshold Hna)
    as (bm' & bs' & Hrun' & _ & Hst & _).
  rewrite Hrun in Hrun'. injection Hrun' as _ <- <-.
  destruct Hst as [[? _] | (c & Hin & Hc & [= <-] & Hs & Ht & Hp)]; [discriminate |].
  auto.
Qed.

Lemma fillna_column_log (df : DataFrame) (col : string) (d : value) :
  log_of (fillna_column df col d) = [].
Proof. unfold fillna_column. now destruct (mem col (columns df)). Qed.

Lemma log_of_bind {A B : Type} (m : M A) (f : A -> M B) :
  log_of (bind m f)
  = log_of m ++ match outcome m with
                | Ok a => log_of (f a)
                | Raise _ => []
                end.
Proof.
  destruct m as [l [a | e]]; unfold bind, log_of, outcome; simpl.
  - now destruct (f a).
  - now rewrite app_nil_r.
Qed.

Lemma log_of_bind_Ok {A B : Type} (m : M A) (f : A -> M B) (l : list event)
    (a : A) :
  m = (l, Ok a) -> log_of (bind m f) = l ++ log_of (f a).
Proof. intros ->. unfold bind, log_of. simpl. now destruct (f a). Qed.

(** The end of the function logs nothing but, when it gets there, the
    count of matches. *)
Lemma combine_matched_rows_log (agg_df : DataFrame) (frames : list DataFrame) :
  log_of (combine_matched_rows agg_df frames) = []
  \/ exists m t, log_of (combine_matched_rows agg_df frames) = [SidebarSuccess m t].
Proof.
  unfold combine_matched_rows. destruct frames as [| f fs]; [now left |].
  rewrite log_of_bind, fillna_column_log.
  destruct (outcome (fillna_column _ _ _)) as [d1 | e]; [| now left].
  rewrite log_of_bind, fillna_column_log.
  destruct (outcome (fillna_column _ _ _)) as [d2 | e]; [| now left].
  rewrite log_of_bind, fillna_column_log.
  destruct (outcome (fillna_column _ _ _)) as [d3 | e]; [| now left].
  rewrite log_of_bind.
  destruct (count_ge d3 "match_score" 75) as [lc rc] eqn:Hc.
  rewrite (count_ge_log _ _ _ _ _ Hc). unfold log_of at 1, outcome. simpl.
  destruct rc as [m | e]; [right | now left].
  exists m, (List.length (rows d3)). reflexivity.
Qed.

(** The log of the reconciliation proper, whatever its outcome. *)
Lemma merge_log_shape (agg_df pid_df : DataFrame) :
  main_path agg_df pid_df ->
  let n := List.length (unique_key_combinations agg_df) in
  exists ls fss tail,
    groups_step partial_ratio agg_df pid_df n 0
                (unique_key_combinations agg_df) ls fss
    /\ log_of (merge_with_pid_fuzzy partial_ratio agg_df (Some pid_df))
       = ProgressNew :: SidebarInfo n :: ls ++ ProgressEmpty :: tail
    /\ (tail = [] \/ exists m t, tail = [SidebarSuccess m t]).
Proof.
  intros (He & Ha & Hp) n.
  unfold merge_with_pid_fuzzy. rewrite He, Ha, Hp. fold n.
  destruct (for_each_groups_spec partial_ratio agg_df pid_df n
              (unique_key_combinations agg_df) 0%nat [])
    as (ls & fss & Hloop & Hsteps).
  simpl app in Hloop.
  exists ls, fss, (log_of (combine_matched_rows agg_df fss)).
  split; [assumption |]. split; [| apply combine_matched_rows_log].
  unfold emit.
  rewrite (log_of_bind_Ok _ _ _ _ eq_refl), (log_of_bind_Ok _ _ _ _ eq_refl).
  rewrite (log_of_bind_Ok _ _ _ _ Hloop), (log_of_bind_Ok _ _ _ _ eq_refl).
  reflexivity.
Qed.

Lemma same_key (k : key) (r p : Series) :
  key_mask k r = true -> key_mask k p = true ->
  series_get p "project" = series_get r "project"
  /\ series_get p "shire" = series_get r "shire".
Proof.
  intros Hr Hp. apply key_mask_true in Hr, Hp.
  destruct Hr as [Hr _], Hp as [Hp _]. rewrite <- Hp in Hr.
  unfold row_key in Hr. injection Hr as H1 H2. auto.
Qed.

Lemma comparisons_in_partition (agg_df pid_df : DataFrame) (k : key) (r : Series) :
  In r (rows agg_df) -> key_mask k r = true ->
  Forall (in_partition agg_df pid_df)
         (comparisons (series_get r "segmentdesc")
                      (descriptions (select pid_df (key_mask k)))).
Proof.
  intros Hr Hk. unfold comparisons. apply Forall_forall. intros e He.
  apply in_map_iff in He. destruct He as (c & <- & Hc).
  apply filter_In in Hc. destruct Hc as [Hc _].
  apply dropna_unique_In in Hc. destruct Hc as [Hc _].
  apply in_map_iff in Hc. destruct Hc as (p & <- & Hp).
  simpl in Hp. apply filter_In in Hp. destruct Hp as [Hp Hkp].
  destruct (same_key k r p Hk Hkp) as [H1 H2].
  cbn [in_partition]. exists r, p. repeat split; assumption.
Qed.

Lemma row_step_in_partition (agg_df pid_df : DataFrame) (k : key) (r : Series)
    (l : list event) (r' : Series) :
  In r (rows agg_df) -> key_mask k r = true ->
  row_step partial_ratio (select pid_df (key_mask k)) r l r' ->
  Forall (in_partition agg_df pid_df) l.
Proof.
  intros Hr Hk Hstep. destruct Hstep.
  - constructor.
  - now apply comparisons_in_partition.
  - now apply comparisons_in_partition.
Qed.

Lemma rows_step_in_partition (agg_df pid_df : DataFrame) (k : key)
    (rs : list Series) (l : list event) (rs' : list Series) :
  (forall r, In r rs -> In r (rows agg_df) /\ key_mask k r = true) ->
  rows_step partial_ratio (select pid_df (key_mask k)) rs l rs' ->
  Forall (in_partition agg_df pid_df) l.
Proof.
  intros Hrs Hsteps. induction Hsteps as [| r rs l ls r' rs' Hs Hss IH].
  - constructor.
  - apply Forall_app. split.
    + destruct (Hrs r (or_introl eq_refl)) as [H1 H2].
      eapply row_step_in_partition; eauto.
    + apply IH. intros x Hx. apply Hrs. now right.
Qed.

Lemma groups_step_in_partition (agg_df pid_df : DataFrame) (n i : nat)
    (ks : list key) (ls : list event) (fss : list DataFrame) :
  groups_step partial_ratio agg_df pid_df n i ks ls fss ->
  Forall (in_partition agg_df pid_df) ls.
Proof.
  induction 1 as [| i k ks l fs ls fss Hg Hgs IH]; [constructor |].
  constructor; [exact I |]. apply Forall_app. split; [| assumption].
  destruct Hg as [He | l rs' He Hrs]; [constructor |].
  eapply rows_step_in_partition; [| exact Hrs].
  intros r Hr. now apply filter_In in Hr.
Qed.

(** Every comparison of a run stays inside the partition of its row. *)
Lemma merge_log_in_partition (agg_df pid_df : DataFrame) :
  Forall (in_partition agg_df pid_df)
         (log_of (merge_with_pid_fuzzy partial_ratio agg_df (Some pid_df))).
Proof.
  destruct (main_path_dec agg_df pid_df) as [Hm | Hm].
  - destruct (merge_log_shape agg_df pid_df Hm) as (ls & fss & tail & Hs & -> & Ht).
    repeat (constructor; [exact I |]).
    apply Forall_app. split; [eapply groups_step_in_partition; eauto |].
    constructor; [exact I |].
    destruct Ht as [-> | (m & t & ->)]; repeat constructor.
  - unfold main_path in Hm. unfold merge_with_pid_fuzzy.
    destruct (df_empty agg_df); [constructor |].
    destruct (missing_columns required_agg_cols agg_df);
      [| repeat constructor].
    destruct (missing_columns required_pid_cols pid_df);
      [| repeat constructor].
    exfalso. auto.
Qed.

End Partition.

Lemma required_present (required : list string) (df : DataFrame) (c : string) :
  missing_columns required df = [] -> In c required -> In c (columns df).
Proof.
  intros Hm Hc. destruct (mem c (columns df)) eqn:E; [now apply mem_In |].
  assert (H : In c (missing_columns required df)).
  { apply missing_columns_In. split; [assumption | now apply mem_false]. }
  rewrite Hm in H. destruct H.
Qed.

Lemma hd_error_In {A : Type} (l : list A) (x : A) : hd_error l = Some x -> In x l.
Proof. destruct l; simpl; [discriminate | intros [= ->]; now left]. Qed.

Section Rows.

Variable partial_ratio : string -> string -> Z.

(** The two kinds of rows of the result: an aggregated row with nothing
    from the reference table, or one with the id and the description of a
    reference row of its partition whose description scored 75 or more. *)
Lemma merge_row_kinds (agg_df pid_df out : DataFrame) :
  df_wf agg_df ->
  main_path agg_df pid_df ->
  outcome (merge_with_pid_fuzzy partial_ratio agg_df (Some pid_df)) = Ok out ->
  Forall2 (fun r o =>
             In r (rows agg_df)
             /\ (unenriched r o
                 \/ (isna (series_get r "segmentdesc") = false
                     /\ copied_from_partition pid_df r o
                     /\ exists c,
                          In c (descriptions
                                  (select pid_df (key_mask (row_key r))))
                          /\ 75 <= score_of partial_ratio
                                     (series_get r "segmentdesc") c)))
          (grouped agg_df) (rows out).
Proof.
  intros Hwf Hmain Hrun. apply outcome_run in Hrun.
  destruct (merge_rows_spec partial_ratio _ _ _ _ Hwf Hmain Hrun)
    as (_ & _ & _ & _ & Hrows).
  eapply Forall2_weaken_In; [exact Hrows |].
  intros r o _ _ (r' & Ho & Hi & ->).
  assert (Hun : r' = r -> unenriched r (finalize (reindex (columns out) r'))).
  { intros <- c. now apply series_get_output. }
  destruct Ho as [k Hr Hk He -> | k l Hr Hk He Hstep]; [split; auto |].
  split; [assumption |].
  destruct Hstep as [Hna | bm sc Hna Hfind Hacc | bm sc p Hna Hfind Hacc Hhd];
    [left; auto | left; auto | right].
  destruct (key_mask_true _ _ Hk) as (Hkey & _).
  apply hd_error_In, filter_In in Hhd. destruct Hhd as [Hp Heq].
  simpl rows in Hp. apply filter_In in Hp. destruct Hp as [Hp Hkp].
  apply py_eq_true in Heq. destruct Heq as [Heq Hnn]. rewrite Heq in Hnn.
  destruct (same_key k r p Hk Hkp) as [Hproj Hshire].
  destruct (find_best_match_Some partial_ratio _ _ _ _ _ _ Hna Hfind)
    as (Hin & _ & Hsc & Hge & _).
  destruct (enrich_row_fields r bm sc (columns (select pid_df (key_mask k))) p)
    as (F1 & F2 & F3 & F4).
  destruct (enrich_row_frame r bm sc (columns (select pid_df (key_mask k))) p)
    as (Hkeep & _).
  destruct Hmain as (_ & Hreq & _).
  destruct Hwf as [_ Hwf]. rewrite Forall_forall in Hwf.
  assert (Hpass : forall c, In c required_agg_cols -> ~ In c enrichment_cols ->
            series_get (finalize (reindex (columns out)
                          (enrich_row r bm sc
                             (columns (select pid_df (key_mask k))) p))) c
            = series_get r c).
  { intros c Hc Hn. rewrite series_get_output by assumption.
    rewrite (sentinel_of_other c Hn), fillna_value_null.
    apply Hkeep; [| assumption]. rewrite (Hwf r Hr).
    eapply required_present; eauto. }
  split; [assumption |]. split.
  - exists p. split; [assumption |]. split; [assumption |]. split; [assumption |].
    split; [| split; [| split; [| split; [| split]]]].
    + apply Hpass; [simpl; auto |].
      simpl. intros [H | [H | [H | [H | []]]]]; discriminate.
    + apply Hpass; [simpl; auto |].
      simpl. intros [H | [H | [H | [H | []]]]]; discriminate.
    + rewrite series_get_output by assumption. now rewrite F3.
    + rewrite series_get_output by assumption. rewrite F4, Heq.
      apply fillna_value_null.
    + rewrite series_get_output by assumption. rewrite F1, Heq.
      unfold fillna_value. now rewrite Hnn.
    + exists sc. split; [| assumption].
      rewrite series_get_output by assumption. now rewrite F2.
  - exists bm. rewrite <- Hkey in Hin. rewrite <- Hsc. auto.
Qed.

End Rows.

(** C3.  Matching is bounded by the key.  Every comparison of a run scores
    the description of an aggregated row against the description of a
    reference row with the same project and shire.  For a key shared by no
    reference row the candidate set is empty and the loop body appends the
    aggregated rows of the key as they are, with no comparison.  In a
    returned table every row is either unenriched or carries the id and
    the description of a reference row with exactly its project and shire;
    when the aggregated table has no [pid_ohl_nr] of its own, every row
    whose [pid_ohl_nr] is not the sentinel is of the second kind. *)
Theorem matching_bounded_by_key (partial_ratio : string -> string -> Z)
    (agg_df pid_df : DataFrame) :
  df_wf agg_df ->
  main_path agg_df pid_df ->
  Forall (in_partition agg_df pid_df)
         (log_of (merge_with_pid_fuzzy partial_ratio agg_df (Some pid_df)))
  /\ (forall k,
        (forall p, In p (rows pid_df) -> key_mask k p = false) ->
        descriptions (select pid_df (key_mask k)) = []
        /\ forall n acc idx,
             match_combination partial_ratio agg_df pid_df n acc (idx, k)
             = ([ProgressSet (idx + 1) n],
                Ok (acc ++ [select agg_df (key_mask k)])))
  /\ (forall out,
        outcome (merge_with_pid_fuzzy partial_ratio agg_df (Some pid_df)) = Ok out ->
        Forall2 (fun r o =>
                   (unenriched r o \/ copied_from_partition pid_df r o)
                   /\ (mem "pid_ohl_nr" (columns agg_df) = false ->
                       series_get o "pid_ohl_nr" <> VStr "Not Available" ->
                       copied_from_partition pid_df r o))
                (grouped agg_df) (rows out)).
Proof.
  intros Hwf Hmain. split; [apply merge_log_in_partition | split].
  - intros k Hk.
    assert (Hnone : filter (key_mask k) (rows pid_df) = [])
      by (now apply filter_none).
    split.
    + unfold descriptions, select. simpl rows. now rewrite Hnone.
    + intros n acc idx. unfold match_combination.
      assert (He : df_empty (select pid_df (key_mask k)) = true).
      { unfold df_empty, select. simpl. rewrite Hnone.
        now destruct (columns pid_df). }
      rewrite He. reflexivity.
  - intros out Hrun.
    pose proof (merge_row_kinds partial_ratio _ _ _ Hwf Hmain Hrun) as Hkinds.
    eapply Forall2_weaken_In; [exact Hkinds |].
    intros r o _ _ [Hr [Hun | (_ & Hcp & _)]]; [| split; auto].
    split; [now left |]. intros Hfresh Hid. exfalso. apply Hid.
    rewrite (Hun "pid_ohl_nr").
    destruct Hwf as [_ Hwf]. rewrite Forall_forall in Hwf.
    rewrite series_get_absent; [reflexivity |].
    rewrite (Hwf r Hr). now apply mem_false.
Qed.

Lemma matching_bounded_by_key_witness :
  df_wf ledger1_keyed /\ main_path ledger1_keyed reference1
  /\ Forall (in_partition ledger1_keyed reference1)
            (log_of (merge_with_pid_fuzzy prefix_ratio ledger1_keyed
                       (Some reference1))).
Proof.
  assert (Hwf : df_wf ledger1_keyed) by (apply df_wf_check; reflexivity).
  assert (Hmain : main_path ledger1_keyed reference1)
    by (repeat split; reflexivity).
  split; [exact Hwf | split; [exact Hmain |]].
  apply (matching_bounded_by_key prefix_ratio ledger1_keyed reference1 Hwf Hmain).
Defined.

(** * Sentinels *)

Lemma unenriched_sentinel (agg_df : DataFrame) (r o : Series) :
  df_wf agg_df -> In r (rows agg_df) -> not_enriched_yet agg_df ->
  unenriched r o -> is_sentinel_row o.
Proof.
  intros [_ Hwf] Hr (H1 & H2 & H3) Hun. rewrite Forall_forall in Hwf.
  unfold is_sentinel_row. rewrite !Hun.
  rewrite !series_get_absent
    by (rewrite (Hwf r Hr); now apply mem_false).
  repeat split.
Qed.




(** C6, as amended.  For an aggregated table with none of the three filled
    columns, in a returned table a row whose candidates all score below 75
    carries the "no match" sentinels with score 0: a best score below the
    threshold is never kept, whether there were candidates or not. *)
Theorem below_threshold_scores_zero (partial_ratio : string -> string -> Z)
    (agg_df pid_df out : DataFrame) :
  df_wf agg_df ->
  main_path agg_df pid_df ->
  not_enriched_yet agg_df ->
  outcome (merge_with_pid_fuzzy partial_ratio agg_df (Some pid_df)) = Ok out ->
  Forall2 (fun r o =>
             (forall c,
                 In c (descriptions (select pid_df (key_mask (row_key r)))) ->
                 score_of partial_ratio (series_get r "segmentdesc") c < 75) ->
             is_sentinel_row o)
          (grouped agg_df) (rows out).
Proof.
  intros Hwf Hmain Hfresh Hrun.
  pose proof (merge_row_kinds partial_ratio _ _ _ Hwf Hmain Hrun) as Hkinds.
  eapply Forall2_weaken_In; [exact Hkinds |].
  intros r o _ _ [Hr [Hun | (_ & _ & c & Hc & Hge)]] Hlow.
  - eapply unenriched_sentinel; eauto.
  - specialize (Hlow c Hc). lia.
Qed.

Lemma below_threshold_scores_zero_witness :
  df_wf ledger6 /\ main_path ledger6 reference6 /\ not_enriched_yet ledger6
  /\ exists out,
       outcome (merge_with_pid_fuzzy prefix_ratio ledger6 (Some reference6)) = Ok out
       /\ Forall2 (fun r o =>
                     (forall c,
                         In c (descriptions
                                 (select reference6 (key_mask (row_key r)))) ->
                         score_of prefix_ratio (series_get r "segmentdesc") c < 75) ->
                     is_sentinel_row o)
                  (grouped ledger6) (rows out).
Proof.
  assert (Hwf : df_wf ledger6) by (apply df_wf_check; reflexivity).
  assert (Hmain : main_path ledger6 reference6) by (repeat split; reflexivity).
  assert (Hfresh : not_enriched_yet ledger6) by (repeat split; reflexivity).
  split; [exact Hwf | split; [exact Hmain | split; [exact Hfresh |]]].
  eexists. split; [reflexivity |].
  exact (below_threshold_scores_zero prefix_ratio ledger6 reference6 _
           Hwf Hmain Hfresh eq_refl).
Defined.

(** C6 as stated fails: for the description "abcd" the best score over the
    candidates is 50, computed against "abxy", and the row of the result
    has score 0, not 50. *)
Lemma best_score_below_threshold_is_dropped :
  map (score_of prefix_ratio (VStr "abcd"))
      (descriptions (select reference6 (key_mask (VStr "PCB 2022", VStr "Ayrshire"))))
  = [0; 50; 0]
  /\ exists out,
       outcome (merge_with_pid_fuzzy prefix_ratio ledger6 (Some reference6)) = Ok out
       /\ segmentdescs out = [VStr "Erect pole"; VStr "abcd"; VStr ""; VNull]
       /\ match_scores out = [VNum 100; VNum 0; VNum 100; VNum 0].
Proof. split; [reflexivity |]. eexists. repeat split. Qed.




(** * A run in which nothing matches *)

Lemma outcome_bind_Ok {A B : Type} (m : M A) (f : A -> M B) (l : list event)
    (a : A) :
  m = (l, Ok a) -> outcome (bind m f) = outcome (f a).
Proof. intros ->. unfold bind, outcome. simpl. now destruct (f a). Qed.

Section Unmatched.

Variable partial_ratio : string -> string -> Z.

(** When no row has a candidate that reaches the threshold, every frame
    appended to [matched_rows] has the columns of the aggregated table. *)
Lemma groups_unmatched_columns (agg_df pid_df : DataFrame) (n i : nat)
    (ks : list key) (ls : list event) (fss : list DataFrame) :
  df_wf agg_df ->
  (forall r, In r (rows agg_df) -> all_below_threshold partial_ratio pid_df r) ->
  groups_step partial_ratio agg_df pid_df n i ks ls fss ->
  forall f, In f fss -> columns f = columns agg_df.
Proof.
  intros [_ Hwf] Hlow. rewrite Forall_forall in Hwf.
  induction 1 as [| i k ks l fs ls fss Hg Hgs IH]; intros f Hf; [destruct Hf |].
  apply in_app_or in Hf. destruct Hf as [Hf | Hf]; [| auto].
  destruct Hg as [He | l rs' He Hrs].
  - destruct Hf as [<- | []]. reflexivity.
  - apply in_map_iff in Hf. destruct Hf as (r' & <- & Hr').
    destruct (rows_step_In _ _ _ _ _ _ Hrs Hr') as (r & l' & Hr & Hstep).
    apply filter_In in Hr. destruct Hr as [Hr Hk].
    destruct Hstep as [Hna | bm sc Hna Hfind Hacc | bm sc p Hna Hfind Hacc Hhd];
      try (simpl; now apply Hwf).
    exfalso.
    destruct (find_best_match_Some partial_ratio _ _ _ _ _ _ Hna Hfind)
      as (Hin & _ & Hsc & Hge & _).
    destruct (key_mask_true _ _ Hk) as (Hkey & _). rewrite <- Hkey in Hin.
    specialize (Hlow r Hr bm Hin). lia.
Qed.

End Unmatched.

(** C4: the claim is that a run in which no row is matched ends normally
    with sentinel rows.  It does not: when the aggregated table has no
    [matched_project_description] column of its own and no row has a
    candidate that reaches the threshold -- no reference row of its key,
    or only scores below 75 -- the run ends in [KeyError] in the first
    [fillna], the column to fill never having been created. *)
Theorem no_match_at_all_raises (partial_ratio : string -> string -> Z)
    (agg_df pid_df : DataFrame) :
  df_wf agg_df ->
  main_path agg_df pid_df ->
  mem "matched_project_description" (columns agg_df) = false ->
  (forall r, In r (rows agg_df) -> all_below_threshold partial_ratio pid_df r) ->
  outcome (merge_with_pid_fuzzy partial_ratio agg_df (Some pid_df))
  = Raise (KeyError "matched_project_description").
Proof.
  intros Hwf Hmain Hfresh Hlow.
  pose proof Hmain as (He & Ha & Hp).
  destruct (for_each_groups_spec partial_ratio agg_df pid_df
              (List.length (unique_key_combinations agg_df))
              (unique_key_combinations agg_df) 0%nat [])
    as (ls & fss & Hloop & Hsteps).
  simpl app in Hloop.
  pose proof (groups_unmatched_columns partial_ratio _ _ _ _ _ _ _ Hwf Hlow Hsteps)
    as Hcols.
  unfold merge_with_pid_fuzzy. rewrite He, Ha, Hp. unfold emit.
  rewrite (outcome_bind_Ok _ _ _ _ eq_refl), (outcome_bind_Ok _ _ _ _ eq_refl).
  rewrite (outcome_bind_Ok _ _ _ _ Hloop), (outcome_bind_Ok _ _ _ _ eq_refl).
  destruct fss as [| f fss].
  { exfalso. apply unique_key_combinations_nonempty in He.
    destruct (unique_key_combinations agg_df) as [| k ks] eqn:Hks; [congruence |].
    inversion Hsteps as [| ? ? ? l fs ls' fss' Hg Hgs]; subst.
    match goal with
    | H : _ ++ _ = [] |- _ => apply app_eq_nil in H; destruct H as [-> _]
    end.
    eapply group_step_nonempty; [| exact Hg | reflexivity].
    rewrite Hks. now left. }
  unfold combine_matched_rows, fillna_column.
  assert (Hmem : mem "matched_project_description" (columns (concat (f :: fss)))
                 = false).
  { apply mem_false. intros Hin. apply columns_concat_In in Hin.
    destruct Hin as (g & Hg & Hc). rewrite (Hcols g Hg) in Hc.
    apply mem_false in Hfresh. contradiction. }
  rewrite Hmem. reflexivity.
Qed.

Lemma no_match_at_all_raises_witness :
  df_wf ledger4 /\ main_path ledger4 reference4
  /\ mem "matched_project_description" (columns ledger4) = false
  /\ (forall r, In r (rows ledger4) -> all_below_threshold prefix_ratio reference4 r)
  /\ outcome (merge_with_pid_fuzzy prefix_ratio ledger4 (Some reference4))
     = Raise (KeyError "matched_project_description").
Proof.
  assert (Hwf : df_wf ledger4) by (apply df_wf_check; reflexivity).
  assert (Hmain : main_path ledger4 reference4) by (repeat split; reflexivity).
  assert (Hlow : forall r, In r (rows ledger4) ->
                           all_below_threshold prefix_ratio reference4 r).
  { intros r [<- | []] c []. }
  split; [exact Hwf | split; [exact Hmain | split; [reflexivity | split; [exact Hlow |]]]].
  exact (no_match_at_all_raises prefix_ratio ledger4 reference4
           Hwf Hmain eq_refl Hlow).
Defined.

(** The run on [ledger4], for every scorer: the reference row is of another
    shire, nothing is compared, and the first [fillna] raises. *)
Example ledger4_run (partial_ratio : string -> string -> Z) :
  merge_with_pid_fuzzy partial_ratio ledger4 (Some reference4)
  = ([ProgressNew; SidebarInfo 1; ProgressSet 1 1; ProgressEmpty],
     Raise (KeyError "matched_project_description")).
Proof. reflexivity. Qed.

(** * The count of accepted rows *)

Section Count.

Variable partial_ratio : string -> string -> Z.

Lemma find_best_match_no_candidates (target : value) (threshold : Z) :
  find_best_match partial_ratio target (Some []) threshold = ([], Ok (None, 0)).
Proof. unfold find_best_match. now destruct (isna target). Qed.

Lemma find_best_match_null (target : value) (cands : option (list value))
    (threshold : Z) :
  isna target = true ->
  find_best_match partial_ratio target cands threshold = ([], Ok (None, 0)).
Proof. intros H. unfold find_best_match. now rewrite H. Qed.

Lemma filter_length_Forall2 {A B : Type} (p : B -> bool) (q : A -> bool)
    (l : list A) (m : list B) :
  Forall2 (fun a b => p b = q a) l m ->
  List.length (filter p m) = List.length (filter q l).
Proof.
  induction 1 as [| a b l m Hab H IH]; simpl; [reflexivity |].
  rewrite Hab. destruct (q a); simpl; now rewrite IH.
Qed.

(** A row of the result has [match_score >= 75] exactly when the query of
    its aggregated row is accepted at threshold 75. *)
Lemma merge_row_accepts (agg_df pid_df out : DataFrame) :
  df_wf agg_df ->
  main_path agg_df pid_df ->
  mem "match_score" (columns agg_df) = false ->
  outcome (merge_with_pid_fuzzy partial_ratio agg_df (Some pid_df)) = Ok out ->
  Forall2 (fun r o =>
             score_reaches_75 o = accepts_at partial_ratio 75 (row_query pid_df r))
          (grouped agg_df) (rows out).
Proof.
  intros Hwf Hmain Hfresh Hrun. apply outcome_run in Hrun.
  destruct (merge_rows_spec partial_ratio _ _ _ _ Hwf Hmain Hrun)
    as (_ & _ & _ & _ & Hrows).
  eapply Forall2_weaken_In; [exact Hrows |].
  intros r o _ _ (r' & Ho & Hi & ->).
  unfold score_reaches_75, accepts_at, row_query. cbn [fst snd].
  rewrite series_get_output by assumption.
  assert (Hun : In r (rows agg_df) ->
            fillna_value (series_get r "match_score") (sentinel_of "match_score")
            = VNum 0).
  { intros Hr. destruct Hwf as [_ Hwf]. rewrite Forall_forall in Hwf.
    rewrite series_get_absent; [reflexivity |].
    rewrite (Hwf r Hr). now apply mem_false. }
  destruct Ho as [k Hr Hk He -> | k l Hr Hk He Hstep].
  - rewrite (Hun Hr).
    destruct (key_mask_true _ _ Hk) as (Hkey & _). rewrite Hkey.
    assert (Hnone : descriptions (select pid_df (key_mask k)) = []).
    { unfold descriptions. simpl rows.
      destruct Hmain as (_ & _ & Hp).
      assert (Hc : In "project" (columns pid_df))
        by (eapply required_present; [exact Hp | simpl; auto]).
      unfold df_empty, select in He. simpl in He.
      destruct (columns pid_df); [destruct Hc |].
      now destruct (filter (key_mask k) (rows pid_df)). }
    rewrite Hnone, find_best_match_no_candidates. reflexivity.
  - destruct (key_mask_true _ _ Hk) as (Hkey & _). rewrite Hkey.
    destruct Hstep as [Hna | bm sc Hna Hfind Hacc | bm sc p Hna Hfind Hacc Hhd].
    + rewrite (Hun Hr), find_best_match_null by assumption. reflexivity.
    + rewrite (Hun Hr), Hfind. unfold outcome. simpl snd.
      unfold accepted in Hacc. destruct bm; [now rewrite Hacc | reflexivity].
    + destruct (enrich_row_fields r bm sc
                  (columns (select pid_df (key_mask k))) p) as (_ & F2 & _).
      rewrite F2, Hfind. unfold outcome. simpl snd.
      unfold accepted in Hacc. cbn [fillna_value isna].
      rewrite Hacc. apply andb_true_iff in Hacc. apply Hacc.
Qed.

End Count.

(** C8: raising the threshold never adds an accepted match.  For thresholds
    [t1 <= t2]: a match that [find_best_match] returns at [t2] is returned
    at [t1] too (the same candidate with the same score), and over any
    list of targets with their candidates the number of accepted matches at
    [t2] is at most the number at [t1].  The reconciliation itself runs at
    threshold 75: the number of rows of a returned table with
    [match_score >= 75] is the number of queries of the table accepted at
    75, hence at least the number accepted at any higher threshold and at
    most the number accepted at any lower one. *)
Theorem threshold_monotonicity (partial_ratio : string -> string -> Z)
    (t1 t2 : Z) :
  0 <= t1 <= t2 /\ t2 <= 100 ->
  (forall target cands bm sc,
      outcome (find_best_match partial_ratio target cands t2) = Ok (Some bm, sc) ->
      outcome (find_best_match partial_ratio target cands t1) = Ok (Some bm, sc))
  /\ (forall queries,
         (count_accepted partial_ratio t2 queries
          <= count_accepted partial_ratio t1 queries)%nat)
  /\ (forall agg_df pid_df out,
         df_wf agg_df ->
         main_path agg_df pid_df ->
         mem "match_score" (columns agg_df) = false ->
         outcome (merge_with_pid_fuzzy partial_ratio agg_df (Some pid_df)) = Ok out ->
         accepted_rows out
         = count_accepted partial_ratio 75 (table_queries agg_df pid_df)
         /\ (75 <= t1 ->
             (count_accepted partial_ratio t1 (table_queries agg_df pid_df)
              <= accepted_rows out)%nat)
         /\ (t2 <= 75 ->
             (accepted_rows out
              <= count_accepted partial_ratio t2 (table_queries agg_df pid_df))%nat)).
Proof.
  intros [[_ Ht] _].
  assert (Hmono : forall a b queries, a <= b ->
            (count_accepted partial_ratio b queries
             <= count_accepted partial_ratio a queries)%nat).
  { intros a b queries Hab. unfold count_accepted. apply filter_length_le.
    intros q. now apply accepts_at_lower. }
  split; [| split].
  - intros target cands bm sc. now apply find_best_match_lower.
  - intros queries. now apply Hmono.
  - intros agg_df pid_df out Hwf Hmain Hfresh Hrun.
    assert (Heq : accepted_rows out
                  = count_accepted partial_ratio 75 (table_queries agg_df pid_df)).
    { unfold accepted_rows, count_accepted, table_queries.
      rewrite (filter_length_Forall2 score_reaches_75
                 (fun r => accepts_at partial_ratio 75 (row_query pid_df r))
                 (grouped agg_df) (rows out)
                 (merge_row_accepts partial_ratio _ _ _ Hwf Hmain Hfresh Hrun)).
      clear. induction (grouped agg_df) as [| r l IH]; simpl; [reflexivity |].
      destruct (accepts_at partial_ratio 75 (row_query pid_df r)); simpl;
        now rewrite IH. }
    split; [exact Heq | rewrite Heq; split; intros H; now apply Hmono].
Qed.

Lemma threshold_monotonicity_witness :
  (0 <= 75 <= 95 /\ 95 <= 100)
  /\ (count_accepted prefix_ratio 95
        [(VStr "abcdefghij", Some [VStr "abcdefghxy"; VStr "zz"])]
      <= count_accepted prefix_ratio 75
           [(VStr "abcdefghij", Some [VStr "abcdefghxy"; VStr "zz"])])%nat
  /\ df_wf ledger6 /\ main_path ledger6 reference6
  /\ exists out,
       outcome (merge_with_pid_fuzzy prefix_ratio ledger6 (Some reference6)) = Ok out
       /\ (count_accepted prefix_ratio 95 (table_queries ledger6 reference6)
           <= accepted_rows out)%nat.
Proof.
  assert (Ht : 0 <= 75 <= 95 /\ 95 <= 100) by lia.
  assert (Hwf : df_wf ledger6) by (apply df_wf_check; reflexivity).
  assert (Hmain : main_path ledger6 reference6) by (repeat split; reflexivity).
  destruct (threshold_monotonicity prefix_ratio 75 95 Ht) as (_ & Hcount & Htable).
  split; [exact Ht | split; [apply Hcount | split; [exact Hwf | split; [exact Hmain |]]]].
  eexists. split; [reflexivity |].
  destruct (threshold_monotonicity prefix_ratio 95 100 ltac:(lia))
    as (_ & _ & Htable').
  refine (proj1 (proj2 (Htable' ledger6 reference6 _ Hwf Hmain eq_refl eq_refl)) _).
  lia.
Defined.

(** * The best match *)

Section FirstMaximum.

Variable partial_ratio : string -> string -> Z.

(** The loop keeps the first candidate that attains the best accepted
    score: the candidates before it score strictly less, those after it
    score no more. *)
Lemma best_loop_first_max (target : value) (threshold : Z) (cands : list value) :
  forall bm bs,
  exists bm' bs',
    for_each cands (best_loop partial_ratio target threshold) (bm, bs)
      = (comparisons target cands, Ok (bm', bs'))
    /\ (((bm', bs') = (bm, bs)
         /\ forall c, In c cands -> isna c = false ->
                      score_of partial_ratio target c <= bs
                      \/ score_of partial_ratio target c < threshold)
        \/ exists before best after,
             cands = before ++ best :: after
             /\ isna best = false
             /\ bm' = Some best
             /\ bs' = score_of partial_ratio target best
             /\ threshold <= bs' /\ bs < bs'
             /\ (forall c, In c before -> isna c = false ->
                           score_of partial_ratio target c < bs')
             /\ (forall c, In c after -> isna c = false ->
                           score_of partial_ratio target c <= bs')).
Proof.
  induction cands as [| c cands IH]; intros bm bs.
  - exists bm, bs. split; [reflexivity |]. left. split; [reflexivity | intros c []].
  - rewrite for_each_cons. destruct (isna c) eqn:Hna.
    + destruct (IH bm bs) as (bm' & bs' & Hrun & Hst).
      exists bm', bs'. split.
      * rewrite comparisons_null by assumption.
        exact (bind_run _ _ _ _ _ _ (best_loop_null _ _ _ _ _ Hna) Hrun).
      * destruct Hst as [[Hst Hall] | (l1 & b & l2 & -> & Hb & Hbm & Hbs & Ht & Hlt & H1 & H2)].
        -- left. split; [assumption |].
           intros c' [<- | Hin] Hc'; [congruence | auto].
        -- right. exists (c :: l1), b, l2. repeat split; auto.
           intros c' [<- | Hin] Hc'; [congruence | auto].
    + pose proof (best_loop_scored partial_ratio target threshold bm bs c Hna) as Hstep.
      destruct ((bs <? score_of partial_ratio target c)
                && (threshold <=? score_of partial_ratio target c)) eqn:Hup.
      * apply andb_true_iff in Hup. destruct Hup as [U1 U2].
        apply Z.ltb_lt in U1. apply Z.leb_le in U2.
        destruct (IH (Some c) (score_of partial_ratio target c))
          as (bm' & bs' & Hrun & Hst).
        exists bm', bs'. split.
        -- rewrite comparisons_scored by assumption.
           exact (bind_run _ _ _ _ _ _ Hstep Hrun).
        -- right.
           destruct Hst as [[Hst Hall] | (l1 & b & l2 & -> & Hb & Hbm & Hbs & Ht & Hlt & H1 & H2)].
           ++ injection Hst as -> ->. exists [], c, cands.
              repeat split; auto.
              ** intros c' [].
              ** intros c' Hin Hc'. destruct (Hall c' Hin Hc'); lia.
           ++ exists (c :: l1), b, l2. repeat split; auto; [lia |].
              intros c' [<- | Hin] Hc'; [lia | auto].
      * destruct (IH bm bs) as (bm' & bs' & Hrun & Hst).
        exists bm', bs'. split.
        -- rewrite comparisons_scored by assumption.
           exact (bind_run _ _ _ _ _ _ Hstep Hrun).
        -- assert (Hc : score_of partial_ratio target c <= bs
                         \/ score_of partial_ratio target c < threshold).
           { apply andb_false_iff in Hup. destruct Hup as [Hup | Hup].
             - apply Z.ltb_ge in Hup. now left.
             - apply Z.leb_gt in Hup. now right. }
           destruct Hst as [[Hst Hall] | (l1 & b & l2 & -> & Hb & Hbm & Hbs & Ht & Hlt & H1 & H2)].
           ++ left. split; [assumption |].
              intros c' [<- | Hin] Hc'; auto.
           ++ right. exists (c :: l1), b, l2. repeat split; auto.
              intros c' [<- | Hin] Hc'; [lia | auto].
Qed.

End FirstMaximum.

(** X1: the candidate returned by [find_best_match] is the first one, in
    the order of the list, that attains the highest score; that score
    reaches the threshold and is positive. *)
Theorem best_match_is_first_maximum (partial_ratio : string -> string -> Z)
    (target : value) (cands : list value) (threshold : Z)
    (best : value) (score : Z) :
  outcome (find_best_match partial_ratio target (Some cands) threshold)
  = Ok (Some best, score) ->
  exists before after,
    cands = before ++ best :: after
    /\ isna best = false
    /\ score = score_of partial_ratio target best
    /\ threshold <= score /\ 0 < score
    /\ (forall c, In c before -> isna c = false ->
                  score_of partial_ratio target c < score)
    /\ (forall c, In c after -> isna c = false ->
                  score_of partial_ratio target c <= score).
Proof.
  intros Hout. destruct (isna target) eqn:Hna.
  - unfold find_best_match in Hout. rewrite Hna in Hout. discriminate Hout.
  - rewrite (find_best_match_loop partial_ratio target cands threshold Hna) in Hout.
    destruct (best_loop_first_max partial_ratio target threshold cands None 0)
      as (bm' & bs' & Hrun & Hst).
    rewrite Hrun in Hout. cbn [outcome snd] in Hout. injection Hout as -> ->.
    destruct Hst as [[Hst _] | (l1 & b & l2 & Hc & Hb & Hbm & Hbs & Ht & Hlt & H1 & H2)].
    + discriminate Hst.
    + injection Hbm as <-. exists l1, l2. repeat split; auto.
Qed.

Lemma best_match_is_first_maximum_witness :
  exists before after,
    [VStr "abxy"; VNull; VStr "ab cd"; VStr "AB CD"; VStr "ab"]
    = before ++ VStr "ab cd" :: after
    /\ isna (VStr "ab cd") = false
    /\ 100 = score_of prefix_ratio (VStr "Ab cd!") (VStr "ab cd")
    /\ 75 <= 100 /\ 0 < 100
    /\ (forall c, In c before -> isna c = false ->
                  score_of prefix_ratio (VStr "Ab cd!") c < 100)
    /\ (forall c, In c after -> isna c = false ->
                  score_of prefix_ratio (VStr "Ab cd!") c <= 100).
Proof.
  apply (best_match_is_first_maximum prefix_ratio (VStr "Ab cd!")
           [VStr "abxy"; VNull; VStr "ab cd"; VStr "AB CD"; VStr "ab"] 75).
  vm_compute. reflexivity.
Defined.

(** X2: for a target that is not null, [find_best_match] returns no match
    (and score 0) exactly when every non-null candidate scores below the
    threshold or scores 0 or less: a candidate that scores 0 is never
    returned, even at threshold 0. *)
Theorem no_match_iff_nothing_qualifies (partial_ratio : string -> string -> Z)
    (target : value) (cands : list value) (threshold : Z) :
  isna target = false ->
  (outcome (find_best_match partial_ratio target (Some cands) threshold)
   = Ok (None, 0))
  <-> (forall c, In c cands -> isna c = false ->
                 score_of partial_ratio target c < threshold
                 \/ score_of partial_ratio target c <= 0).
Proof.
  intros Hna.
  rewrite (find_best_match_loop partial_ratio target cands threshold Hna).
  destruct (best_loop_first_max partial_ratio target threshold cands None 0)
    as (bm' & bs' & Hrun & Hst).
  rewrite Hrun. cbn [outcome snd].
  destruct Hst as [[Hst Hall] | (l1 & b & l2 & -> & Hb & Hbm & Hbs & Ht & Hlt & H1 & H2)].
  - split; [| intros _; now rewrite Hst].
    intros _ c Hin Hc. destruct (Hall c Hin Hc); auto.
  - subst bm'. split; [intros H; discriminate H |].
    intros Hall. exfalso.
    destruct (Hall b) as [H | H]; [apply in_or_app; right; now left | assumption | lia | lia].
Qed.

Lemma no_match_iff_nothing_qualifies_witness :
  outcome (find_best_match prefix_ratio (VStr "abcd")
             (Some [VStr "abxy"; VNull; VStr "zz"]) 75) = Ok (None, 0)
  <-> (forall c, In c [VStr "abxy"; VNull; VStr "zz"] -> isna c = false ->
                 score_of prefix_ratio (VStr "abcd") c < 75
                 \/ score_of prefix_ratio (VStr "abcd") c <= 0).
Proof.
  apply (no_match_iff_nothing_qualifies prefix_ratio (VStr "abcd")
           [VStr "abxy"; VNull; VStr "zz"] 75).
  reflexivity.
Defined.

(** X3: [find_best_match] scores every non-null candidate exactly once, in
    the order of the list, whatever the threshold and whatever the scores:
    the loop has no early exit, not even after a perfect score.  Nothing
    is scored for a null target or without a candidate list. *)
Theorem every_candidate_is_scored (partial_ratio : string -> string -> Z)
    (target : value) (cands : option (list value)) (threshold : Z) :
  log_of (find_best_match partial_ratio target cands threshold)
  = if isna target then []
    else match cands with
         | Some l => comparisons target l
         | None => []
         end.
Proof.
  destruct (isna target) eqn:Hna.
  - now rewrite find_best_match_null.
  - destruct cands as [l |].
    + destruct (find_best_match_spec partial_ratio target l threshold Hna)
        as (bm & bs & Hrun & _).
      now rewrite Hrun.
    + unfold find_best_match. now rewrite Hna.
Qed.

(** * Rows without a key *)

Lemma filter_andb {A : Type} (p q : A -> bool) (l : list A) :
  filter (fun a => p a && q a) l = filter q (filter p l).
Proof.
  induction l as [| a l IH]; simpl; [reflexivity |].
  destruct (p a); simpl; [destruct (q a) |]; now rewrite IH.
Qed.

Lemma key_mask_has_key (k : key) (r : Series) :
  key_mask k r = has_key r && key_eqb (row_key r) k.
Proof.
  unfold has_key.
  destruct (isna (series_get r "project")) eqn:H1;
    [| destruct (isna (series_get r "shire")) eqn:H2].
  - unfold key_mask. destruct (series_get r "project"); try discriminate H1.
    reflexivity.
  - unfold key_mask. destruct (series_get r "shire"); try discriminate H2.
    simpl. destruct (py_eq _ _), (series_get r "project"); reflexivity.
  - simpl. now apply key_mask_key_eqb.
Qed.

(** The loops visit exactly the rows that have a project and a shire. *)
Lemma grouped_has_key (agg_df : DataFrame) :
  Permutation (grouped agg_df) (filter has_key (rows agg_df)).
Proof.
  unfold grouped.
  rewrite (flat_map_ext_In _
             (fun k => filter (fun r => key_eqb (row_key r) k)
                              (filter has_key (rows agg_df)))).
  - apply (partition_Permutation row_key key_eqb key_eqb_eq).
    + apply (dedup_NoDup key_eqb key_eqb_eq).
    + intros r Hr. apply filter_In in Hr. destruct Hr as [Hr _].
      apply unique_key_combinations_In. eauto.
  - intros k _. rewrite <- filter_andb. apply filter_ext.
    intros r. apply key_mask_has_key.
Qed.

(** X4: the reconciliation proper drops the aggregated rows that have a
    null project or a null shire and keeps all the others: a returned
    table has one row for each aggregated row with both, with the values
    of that row outside the enrichment fields. *)
Theorem rows_without_key_are_dropped (partial_ratio : string -> string -> Z)
    (agg_df pid_df out : DataFrame) :
  df_wf agg_df ->
  main_path agg_df pid_df ->
  outcome (merge_with_pid_fuzzy partial_ratio agg_df (Some pid_df)) = Ok out ->
  List.length (rows out) = List.length (filter has_key (rows agg_df))
  /\ exists order,
       Permutation order (filter has_key (rows agg_df))
       /\ Forall2 (passes_through agg_df) order (rows out).
Proof.
  intros Hwf Hmain Hrun.
  pose proof (merge_passes_through partial_ratio _ _ _ Hwf Hmain Hrun) as Hpass.
  pose proof (grouped_has_key agg_df) as Hperm.
  split.
  - rewrite <- (Forall2_length Hpass). now apply Permutation_length.
  - exists (grouped agg_df). split; assumption.
Qed.

Lemma rows_without_key_are_dropped_witness :
  exists out,
    outcome (merge_with_pid_fuzzy prefix_ratio ledger1 (Some reference1)) = Ok out
    /\ List.length (rows out) = List.length (filter has_key (rows ledger1))
    /\ exists order,
         Permutation order (filter has_key (rows ledger1))
         /\ Forall2 (passes_through ledger1) order (rows out).
Proof.
  eexists. split; [reflexivity |].
  apply (rows_without_key_are_dropped prefix_ratio ledger1 reference1).
  - apply df_wf_check. reflexivity.
  - repeat split; reflexivity.
  - reflexivity.
Defined.

(** * Runs that return *)

Lemma series_set_In (r : Series) (c : string) (v : value) :
  In c (series_index (series_set r c v)).
Proof.
  rewrite series_index_set. destruct (mem c (series_index r)) eqn:E.
  - now apply mem_In.
  - apply in_or_app. right. now left.
Qed.

Lemma series_set_keeps (r : Series) (c c' : string) (v : value) :
  In c' (series_index r) -> In c' (series_index (series_set r c v)).
Proof.
  intros H. destruct (series_set_extends r c v) as (e & -> & _).
  apply in_or_app. now left.
Qed.

(** The labels written by an accepted match are labels of the new row. *)
Lemma enrich_row_labels (r : Series) (bm : value) (sc : Z) (pc : list string)
    (p : Series) (c : string) :
  In c enrichment_cols -> In c (series_index (enrich_row r bm sc pc p)).
Proof.
  intros Hc. unfold enrich_row.
  match goal with
  | |- In c (series_index (add_other_pid_columns pc p ?x)) =>
      destruct (add_other_pid_columns_spec pc p x) as [_ (e & -> & _)]
  end.
  apply in_or_app. left.
  destruct Hc as [<- | [<- | [<- | [<- | []]]]].
  - do 3 apply series_set_keeps. apply series_set_In.
  - do 2 apply series_set_keeps. apply series_set_In.
  - apply series_set_keeps. apply series_set_In.
  - apply series_set_In.
Qed.

Lemma fillna_column_run (df : DataFrame) (col : string) (d : value) :
  In col (columns df) ->
  fillna_column df col d
  = ([], Ok (mkDF (columns df) (map (fill col d) (rows df)))).
Proof.
  intros H. unfold fillna_column. now rewrite (proj2 (mem_In _ _) H).
Qed.

(** Counting over a column of numbers does not raise. *)
Lemma count_ge_total (df : DataFrame) (col : string) (k : Z) :
  In col (columns df) ->
  (forall r, In r (rows df) -> exists z, series_get r col = VNum z) ->
  exists n, count_ge df col k = ([], Ok n).
Proof.
  intros Hc Hnum. unfold count_ge. rewrite (proj2 (mem_In _ _) Hc).
  generalize 0%nat. induction (rows df) as [| x xs IH]; intros n.
  - exists n. reflexivity.
  - rewrite for_each_cons.
    destruct (Hnum x (or_introl eq_refl)) as (z & Hz). rewrite Hz.
    destruct (IH (fun r Hr => Hnum r (or_intror Hr))
                 (if k <=? z then S n else n)) as (m & Hm).
    exists m. cbn [ge_number bind ret]. rewrite Hm. reflexivity.
Qed.

Section Returns.

Variable partial_ratio : string -> string -> Z.

Lemma groups_step_In (agg_df pid_df : DataFrame) (n i : nat) (ks : list key)
    (ls : list event) (fss : list DataFrame) (k : key) :
  groups_step partial_ratio agg_df pid_df n i ks ls fss ->
  In k ks ->
  exists l fs, group_step partial_ratio agg_df pid_df k l fs
               /\ incl fs fss.
Proof.
  induction 1 as [| i k' ks l fs ls fss Hg Hgs IH]; intros Hin; [destruct Hin |].
  destruct Hin as [-> | Hin].
  - exists l, fs. split; [assumption | apply incl_appl, incl_refl].
  - destruct (IH Hin) as (l' & fs' & Hg' & Hi).
    exists l', fs'. split; [assumption | now apply incl_appr].
Qed.

Lemma rows_step_In_l (ps : DataFrame) (rs : list Series) (l : list event)
    (rs' : list Series) (r : Series) :
  rows_step partial_ratio ps rs l rs' -> In r rs ->
  exists l' r', row_step partial_ratio ps r l' r' /\ In r' rs'.
Proof.
  induction 1 as [| r0 rs l ls r0' rs' Hstep Hrs IH]; intros Hin; [destruct Hin |].
  destruct Hin as [-> | Hin].
  - exists l, r0'. split; [assumption | now left].
  - destruct (IH Hin) as (l' & r' & H1 & H2).
    exists l', r'. split; [assumption | now right].
Qed.

(** An accepted query has a non-null description and a candidate, so the
    row has a project and a shire, shared with a reference row. *)
Lemma accepted_query (pid_df : DataFrame) (r : Series) :
  accepts_at partial_ratio 75 (row_query pid_df r) = true ->
  isna (series_get r "segmentdesc") = false
  /\ key_mask (row_key r) r = true
  /\ (exists q, In q (rows pid_df) /\ key_mask (row_key r) q = true)
  /\ exists b sc,
       find_best_match partial_ratio (series_get r "segmentdesc")
         (Some (descriptions (select pid_df (key_mask (row_key r))))) 75
       = (comparisons (series_get r "segmentdesc")
            (descriptions (select pid_df (key_mask (row_key r)))),
          Ok (Some b, sc))
       /\ accepted (Some b) sc = true.
Proof.
  unfold accepts_at, row_query. cbn [fst snd]. intros Hacc.
  destruct (isna (series_get r "segmentdesc")) eqn:Hna.
  { rewrite find_best_match_null in Hacc by assumption. discriminate Hacc. }
  destruct (find_best_match_spec partial_ratio (series_get r "segmentdesc")
              (descriptions (select pid_df (key_mask (row_key r)))) 75 Hna)
    as (bm & bs & Hrun & _).
  rewrite Hrun in Hacc. cbn [outcome snd] in Hacc.
  destruct bm as [b |]; [| discriminate Hacc].
  destruct (find_best_match_Some partial_ratio _ _ _ _ _ _ Hna Hrun)
    as (Hin & _).
  destruct (descriptions_row _ _ Hin) as (q & Hq & _).
  cbn [select rows] in Hq. apply filter_In in Hq. destruct Hq as [Hq Hk].
  destruct (key_mask_true _ _ Hk) as (_ & K1 & K2).
  split; [reflexivity |]. split; [now apply key_mask_row_key |].
  split; [eauto |]. exists b, bs. split; assumption.
Qed.

(** A row whose query is accepted puts a frame with the enrichment columns
    into [matched_rows]. *)
Lemma accepted_row_frame (agg_df pid_df : DataFrame) (n i : nat)
    (ls : list event) (fss : list DataFrame) (r : Series) :
  main_path agg_df pid_df ->
  groups_step partial_ratio agg_df pid_df n i
              (unique_key_combinations agg_df) ls fss ->
  In r (rows agg_df) ->
  accepts_at partial_ratio 75 (row_query pid_df r) = true ->
  exists f, In f fss /\ forall c, In c enrichment_cols -> In c (columns f).
Proof.
  intros (_ & _ & Hp) Hsteps Hr Hacc.
  destruct (accepted_query _ _ Hacc)
    as (Hna & Hk & (q & Hq & Hkq) & b & sc & Hfind & Hok).
  assert (Hks : In (row_key r) (unique_key_combinations agg_df))
    by (apply unique_key_combinations_In; eauto).
  destruct (groups_step_In _ _ _ _ _ _ _ _ Hsteps Hks) as (l & fs & Hg & Hi).
  destruct Hg as [He | l rs' He Hrs].
  - exfalso. unfold df_empty, select in He. cbn [columns rows] in He.
    pose proof (required_present required_pid_cols pid_df "project" Hp
                  (or_introl eq_refl)) as Hc.
    destruct (columns pid_df); [destruct Hc |].
    destruct (filter (key_mask (row_key r)) (rows pid_df)) eqn:Ef;
      [| discriminate He].
    assert (Hin : In q (filter (key_mask (row_key r)) (rows pid_df)))
      by (apply filter_In; auto).
    rewrite Ef in Hin. destruct Hin.
  - assert (Hin : In r (filter (key_mask (row_key r)) (rows agg_df)))
      by (apply filter_In; auto).
    destruct (rows_step_In_l _ _ _ _ _ Hrs Hin) as (l' & r' & Hstep & Hr').
    exists (frame_of_row r'). split; [apply Hi; now apply in_map |].
    destruct Hstep as [Hna' | bm sc' Hna' Hfind' Hacc' | bm sc' p Hna' Hfind' Hacc' Hhd].
    + congruence.
    + rewrite Hfind in Hfind'. injection Hfind' as <- <-. congruence.
    + intros c Hc. cbn [frame_of_row columns]. now apply enrich_row_labels.
Qed.

(** The scores of the rows appended to [matched_rows], for an aggregated
    table that has no [match_score] column: a number or nothing. *)
Lemma row_outcome_score (agg_df pid_df : DataFrame) (r r' : Series) :
  df_wf agg_df ->
  mem "match_score" (columns agg_df) = false ->
  row_outcome partial_ratio agg_df pid_df r r' ->
  series_get r' "match_score" = VNull
  \/ exists z, series_get r' "match_score" = VNum z.
Proof.
  intros [_ Hwf] Hms Hout. rewrite Forall_forall in Hwf.
  assert (Habs : In r (rows agg_df) -> series_get r "match_score" = VNull).
  { intros Hr. apply series_get_absent. rewrite (Hwf r Hr). now apply mem_false. }
  destruct Hout as [k Hr _ _ -> | k l Hr _ _ Hstep]; [left; auto |].
  destruct Hstep as [_ | bm sc _ _ _ | bm sc p _ _ _ _]; [left; auto | left; auto |].
  right. exists sc. apply enrich_row_fields.
Qed.

End Returns.

(** X5: in the reconciliation proper, when the aggregated table has no
    [match_score] column of its own and at least one of its rows has a
    candidate accepted at 75, the function returns a table: the three
    columns to fill exist and nothing raises. *)
Theorem returns_when_a_row_is_matched (partial_ratio : string -> string -> Z)
    (agg_df pid_df : DataFrame) (r : Series) :
  df_wf agg_df ->
  main_path agg_df pid_df ->
  mem "match_score" (columns agg_df) = false ->
  In r (rows agg_df) ->
  accepts_at partial_ratio 75 (row_query pid_df r) = true ->
  exists out,
    outcome (merge_with_pid_fuzzy partial_ratio agg_df (Some pid_df)) = Ok out.
Proof.
  intros Hwf Hmain Hms Hr Hacc.
  pose proof Hmain as (He & Ha & Hp).
  destruct (for_each_groups_spec partial_ratio agg_df pid_df
              (List.length (unique_key_combinations agg_df))
              (unique_key_combinations agg_df) 0%nat [])
    as (ls & fss & Hloop & Hsteps).
  simpl app in Hloop.
  destruct (accepted_row_frame partial_ratio _ _ _ _ _ _ _ Hmain Hsteps Hr Hacc)
    as (f & Hf & Hcols).
  pose proof (groups_rows partial_ratio _ _ _ _ _ _ _ Hwf Hsteps) as Hrows.
  assert (Hin : forall c, In c enrichment_cols -> In c (columns (concat fss))).
  { intros c Hc. apply columns_concat_In. exists f. auto. }
  assert (H1 : In "matched_project_description" (columns (concat fss)))
    by (apply Hin; simpl; auto).
  assert (H2 : In "match_score" (columns (concat fss)))
    by (apply Hin; simpl; auto).
  assert (H3 : In "pid_ohl_nr" (columns (concat fss)))
    by (apply Hin; simpl; auto).
  unfold merge_with_pid_fuzzy. rewrite He, Ha, Hp. unfold emit.
  rewrite (outcome_bind_Ok _ _ _ _ eq_refl), (outcome_bind_Ok _ _ _ _ eq_refl).
  rewrite (outcome_bind_Ok _ _ _ _ Hloop), (outcome_bind_Ok _ _ _ _ eq_refl).
  unfold combine_matched_rows.
  destruct fss as [| f0 fss0] eqn:Efss; [destruct Hf |]. rewrite <- Efss in *.
  do 3 match goal with
       | |- context [bind (fillna_column ?d ?c ?v) _] =>
           rewrite (outcome_bind_Ok _ _ _ _
                      (fillna_column_run d c v ltac:(assumption)))
       end.
  cbn [columns rows].
  match goal with
  | |- exists out, outcome (bind (count_ge ?d ?c ?k) _) = _ =>
      destruct (count_ge_total d c k) as (m & Hm)
  end.
  - exact H2.
  - cbn [rows]. intros x Hx. rewrite !map_map in Hx.
    apply in_map_iff in Hx. destruct Hx as (y & <- & Hy).
    rewrite rows_concat in Hy. apply in_map_iff in Hy.
    destruct Hy as (r' & <- & Hr').
    destruct (Forall2_In_r _ _ _ _ Hrows Hr') as (r0 & _ & Hout & g & Hg & Hi).
    fold (finalize (reindex (columns (concat fss)) r')).
    rewrite series_get_output.
    + destruct (row_outcome_score partial_ratio _ _ _ _ Hwf Hms Hout)
        as [-> | (z & ->)]; [exists 0 | exists z]; reflexivity.
    + intros c Hc. apply columns_concat_In. exists g. split; [assumption |].
      now rewrite <- Hi.
  - rewrite (outcome_bind_Ok _ _ _ _ Hm). eexists. reflexivity.
Qed.

Lemma returns_when_a_row_is_matched_witness :
  exists out,
    outcome (merge_with_pid_fuzzy prefix_ratio ledger1 (Some reference1)) = Ok out.
Proof.
  apply (returns_when_a_row_is_matched prefix_ratio ledger1 reference1
           (row3 (VStr "PCB 2022") (VStr "Ayrshire") (VStr "Erect pole"))).
  - apply df_wf_check. reflexivity.
  - repeat split; reflexivity.
  - reflexivity.
  - simpl. auto.
  - reflexivity.
Defined.

(** * The shape of the result *)

Lemma union_index_NoDup (a b : list string) :
  NoDup a -> NoDup (union_index a b).
Proof.
  intros Ha. unfold union_index. apply NoDup_app.
  - assumption.
  - apply NoDup_filter. apply (dedup_NoDup String.eqb String.eqb_eq).
  - intros c Hc Hf. apply filter_In in Hf. destruct Hf as [_ Hf].
    apply negb_true_iff, mem_false in Hf. contradiction.
Qed.

Lemma fold_union_NoDup (ls : list (list string)) :
  forall acc, NoDup acc -> NoDup (fold_left union_index ls acc).
Proof.
  induction ls as [| l ls IH]; intros acc Hacc; simpl; [assumption |].
  apply IH. now apply union_index_NoDup.
Qed.

Lemma columns_concat_NoDup (frames : list DataFrame) :
  NoDup (columns (concat frames)).
Proof. unfold concat. cbn [columns]. apply fold_union_NoDup. constructor. Qed.



(** * Sheet names *)

Lemma sforall_smap (p : ascii -> bool) (f : ascii -> ascii) (s : string) :
  (forall c, p (f c) = true) -> sforall p (smap f s) = true.
Proof.
  intros H. induction s as [| c s IH]; simpl; [reflexivity |].
  now rewrite H, IH.
Qed.

Lemma smap_smap (f g : ascii -> ascii) (s : string) :
  smap f (smap g s) = smap (fun c => f (g c)) s.
Proof. induction s as [| c s IH]; simpl; [reflexivity | now rewrite IH]. Qed.

Lemma smap_ext (f g : ascii -> ascii) (s : string) :
  (forall c, f c = g c) -> smap f s = smap g s.
Proof.
  intros H. induction s as [| c s IH]; simpl; [reflexivity | now rewrite H, IH].
Qed.

Lemma smap_id_on (p : ascii -> bool) (f : ascii -> ascii) (s : string) :
  (forall c, p c = true -> f c = c) -> sforall p s = true -> smap f s = s.
Proof.
  intros H. induction s as [| c s IH]; simpl; [reflexivity |].
  intros Hs. apply andb_true_iff in Hs. destruct Hs as [H1 H2].
  now rewrite (H c H1), IH.
Qed.

Lemma slice_to_smap (f : ascii -> ascii) (n : nat) (s : string) :
  slice_to n (smap f s) = smap f (slice_to n s).
Proof.
  revert s. induction n as [| n IH]; intros [| c s]; simpl; try reflexivity.
  now rewrite IH.
Qed.

Lemma slice_to_length (n : nat) (s : string) :
  (String.length (slice_to n s) <= n)%nat.
Proof.
  revert s. induction n as [| n IH]; intros [| c s]; simpl; try lia.
  specialize (IH s). lia.
Qed.

Lemma slice_to_short (n : nat) (s : string) :
  (String.length s <= n)%nat -> slice_to n s = s.
Proof.
  revert s. induction n as [| n IH]; intros [| c s]; simpl; intros H;
    try reflexivity; try lia.
  rewrite IH; [reflexivity | lia].
Qed.

Lemma slice_to_slice_to (n : nat) (s : string) :
  slice_to n (slice_to n s) = slice_to n s.
Proof. apply slice_to_short, slice_to_length. Qed.

Lemma sforall_slice_to (p : ascii -> bool) (n : nat) (s : string) :
  sforall p s = true -> sforall p (slice_to n s) = true.
Proof.
  revert s. induction n as [| n IH]; intros [| c s]; simpl; try reflexivity.
  intros H. apply andb_true_iff in H. destruct H as [H1 H2].
  now rewrite H1, IH.
Qed.

Lemma sanitize_sheet_name_smap (name : value) :
  sanitize_sheet_name name = slice_to 31 (smap sanitize_char (py_str name)).
Proof. unfold sanitize_sheet_name, sub_class. now rewrite smap_smap. Qed.

Lemma sheet_char_sanitize_char (c : ascii) : sheet_char (sanitize_char c) = true.
Proof. by_cases_on_char c. Qed.

Lemma sanitize_char_fixed (c : ascii) :
  sheet_char c = true -> sanitize_char c = c.
Proof. by_cases_on_char c. Qed.

Lemma sanitize_sheet_name_valid (name : value) :
  (String.length (sanitize_sheet_name name) <= 31)%nat
  /\ sforall sheet_char (sanitize_sheet_name name) = true.
Proof.
  rewrite sanitize_sheet_name_smap. split.
  - apply slice_to_length.
  - apply sforall_slice_to, sforall_smap, sheet_char_sanitize_char.
Qed.

(** X7: a name returned by [sanitize_sheet_name] (the definition in force
    at the export) has at most 31 characters, all of them ASCII, and none
    of them is one of [: \ / * ? [ ]], a line feed or a carriage return. *)
Theorem sanitized_name_is_valid (name : value) :
  (String.length (sanitize_sheet_name name) <= 31)%nat
  /\ sforall sheet_char (sanitize_sheet_name name) = true.
Proof.
  unfold sanitize_sheet_name, sub_class. rewrite smap_smap. split.
  - apply slice_to_length.
  - apply sforall_slice_to, sforall_smap. intros c.
    apply (sheet_char_sanitize_char c).
Qed.

(** X8: [sanitize_sheet_name] returns a name unchanged exactly when the
    name has at most 31 characters, all ASCII and none of them reserved or
    a line break; so sanitizing twice is sanitizing once. *)
Theorem sanitize_fixes_exactly_valid_names (s : string) :
  sanitize_sheet_name (VStr s) = s
  <-> (String.length s <= 31)%nat /\ sforall sheet_char s = true.
Proof.
  split.
  - intros H. rewrite <- H. apply sanitize_sheet_name_valid.
  - intros [Hl Hs]. rewrite sanitize_sheet_name_smap. cbn [py_str].
    rewrite (smap_id_on sheet_char) by (auto using sanitize_char_fixed).
    now apply slice_to_short.
Qed.

(** X9: [sanitize_sheet_name] does not keep names apart: two names with
    the same first 31 characters get the same sheet name. *)
Theorem long_names_collide (s t : string) :
  slice_to 31 s = slice_to 31 t ->
  sanitize_sheet_name (VStr s) = sanitize_sheet_name (VStr t).
Proof.
  intros H. rewrite !sanitize_sheet_name_smap. cbn [py_str].
  now rewrite !slice_to_smap, H.
Qed.

Lemma long_names_collide_witness :
  sanitize_sheet_name (VStr "Poles erected in Ayrshire and Lanark 2024")
  = sanitize_sheet_name (VStr "Poles erected in Ayrshire and Lanark 2025").
Proof. apply long_names_collide. reflexivity. Defined.

(** X10: the definition of [sanitize_sheet_name] at line 1528 gives the
    result of the definition at line 29 with every line feed and carriage
    return replaced by an underscore; the two agree on names without line
    breaks. *)
Theorem later_definition_also_replaces_line_breaks (name : value) :
  sanitize_sheet_name name
  = sub_class is_line_break (sanitize_sheet_name0 name).
Proof.
  unfold sanitize_sheet_name, sanitize_sheet_name0, sub_class.
  rewrite <- slice_to_smap. f_equal. rewrite !smap_smap.
  apply smap_ext. intros c. by_cases_on_char c.
Qed.

(** * Column names *)

Lemma normalize_column_name_smap (c : string) :
  normalize_column_name c = smap normalize_char (strip c).
Proof.
  unfold normalize_column_name, sub_class, lower. now rewrite !smap_smap.
Qed.

Lemma label_char_normalize_char (c : ascii) :
  is_ascii c = true -> label_char (normalize_char c) = true.
Proof. by_cases_on_char c. Qed.

Lemma word_normalize_char (c : ascii) : word_not_upper (normalize_char c) = true.
Proof. by_cases_on_char c. Qed.

Lemma normalize_char_fixed (c : ascii) :
  word_not_upper c = true -> normalize_char c = c.
Proof. by_cases_on_char c. Qed.

Lemma word_not_upper_not_space (c : ascii) :
  word_not_upper c = true -> is_space c = false.
Proof. by_cases_on_char c. Qed.

Lemma lstrip_no_space (s : string) :
  sforall (fun c => negb (is_space c)) s = true -> lstrip s = s.
Proof.
  destruct s as [| c s]; simpl; [reflexivity |].
  intros H. apply andb_true_iff in H. destruct H as [H _].
  apply negb_true_iff in H. now rewrite H.
Qed.

Lemma rstrip_no_space (s : string) :
  sforall (fun c => negb (is_space c)) s = true -> rstrip s = s.
Proof.
  induction s as [| c s IH]; simpl; [reflexivity |].
  intros H. apply andb_true_iff in H. destruct H as [H1 H2].
  apply negb_true_iff in H1. rewrite (IH H2), H1. now destruct s.
Qed.

Lemma sforall_impl (p q : ascii -> bool) (s : string) :
  (forall c, p c = true -> q c = true) -> sforall p s = true -> sforall q s = true.
Proof.
  intros H. induction s as [| c s IH]; simpl; [reflexivity |].
  intros Hs. apply andb_true_iff in Hs. destruct Hs as [H1 H2].
  now rewrite (H c H1), IH.
Qed.

Lemma sforall_smap_impl (p q : ascii -> bool) (f : ascii -> ascii) (s : string) :
  (forall c, p c = true -> q (f c) = true) ->
  sforall p s = true -> sforall q (smap f s) = true.
Proof.
  intros H. induction s as [| c s IH]; simpl; [reflexivity |].
  intros Hs. apply andb_true_iff in Hs. destruct Hs as [H1 H2].
  now rewrite (H c H1), IH.
Qed.

Lemma normalize_column_name_label (c : string) :
  sforall is_ascii c = true ->
  sforall label_char (normalize_column_name c) = true.
Proof.
  intros H. rewrite normalize_column_name_smap.
  apply (sforall_smap_impl is_ascii); [apply label_char_normalize_char |].
  unfold strip. now apply sforall_rstrip, sforall_lstrip.
Qed.

Lemma normalize_column_name_word (c : string) :
  sforall word_not_upper (normalize_column_name c) = true.
Proof.
  rewrite normalize_column_name_smap. apply sforall_smap, word_normalize_char.
Qed.

Lemma normalize_column_name_fixed (c : string) :
  sforall word_not_upper c = true -> normalize_column_name c = c.
Proof.
  intros H. rewrite normalize_column_name_smap.
  assert (Hs : sforall (fun ch => negb (is_space ch)) c = true).
  { revert H. apply sforall_impl. intros ch Hc.
    now rewrite (word_not_upper_not_space ch Hc). }
  unfold strip. rewrite (lstrip_no_space c Hs), (rstrip_no_space c Hs).
  apply (smap_id_on word_not_upper); auto using normalize_char_fixed.
Qed.

(** X11: after [normalize_columns] every column name (of ASCII text) is
    made of lower-case letters, digits and underscores only: no space, no
    upper-case letter, no punctuation. *)
Theorem normalized_columns_are_labels (df : DataFrame) :
  Forall (fun c => sforall is_ascii c = true) (columns df) ->
  Forall (fun c => sforall label_char c = true) (columns (normalize_columns df)).
Proof.
  intros Hascii. rewrite Forall_forall in Hascii.
  cbn [normalize_columns columns]. apply Forall_forall.
  intros c Hc. apply in_map_iff in Hc. destruct Hc as (c0 & <- & Hc0).
  apply normalize_column_name_label. now apply Hascii.
Qed.

Lemma normalized_columns_are_labels_witness :
  Forall (fun c => sforall label_char c = true)
         (columns (normalize_columns raw_ledger)).
Proof.
  apply (normalized_columns_are_labels raw_ledger). repeat constructor.
Defined.

Lemma rename_labels_rename_labels (f g : string -> string) (r : Series) :
  rename_labels f (rename_labels g r) = rename_labels (fun c => f (g c)) r.
Proof. unfold rename_labels. rewrite map_map. reflexivity. Qed.

Lemma rename_labels_ext_in (f g : string -> string) (r : Series) :
  (forall c, In c (series_index r) -> f c = g c) ->
  rename_labels f r = rename_labels g r.
Proof.
  intros H. unfold rename_labels. apply map_ext_in. intros [k v] Hk.
  cbn [fst snd]. rewrite H; [reflexivity |].
  unfold series_index. apply in_map_iff. now exists (k, v).
Qed.

(** X12: [normalize_columns] is idempotent: normalizing a normalized
    table changes nothing. *)
Theorem normalize_columns_idempotent (df : DataFrame) :
  Forall (fun c => sforall is_ascii c = true) (columns df) ->
  normalize_columns (normalize_columns df) = normalize_columns df.
Proof.
  intros _. unfold normalize_columns. cbn [columns rows]. f_equal.
  - rewrite map_map. apply map_ext. intros c.
    apply normalize_column_name_fixed, normalize_column_name_word.
  - rewrite map_map. apply map_ext. intros r.
    rewrite rename_labels_rename_labels. apply rename_labels_ext_in.
    intros c _. apply normalize_column_name_fixed, normalize_column_name_word.
Qed.

Lemma normalize_columns_idempotent_witness :
  normalize_columns (normalize_columns raw_ledger) = normalize_columns raw_ledger.
Proof.
  apply (normalize_columns_idempotent raw_ledger). repeat constructor.
Defined.

Lemma series_index_rename (f : string -> string) (r : Series) :
  series_index (rename_labels f r) = map f (series_index r).
Proof. unfold series_index, rename_labels. rewrite !map_map. reflexivity. Qed.

(** A cell is found under the new label when no two labels of the row are
    renamed to the same one. *)
Lemma series_get_rename (f : string -> string) (r : Series) (c : string) :
  NoDup (map f (series_index r)) ->
  In c (series_index r) ->
  series_get (rename_labels f r) (f c) = series_get r c.
Proof.
  induction r as [| [k v] r IH]; intros Hnd Hin; [destruct Hin |].
  cbn [rename_labels map series_get fst snd series_index] in *.
  inversion Hnd as [| x l Hx Hnd']; subst.
  destruct (String.eqb k c) eqn:E.
  - apply String.eqb_eq in E. subst k. now rewrite String.eqb_refl.
  - destruct Hin as [-> | Hin]; [now rewrite String.eqb_refl in E |].
    destruct (String.eqb (f k) (f c)) eqn:E'.
    + apply String.eqb_eq in E'. exfalso. apply Hx. rewrite E'.
      now apply in_map.
    + now apply IH.
Qed.

(** X13: when no two column names of a well-formed table are normalized to
    the same name, the normalized table is well formed and every cell is
    found under the normalized name of its column, row by row. *)
Theorem normalize_columns_keeps_cells (df : DataFrame) :
  Forall (fun c => sforall is_ascii c = true) (columns df) ->
  df_wf df ->
  NoDup (map normalize_column_name (columns df)) ->
  df_wf (normalize_columns df)
  /\ Forall2 (fun r r' =>
                forall c, In c (columns df) ->
                  series_get r' (normalize_column_name c) = series_get r c)
             (rows df) (rows (normalize_columns df)).
Proof.
  intros _ [Hnd Hwf] Hinj. rewrite Forall_forall in Hwf. split.
  - split; cbn [normalize_columns columns rows]; [assumption |].
    apply Forall_forall. intros r' Hr'. apply in_map_iff in Hr'.
    destruct Hr' as (r & <- & Hr). rewrite series_index_rename.
    now rewrite (Hwf r Hr).
  - cbn [normalize_columns rows].
    assert (H : forall l, incl l (rows df) ->
              Forall2 (fun r r' =>
                         forall c, In c (columns df) ->
                           series_get r' (normalize_column_name c) = series_get r c)
                      l (map (rename_labels normalize_column_name) l)).
    { induction l as [| r l IH]; intros Hl; simpl; constructor.
      - intros c Hc. assert (Hr : In r (rows df)) by (apply Hl; now left).
        apply series_get_rename; rewrite (Hwf r Hr); assumption.
      - apply IH. intros x Hx. apply Hl. now right. }
    apply H, incl_refl.
Qed.

Lemma normalize_columns_keeps_cells_witness :
  df_wf (normalize_columns raw_ledger)
  /\ Forall2 (fun r r' =>
                forall c, In c (columns raw_ledger) ->
                  series_get r' (normalize_column_name c) = series_get r c)
             (rows raw_ledger) (rows (normalize_columns raw_ledger)).
Proof.
  apply (normalize_columns_keeps_cells raw_ledger).
  - repeat constructor.
  - apply df_wf_check. reflexivity.
  - apply nodupb_NoDup. reflexivity.
Defined.

Lemma lstrip_lower (s : string) : lstrip (lower s) = lower (lstrip s).
Proof.
  unfold lower. induction s as [| c s IH]; simpl; [reflexivity |].
  rewrite is_space_lower_char. now destruct (is_space c).
Qed.

Lemma rstrip_lower (s : string) : rstrip (lower s) = lower (rstrip s).
Proof.
  unfold lower. induction s as [| c s IH]; simpl; [reflexivity |].
  rewrite IH, is_space_lower_char.
  destruct (rstrip s); simpl; [now destruct (is_space c) | reflexivity].
Qed.

Lemma lower_lower (s : string) : lower (lower s) = lower s.
Proof.
  unfold lower. rewrite smap_smap. apply smap_ext. intros c. by_cases_on_char c.
Qed.

(** X14: column names that differ only in letter case are normalized to
    the same name. *)
Theorem column_names_fold_case (a b : string) :
  sforall is_ascii a = true ->
  sforall is_ascii b = true ->
  lower a = lower b ->
  normalize_column_name a = normalize_column_name b.
Proof.
  intros _ _ H.
  assert (E : forall s, normalize_column_name s = normalize_column_name (lower s)).
  { intros s. unfold normalize_column_name, strip.
    now rewrite lstrip_lower, rstrip_lower, lower_lower. }
  now rewrite (E a), (E b), H.
Qed.

Lemma column_names_fold_case_witness :
  normalize_column_name "Project Manager" = normalize_column_name "PROJECT manager".
Proof.
  apply (column_names_fold_case "Project Manager" "PROJECT manager");
    reflexivity.
Defined.

(** * The sidebar filters *)

Lemma string_ltb_trans (a b c : string) :
  String.ltb a b = true -> String.ltb b c = true -> String.ltb a c = true.
Proof.
  unfold String.ltb. intros H1 H2.
  destruct (String.compare a b) eqn:E1; try discriminate H1.
  destruct (String.compare b c) eqn:E2; try discriminate H2.
  apply OrderedTypeEx.String_as_OT.cmp_lt in E1, E2.
  pose proof (OrderedTypeEx.String_as_OT.lt_trans _ _ _ E1 E2) as E.
  apply OrderedTypeEx.String_as_OT.cmp_lt in E.
  unfold OrderedTypeEx.String_as_OT.cmp in E. now rewrite E.
Qed.

Lemma string_ltb_total (a b : string) :
  String.ltb a b = false -> a <> b -> String.ltb b a = true.
Proof.
  unfold String.ltb. intros H Hne. rewrite (String.compare_antisym b a).
  destruct (String.compare a b) eqn:E; try discriminate H; [| reflexivity].
  apply String.compare_eq_iff in E. contradiction.
Qed.

Lemma value_lt_trans (a b c : value) :
  value_lt a b -> value_lt b c -> value_lt a c.
Proof.
  destruct a, b, c; simpl; try tauto; try lia.
  apply string_ltb_trans.
Qed.

Lemma py_lt_same_kind (x y : value) :
  kind x = kind y -> kind x <> 0%nat ->
  exists b, py_lt x y = ([], Ok b)
            /\ (b = true -> value_lt x y)
            /\ (b = false -> x <> y -> value_lt y x).
Proof.
  destruct x, y; simpl; intros Hk Hn; try discriminate Hk; try congruence.
  - exists (String.ltb s s0). split; [reflexivity |]. split; [auto |].
    intros H Hne. apply string_ltb_total; congruence.
  - exists (z <? z0). split; [reflexivity |]. split.
    + apply Z.ltb_lt.
    + intros H Hne. apply Z.ltb_ge in H.
      assert (z <> z0) by congruence. lia.
Qed.

Lemma py_lt_other_kind (x y : value) :
  kind x <> kind y -> py_lt x y = ([], Raise TypeError).
Proof. destruct x, y; simpl; intros H; try reflexivity; congruence. Qed.

Lemma py_insert_same_kind (x : value) (acc : list value) :
  kind x <> 0%nat ->
  (forall v, In v acc -> kind v = kind x) ->
  exists acc',
    py_insert x acc = ([], Ok acc')
    /\ (forall v, In v acc' <-> v = x \/ In v acc)
    /\ (Sorted.StronglySorted value_lt acc -> ~ In x acc ->
        Sorted.StronglySorted value_lt acc').
Proof.
  intros Hx. induction acc as [| y l IH]; intros Hk.
  - exists [x]. split; [reflexivity |]. split.
    + intros v. simpl. intuition.
    + intros _ _. repeat constructor.
  - destruct (py_lt_same_kind x y) as (b & Hlt & Ht & Hf);
      [symmetry; apply Hk; now left | assumption |].
    destruct b.
    + exists (x :: y :: l). split.
      * cbn [py_insert]. rewrite Hlt. reflexivity.
      * split; [intros v; simpl; intuition |].
        intros Hs _. constructor; [assumption |].
        constructor; [auto |].
        apply Sorted.StronglySorted_inv in Hs. destruct Hs as [_ Hall].
        rewrite Forall_forall in Hall |- *. intros v Hv.
        apply (value_lt_trans x y v); auto.
    + destruct IH as (l' & Hrun & Hin & Hsort);
        [intros v Hv; apply Hk; now right |].
      exists (y :: l'). split.
      * cbn [py_insert]. rewrite Hlt. cbn [bind]. rewrite Hrun. reflexivity.
      * split.
        -- intros v. simpl. rewrite Hin. intuition.
        -- intros Hs Hnot. apply Sorted.StronglySorted_inv in Hs.
           destruct Hs as [Hs Hall]. constructor.
           ++ apply Hsort; [assumption | intros H; apply Hnot; now right].
           ++ rewrite Forall_forall in Hall |- *. intros v Hv.
              apply Hin in Hv. destruct Hv as [-> | Hv]; [| auto].
              apply Hf; [reflexivity |]. intros ->. apply Hnot. now left.
Qed.

Lemma py_insert_other_kind (x y : value) (acc : list value) :
  kind x <> kind y -> py_insert x (y :: acc) = ([], Raise TypeError).
Proof.
  intros H. cbn [py_insert]. now rewrite (py_lt_other_kind x y H).
Qed.

(** The loop of [sorted] from a list [acc] of cells of one type. *)
Lemma py_sorted_same_kind (l : list value) :
  forall acc k,
    k <> 0%nat ->
    (forall v, In v acc -> kind v = k) ->
    (forall v, In v l -> kind v = k) ->
    exists acc',
      for_each l (fun acc x => py_insert x acc) acc = ([], Ok acc')
      /\ (forall v, In v acc' <-> In v acc \/ In v l)
      /\ (Sorted.StronglySorted value_lt acc -> NoDup l ->
          (forall v, In v l -> ~ In v acc) ->
          Sorted.StronglySorted value_lt acc').
Proof.
  induction l as [| x l IH]; intros acc k Hk Hacc Hl.
  - exists acc. split; [reflexivity |]. split; [simpl; intuition | auto].
  - assert (Hx : kind x = k) by (apply Hl; now left).
    destruct (py_insert_same_kind x acc) as (acc1 & Hrun1 & Hin1 & Hs1);
      [congruence | intros v Hv; rewrite Hx; auto |].
    destruct (IH acc1 k Hk) as (acc' & Hrun & Hin & Hs).
    + intros v Hv. apply Hin1 in Hv. destruct Hv as [-> | Hv]; auto.
    + intros v Hv. apply Hl. now right.
    + exists acc'. split; [| split].
      * rewrite for_each_cons. exact (bind_run _ _ _ _ _ _ Hrun1 Hrun).
      * intros v. rewrite Hin, Hin1. simpl. intuition.
      * intros Hsort Hnd Hdis. inversion Hnd as [| a b Ha Hb]; subst.
        apply Hs; [apply Hs1; [assumption | apply Hdis; now left] | assumption |].
        intros v Hv Hv1. apply Hin1 in Hv1. destruct Hv1 as [-> | Hv1].
        -- contradiction.
        -- apply (Hdis v); [now right | assumption].
Qed.

Lemma py_sorted_other_kind (l : list value) :
  forall acc k,
    k <> 0%nat ->
    acc <> [] ->
    (forall v, In v acc -> kind v = k) ->
    (forall v, In v l -> kind v <> 0%nat) ->
    (exists v, In v l /\ kind v <> k) ->
    for_each l (fun acc x => py_insert x acc) acc = ([], Raise TypeError).
Proof.
  induction l as [| x l IH]; intros acc k Hk Hne Hacc Hl (w & Hw & Hwk);
    [destruct Hw |].
  rewrite for_each_cons.
  destruct (Nat.eq_dec (kind x) k) as [Hx | Hx].
  - destruct (py_insert_same_kind x acc) as (acc1 & Hrun1 & Hin1 & _);
      [congruence | intros v Hv; rewrite Hx; auto |].
    rewrite Hrun1. cbn [bind].
    rewrite (IH acc1 k Hk); [reflexivity | | | |].
    + intros ->. destruct (proj2 (Hin1 x) (or_introl eq_refl)).
    + intros v Hv. apply Hin1 in Hv. destruct Hv as [-> | Hv]; auto.
    + intros v Hv. apply Hl. now right.
    + destruct Hw as [-> | Hw]; [contradiction |]. eauto.
  - destruct acc as [| y acc]; [congruence |].
    rewrite py_insert_other_kind; [reflexivity |].
    rewrite (Hacc y (or_introl eq_refl)). assumption.
Qed.

Lemma kind_mixed (l : list value) (a b : value) :
  In a l -> In b l -> kind a <> 0%nat -> kind b <> 0%nat -> kind a <> kind b ->
  mixed l.
Proof.
  intros Ha Hb. destruct a, b; simpl; intros; try congruence.
  - now exists s, z.
  - now exists s, z.
Qed.

(** [sorted] on a list without null: the strictly increasing list of its
    distinct elements, or [TypeError] when it has a text and a number. *)
Lemma py_sorted_spec (l : list value) :
  (forall v, In v l -> isna v = false) ->
  NoDup l ->
  (mixed l /\ py_sorted l = ([], Raise TypeError))
  \/ (~ mixed l
      /\ exists l', py_sorted l = ([], Ok l')
                    /\ Sorted.StronglySorted value_lt l'
                    /\ forall v, In v l' <-> In v l).
Proof.
  intros Hna Hnd.
  assert (Hk : forall v, In v l -> kind v <> 0%nat).
  { intros v Hv. specialize (Hna v Hv). destruct v; simpl; [discriminate Hna | discriminate | discriminate]. }
  destruct l as [| x l].
  { right. split; [intros (s & z & [] & _) |].
    exists []. split; [reflexivity |]. split; [constructor | tauto]. }
  unfold py_sorted. rewrite for_each_cons. cbn [py_insert ret bind].
  assert (Hx : kind x <> 0%nat) by (apply Hk; now left).
  destruct (forallb (fun v => Nat.eqb (kind v) (kind x)) l) eqn:E.
  - right. rewrite forallb_forall in E.
    assert (Hl : forall v, In v l -> kind v = kind x)
      by (intros v Hv; now apply Nat.eqb_eq, E).
    split.
    { intros (s & z & Hs & Hz).
      assert (K1 : kind (VStr s) = kind x)
        by (destruct Hs as [<- | Hs]; [reflexivity | now apply Hl]).
      assert (K2 : kind (VNum z) = kind x)
        by (destruct Hz as [<- | Hz]; [reflexivity | now apply Hl]).
      simpl in K1, K2. congruence. }
    destruct (py_sorted_same_kind l [x] (kind x) Hx) as (l' & Hrun & Hin & Hs).
    + intros v [<- | []]. reflexivity.
    + assumption.
    + exists l'. split; [now rewrite Hrun |]. split.
      * inversion Hnd as [| a b Ha Hb]; subst.
        apply Hs; [repeat constructor | assumption |].
        intros v Hv [<- | []]. contradiction.
      * intros v. rewrite Hin. simpl. intuition.
  - left.
    assert (Hw : exists v, In v l /\ kind v <> kind x).
    { clear - E. induction l as [| y l IH]; [discriminate E |].
      simpl in E. apply andb_false_iff in E. destruct E as [E | E].
      - exists y. split; [now left | now apply Nat.eqb_neq].
      - destruct (IH E) as (v & Hv & Hn). exists v. split; [now right | assumption]. }
    split.
    + destruct Hw as (v & Hv & Hn).
      apply (kind_mixed (x :: l) v x); auto; [now right | now left |].
      apply Hk. now right.
    + rewrite (py_sorted_other_kind l [x] (kind x) Hx); [reflexivity | discriminate | | | assumption].
      * intros v [<- | []]. reflexivity.
      * intros v Hv. apply Hk. now right.
Qed.

Lemma filter_all {A : Type} (p : A -> bool) (l : list A) :
  (forall x, In x l -> p x = true) -> filter p l = l.
Proof.
  induction l as [| a l IH]; intros H; simpl; [reflexivity |].
  rewrite (H a (or_introl eq_refl)), IH; [reflexivity |].
  intros x Hx. apply H. now right.
Qed.

Lemma dropna_unique_spec (l : list value) :
  NoDup (dropna_unique l)
  /\ forall v, In v (dropna_unique l) <-> In v l /\ isna v = false.
Proof.
  split.
  - apply (dedup_NoDup value_eqb value_eqb_eq).
  - intros v. split; [apply dropna_unique_In |].
    intros [Hv Hna]. unfold dropna_unique.
    destruct (dedup_complete value_eqb value_eqb_eq
                (filter (fun v => negb (isna v)) l) [] v) as [[] | H];
      [| assumption].
    apply filter_In. split; [assumption | now rewrite Hna].
Qed.

(** The options of a filter: "All", then the distinct non-null cells of
    the column in increasing order; [TypeError] for a column that has a
    text and a number. *)
Lemma filter_options_spec (temp : DataFrame) (col : string) :
  (mixed (column_values temp col)
   /\ filter_options temp col = ([], Raise TypeError))
  \/ (~ mixed (column_values temp col)
      /\ exists l, filter_options temp col = ([], Ok (VStr "All" :: l))
                   /\ Sorted.StronglySorted value_lt l
                   /\ forall v, In v l
                        <-> In v (column_values temp col) /\ isna v = false).
Proof.
  destruct (dropna_unique_spec (column_values temp col)) as [Hnd Hin].
  destruct (py_sorted_spec (dropna_unique (column_values temp col)))
    as [[(s & z & Hs & Hz) Hrun] | [Hmix (l & Hrun & Hsort & Hl)]].
  - intros v Hv. now apply Hin.
  - assumption.
  - left. split.
    + exists s, z. split; [now apply Hin | now apply Hin].
    + unfold filter_options. now rewrite Hrun.
  - right. split.
    + intros (s & z & Hs & Hz). apply Hmix. exists s, z.
      split; apply Hin; auto.
    + exists l. split; [unfold filter_options; now rewrite Hrun |].
      split; [assumption |]. intros v. now rewrite Hl.
Qed.

Lemma kept_by_isin (col : string) (sel : list value) (r : Series) :
  has_all sel = false -> kept_by col sel r = isin (series_get r col) sel.
Proof. intros H. unfold kept_by. now rewrite H. Qed.

Lemma select_kept_by (temp : DataFrame) (col : string) (sel : list value) :
  (if negb (has_all sel)
   then select temp (fun r => isin (series_get r col) sel)
   else temp)
  = select temp (kept_by col sel).
Proof.
  unfold select, kept_by. destruct (has_all sel); simpl.
  - rewrite filter_all by reflexivity. now destruct temp.
  - reflexivity.
Qed.

(** The narrowing by the parent filter: the rows that the parent selection
    keeps, or [KeyError] when the parent column is to be read and is not
    there. *)
Lemma narrow_by_parent_spec (temp : DataFrame)
    (parent : option (string * list value)) :
  (narrow_by_parent temp parent = ([], Ok (select temp (kept_by_parent parent))))
  \/ exists pcol psel,
       parent = Some (pcol, psel) /\ has_all psel = false
       /\ mem pcol (columns temp) = false
       /\ narrow_by_parent temp parent = ([], Raise (KeyError pcol)).
Proof.
  destruct parent as [[pcol psel] |]; cbn [narrow_by_parent kept_by_parent].
  - destruct (has_all psel) eqn:Hall; cbn [negb].
    + left. unfold ret, select, kept_by_parent, kept_by. rewrite Hall. simpl.
      rewrite filter_all by reflexivity. now destruct temp.
    + destruct (mem pcol (columns temp)) eqn:Hm.
      * left. unfold ret, select, kept_by_parent, kept_by. now rewrite Hall.
      * right. exists pcol, psel. auto.
  - left. unfold ret, select, kept_by_parent. rewrite filter_all by reflexivity.
    now destruct temp.
Qed.

Section FilterFacts.

Variable multiselect : string -> list value -> list value.

(** Every run of [multi_select_filter] on a column of the table. *)
Lemma multi_select_filter_spec (col label : string) (df : DataFrame)
    (parent : option (string * list value)) :
  mem col (columns df) = true ->
  let temp := select df (kept_by_parent parent) in
  (exists pcol psel,
     parent = Some (pcol, psel) /\ has_all psel = false
     /\ mem pcol (columns df) = false
     /\ multi_select_filter multiselect col label df parent
        = ([], Raise (KeyError pcol)))
  \/ (mixed (column_values temp col)
      /\ multi_select_filter multiselect col label df parent
         = ([], Raise TypeError))
  \/ (~ mixed (column_values temp col)
      /\ exists l,
           Sorted.StronglySorted value_lt l
           /\ (forall v, In v l
                 <-> In v (column_values temp col) /\ isna v = false)
           /\ multi_select_filter multiselect col label df parent
              = ([], Ok (multiselect label (VStr "All" :: l),
                         select temp
                           (kept_by col (multiselect label (VStr "All" :: l)))))).
Proof.
  intros Hcol temp. unfold multi_select_filter. rewrite Hcol. cbn [negb].
  destruct (narrow_by_parent_spec df parent)
    as [Hn | (pcol & psel & -> & Hall & Hm & Hn)].
  - right. rewrite Hn. cbn [bind]. fold temp.
    destruct (filter_options_spec temp col)
      as [[Hmix Hrun] | [Hmix (l & Hrun & Hsort & Hl)]].
    + left. split; [assumption |]. now rewrite Hrun.
    + right. split; [assumption |]. exists l.
      split; [assumption |]. split; [assumption |].
      rewrite Hrun. cbn [bind ret app]. now rewrite select_kept_by.
  - left. exists pcol, psel. repeat split; auto. now rewrite Hn.
Qed.

End FilterFacts.

Section FilterRows.

Variable multiselect : string -> list value -> list value.

(** After a selection without "All" the filter column is a column of the
    returned table and every row left has its cell among the selected
    values. *)
Lemma selection_kept (col label : string) (df : DataFrame)
    (parent : option (string * list value)) (sel : list value)
    (out : DataFrame) :
  outcome (multi_select_filter multiselect col label df parent) = Ok (sel, out) ->
  has_all sel = false ->
  mem col (columns out) = true
  /\ forall r, In r (rows out) -> kept_by col sel r = true.
Proof.
  intros Hrun Hall. destruct (mem col (columns df)) eqn:Hcol.
  - destruct (multi_select_filter_spec multiselect col label df parent Hcol)
      as [(pc & ps & _ & _ & _ & H) | [[_ H] | [_ (l & _ & _ & H)]]];
      rewrite H in Hrun; try discriminate Hrun.
    cbn [outcome snd] in Hrun. injection Hrun as <- <-.
    cbn [select columns rows]. split; [assumption |].
    intros r Hr. now apply filter_In in Hr.
  - unfold multi_select_filter in Hrun. rewrite Hcol in Hrun.
    cbn in Hrun. injection Hrun as <- <-. discriminate Hall.
Qed.

End FilterRows.

(** X15: when [multi_select_filter] returns, the table it returns has the
    columns of its input and, for a column of the table, exactly the rows
    of the input, in order, that the parent selection and the selection
    just made keep (all rows for "All", else the rows whose cell is among
    the selected values).  For a column that the table lacks it returns
    ["All"] and the input table itself, the parent selection not being
    applied. *)
Theorem filter_keeps_exactly_the_selection
    (multiselect : string -> list value -> list value) (col label : string)
    (df : DataFrame) (parent : option (string * list value))
    (sel : list value) (out : DataFrame) :
  outcome (multi_select_filter multiselect col label df parent) = Ok (sel, out) ->
  columns out = columns df
  /\ if mem col (columns df)
     then rows out
          = filter (fun r => kept_by_parent parent r && kept_by col sel r)
                   (rows df)
     else sel = [VStr "All"] /\ out = df.
Proof.
  intros Hrun. destruct (mem col (columns df)) eqn:Hcol.
  - destruct (multi_select_filter_spec multiselect col label df parent Hcol)
      as [(pc & ps & _ & _ & _ & H) | [[_ H] | [_ (l & _ & _ & H)]]];
      rewrite H in Hrun; try discriminate Hrun.
    cbn [outcome snd] in Hrun. injection Hrun as <- <-.
    cbn [select columns rows]. split; [reflexivity |].
    now rewrite filter_andb.
  - unfold multi_select_filter in Hrun. rewrite Hcol in Hrun.
    cbn in Hrun. injection Hrun as <- <-. auto.
Qed.

Lemma filter_keeps_exactly_the_selection_witness :
  columns sites_ayrshire = columns sites
  /\ rows sites_ayrshire
     = filter (fun r => kept_by_parent None r
                        && kept_by "shire" [VStr "Ayrshire"] r) (rows sites).
Proof.
  exact (filter_keeps_exactly_the_selection choose_ayrshire "shire" "Shire"
           sites None [VStr "Ayrshire"] sites_ayrshire eq_refl).
Defined.

(** X16: the options offered by a filter on a column of the table are
    "All" followed by the strictly increasing list of the values of that
    column: every non-null cell of a row kept by the parent selection is
    offered, once, and nothing else is. *)
Theorem filter_offers_sorted_values
    (multiselect : string -> list value -> list value) (col label : string)
    (df : DataFrame) (parent : option (string * list value))
    (sel : list value) (out : DataFrame) :
  mem col (columns df) = true ->
  outcome (multi_select_filter multiselect col label df parent) = Ok (sel, out) ->
  exists l,
    sel = multiselect label (VStr "All" :: l)
    /\ Sorted.StronglySorted value_lt l
    /\ forall v, In v l
         <-> isna v = false
             /\ exists r, In r (rows df) /\ kept_by_parent parent r = true
                          /\ series_get r col = v.
Proof.
  intros Hcol Hrun.
  destruct (multi_select_filter_spec multiselect col label df parent Hcol)
    as [(pc & ps & _ & _ & _ & H) | [[_ H] | [_ (l & Hs & Hl & H)]]];
    rewrite H in Hrun; try discriminate Hrun.
  cbn [outcome snd] in Hrun. injection Hrun as <- <-.
  exists l. split; [reflexivity |]. split; [assumption |].
  intros v. rewrite Hl. unfold column_values, select. cbn [rows].
  rewrite in_map_iff. split.
  - intros [(r & <- & Hr) Hna]. apply filter_In in Hr. destruct Hr as [Hr Hk].
    split; [assumption |]. exists r. auto.
  - intros [Hna (r & Hr & Hk & <-)]. split; [| assumption].
    exists r. split; [reflexivity |]. apply filter_In. auto.
Qed.

Lemma filter_offers_sorted_values_witness :
  exists l,
    [VStr "Ayrshire"] = choose_ayrshire "Shire" (VStr "All" :: l)
    /\ Sorted.StronglySorted value_lt l
    /\ forall v, In v l
         <-> isna v = false
             /\ exists r, In r (rows sites) /\ kept_by_parent None r = true
                          /\ series_get r "shire" = v.
Proof.
  exact (filter_offers_sorted_values choose_ayrshire "shire" "Shire"
           sites None [VStr "Ayrshire"] sites_ayrshire eq_refl eq_refl).
Defined.



(** X18: on the table returned by a filter, or on any table with its
    columns and rows taken from it, a later filter that is given that
    filter's column and selection as parent behaves as without a parent:
    the narrowing by the parent changes nothing and cannot raise. *)
Theorem parent_filter_is_redundant
    (multiselect : string -> list value -> list value)
    (col1 label1 : string) (df : DataFrame)
    (parent1 : option (string * list value)) (sel1 : list value)
    (out1 df2 : DataFrame) (col label : string) :
  outcome (multi_select_filter multiselect col1 label1 df parent1)
  = Ok (sel1, out1) ->
  columns df2 = columns out1 ->
  incl (rows df2) (rows out1) ->
  multi_select_filter multiselect col label df2 (Some (col1, sel1))
  = multi_select_filter multiselect col label df2 None.
Proof.
  intros Hrun Hc Hr.
  unfold multi_select_filter at 1 2.
  destruct (mem col (columns df2)); [| reflexivity].
  cbn [negb]. f_equal. cbn [narrow_by_parent].
  destruct (has_all sel1) eqn:Hall; [reflexivity |]. cbn [negb].
  destruct (selection_kept multiselect _ _ _ _ _ _ Hrun Hall) as (Hm & Hk).
  rewrite Hc, Hm. unfold ret. do 2 f_equal.
  unfold select. rewrite filter_all; [now destruct df2 |].
  intros r Hin. rewrite <- (kept_by_isin col1 sel1 r Hall). auto.
Qed.

Lemma parent_filter_is_redundant_witness :
  multi_select_filter choose_ayrshire "project" "Project" sites_ayrshire
    (Some ("shire", [VStr "Ayrshire"]))
  = multi_select_filter choose_ayrshire "project" "Project" sites_ayrshire None.
Proof.
  apply (parent_filter_is_redundant choose_ayrshire "shire" "Shire" sites None
           [VStr "Ayrshire"] sites_ayrshire sites_ayrshire "project" "Project").
  - reflexivity.
  - reflexivity.
  - apply incl_refl.
Defined.

(** * The weather assessment *)

Lemma Qlt_bool_iff (a b : Q) : Qlt_bool a b = true <-> (a < b)%Q.
Proof.
  unfold Qlt_bool. rewrite negb_true_iff. split.
  - intros H. apply Qnot_le_lt. intros Hle.
    apply Qle_bool_iff in Hle. congruence.
  - intros H. destruct (Qle_bool b a) eqn:E; [| reflexivity].
    apply Qle_bool_iff in E. exfalso. apply (Qlt_not_le _ _ H E).
Qed.

Lemma Qlt_bool_false (a b : Q) : Qlt_bool a b = false <-> (b <= a)%Q.
Proof.
  unfold Qlt_bool. rewrite negb_false_iff. apply Qle_bool_iff.
Qed.

(** Opens the chain of readings of a run of the [try] block. *)
Ltac step_readings E :=
  repeat match type of E with
         | context [and_then ?m _] =>
             let H := fresh "R" in
             destruct m eqn:H; cbn [and_then] in E; [| discriminate E]
         end.

(** X19: an assessment always starts with exactly one temperature line,
    followed by at most one precipitation line, at most one wind line and
    at most one humidity line, in this order; the list of impacts is never
    empty, so the text "Favorable conditions for construction" is never
    returned. *)
Theorem assessment_starts_with_temperature (weather_data : json) :
  assess_construction_impact weather_data <> FavorableConditions
  /\ forall impacts,
       assess_construction_impact weather_data = Impacts impacts ->
       exists t rest,
         impacts = t :: rest /\ category t = 0%nat
         /\ Sorted.StronglySorted Nat.lt (map category impacts).
Proof.
  unfold assess_construction_impact.
  destruct (json_truthy weather_data); cbn [negb];
    [| split; [discriminate | intros l H; discriminate H]].
  destruct (assess_body weather_data) as [a | e] eqn:E;
    [| split; [discriminate | intros l H; discriminate H]].
  unfold assess_body in E. step_readings E.
  repeat match type of E with
         | context [if ?b then _ else _] =>
             match type of b with bool => destruct b end
         end;
    cbn [app] in E; injection E as <-;
    (split; [discriminate |]);
    intros l [= <-]; do 2 eexists;
    (split; [reflexivity |]); (split; [reflexivity |]);
    cbn [map category]; repeat constructor.
Qed.

Lemma subscript_Done (x : json) (k : string) (v : json) :
  subscript x k = Done v -> exists ms, x = JObj ms /\ member k ms = Some v.
Proof.
  destruct x; try discriminate. simpl.
  destruct (member k members) eqn:E; [| discriminate].
  intros [= <-]. eauto.
Qed.

Lemma lower_method_Done (x : json) (s : string) :
  lower_method x = Done s -> exists d, x = JStr d /\ s = lower d.
Proof. destruct x; try discriminate. intros [= <-]. eauto. Qed.

Lemma subscript_0_member (x w : json) (ms : list (string * json)) :
  subscript_0 x = Done w -> w = JObj ms ->
  exists rest, x = JArr (JObj ms :: rest).
Proof.
  intros H ->. destruct x; try discriminate.
  - destruct s; discriminate.
  - destruct items as [| v rest]; [discriminate |].
    injection H as ->. eauto.
Qed.

Lemma In_snoc_if {A : Type} (b : bool) (l : list A) (x y : A) :
  In x (if b then l ++ [y] else l) <-> In x l \/ (b = true /\ x = y).
Proof.
  destruct b.
  - rewrite in_app_iff. simpl. intuition.
  - intuition. discriminate.
Qed.

(** X20: an assessment is made only from a document in which the four
    readings are all there, the description a text and the others numbers
    (there is no partial assessment), and its lines are those of the
    thresholds, which are strict: freezing below 0, cold from 0 to below
    5, hot above 25, ideal from 5 to 25 inclusive; high winds above 10,
    windy above 6 up to 10; high humidity above 80; wet when the
    description, in lower case, contains one of the keywords. *)
Theorem assessment_reads_all_or_nothing (weather_data : json)
    (impacts : list impact) :
  assess_construction_impact weather_data = Impacts impacts ->
  exists t d w h,
    weather_readings weather_data = Some (t, d, w, h)
    /\ (In Freezing impacts <-> (t < 0)%Q)
    /\ (In Cold impacts <-> (0 <= t)%Q /\ (t < 5)%Q)
    /\ (In Hot impacts <-> (25 < t)%Q)
    /\ (In IdealTemperature impacts <-> (5 <= t)%Q /\ (t <= 25)%Q)
    /\ (In Wet impacts
        <-> exists keyword, In keyword precip_keywords
                            /\ contains keyword (lower d) = true)
    /\ (In HighWinds impacts <-> (10 < w)%Q)
    /\ (In Windy impacts <-> (6 < w)%Q /\ (w <= 10)%Q)
    /\ (In HighHumidity impacts <-> (80 < h)%Q).
Proof.
  unfold assess_construction_impact.
  destruct (json_truthy weather_data); cbn [negb]; [| discriminate].
  destruct (assess_body weather_data) as [a | e] eqn:E; [| discriminate].
  intros ->. unfold assess_body in E.
  destruct (subscript weather_data "main") as [jmain |] eqn:R;
    cbn [and_then] in E; [| discriminate E].
  destruct (subscript jmain "temp") as [jtemp |] eqn:R0;
    cbn [and_then] in E; [| discriminate E].
  destruct (subscript weather_data "weather") as [jweather |] eqn:R1;
    cbn [and_then] in E; [| discriminate E].
  destruct (subscript_0 jweather) as [jweather0 |] eqn:R2;
    cbn [and_then] in E; [| discriminate E].
  destruct (subscript jweather0 "description") as [jdesc |] eqn:R3;
    cbn [and_then] in E; [| discriminate E].
  destruct (lower_method jdesc) as [description |] eqn:R4;
    cbn [and_then] in E; [| discriminate E].
  destruct (subscript weather_data "wind") as [jwind |] eqn:R5;
    cbn [and_then] in E; [| discriminate E].
  destruct (subscript jwind "speed") as [jspeed |] eqn:R6;
    cbn [and_then] in E; [| discriminate E].
  destruct (subscript jmain "humidity") as [jhum |] eqn:R7;
    cbn [and_then] in E; [| discriminate E].
  destruct (number jtemp) as [t |] eqn:R8;
    cbn [and_then] in E; [| discriminate E].
  destruct (number jspeed) as [w |] eqn:R9;
    cbn [and_then] in E; [| discriminate E].
  destruct (number jhum) as [h |] eqn:R10;
    cbn [and_then] in E; [| discriminate E].
  destruct (subscript_Done _ _ _ R) as (top & -> & Hmain).
  destruct (subscript_Done _ _ _ R0) as (main & -> & Htemp).
  destruct (subscript_Done _ _ _ R1) as (top' & [= <-] & Hweather).
  destruct (subscript_Done _ _ _ R3) as (weather0 & Hw0 & Hdesc).
  destruct (subscript_0_member _ _ _ R2 Hw0) as (rest & ->).
  destruct (lower_method_Done _ _ R4) as (d & -> & ->).
  destruct (subscript_Done _ _ _ R5) as (top' & [= <-] & Hwind).
  destruct (subscript_Done _ _ _ R6) as (wind & -> & Hspeed).
  destruct (subscript_Done _ _ _ R7) as (main' & [= <-] & Hhum).
  exists t, d, w, h. split.
  { cbn [weather_readings]. rewrite Hmain, Hweather, Hwind.
    rewrite Htemp, Hdesc, Hspeed, Hhum, R8, R9, R10. reflexivity. }
  clear - E.
  destruct (Qlt_bool t 0) eqn:T1;
    [| destruct (Qlt_bool t 5) eqn:T2; [| destruct (Qlt_bool 25 t) eqn:T3]];
    (destruct (existsb (fun keyword => contains keyword (lower d)) precip_keywords)
       eqn:P);
    (destruct (Qlt_bool 10 w) eqn:W1; [| destruct (Qlt_bool 6 w) eqn:W2]);
    (destruct (Qlt_bool 80 h) eqn:H1);
    cbn [app] in E; injection E as <-;
    repeat match goal with
           | H : Qlt_bool _ _ = true |- _ => apply Qlt_bool_iff in H
           | H : Qlt_bool _ _ = false |- _ => apply Qlt_bool_false in H
           end;
    assert (Pw : (exists keyword, In keyword precip_keywords
                                  /\ contains keyword (lower d) = true)
                 <-> existsb (fun keyword => contains keyword (lower d))
                       precip_keywords = true)
      by (symmetry; apply existsb_exists);
    rewrite Pw, P; clear Pw P;
    repeat split; intros; simpl in *;
    repeat match goal with
           | H : _ \/ _ |- _ => destruct H
           | H : _ /\ _ |- _ => destruct H
           | H : False |- _ => destruct H
           end;
    try discriminate; try lra; auto 10.
Qed.

Lemma assessment_reads_all_or_nothing_witness :
  exists t d w h,
    weather_readings (report (-2) "Light Rain" (21 # 2) 85) = Some (t, d, w, h)
    /\ (In Freezing [Freezing; Wet; HighWinds; HighHumidity] <-> (t < 0)%Q)
    /\ (In Cold [Freezing; Wet; HighWinds; HighHumidity]
        <-> (0 <= t)%Q /\ (t < 5)%Q)
    /\ (In Hot [Freezing; Wet; HighWinds; HighHumidity] <-> (25 < t)%Q)
    /\ (In IdealTemperature [Freezing; Wet; HighWinds; HighHumidity]
        <-> (5 <= t)%Q /\ (t <= 25)%Q)
    /\ (In Wet [Freezing; Wet; HighWinds; HighHumidity]
        <-> exists keyword, In keyword precip_keywords
                            /\ contains keyword (lower d) = true)
    /\ (In HighWinds [Freezing; Wet; HighWinds; HighHumidity] <-> (10 < w)%Q)
    /\ (In Windy [Freezing; Wet; HighWinds; HighHumidity]
        <-> (6 < w)%Q /\ (w <= 10)%Q)
    /\ (In HighHumidity [Freezing; Wet; HighWinds; HighHumidity] <-> (80 < h)%Q).
Proof.
  exact (assessment_reads_all_or_nothing (report (-2) "Light Rain" (21 # 2) 85)
           [Freezing; Wet; HighWinds; HighHumidity] eq_refl).
Defined.

(** * The Word export *)

Example works_document :
  outcome (poles_to_word works)
  = Ok [ [PoleRun "12"; ItemRun "erect pole" false; SeparatorRun;
          ItemRun "(access via farm)" false];
         [PoleRun "A7"; ItemRun "Stay wire (rock)" false] ].
Proof. reflexivity. Qed.

Lemma items_of_add_item_runs (texts : list string) :
  items_of (add_item_runs texts) = texts.
Proof.
  induction texts as [| t rest IH]; [reflexivity |].
  cbn [add_item_runs items_of]. destruct rest; [reflexivity |].
  cbn [items_of]. now rewrite IH.
Qed.

Lemma od_set_keys (k v : string) (d : list (string * string)) :
  map fst (od_set k v d)
  = if mem k (map fst d) then map fst d else map fst d ++ [k].
Proof.
  unfold mem. induction d as [| [k' v'] d IH]; simpl; [reflexivity |].
  rewrite (String.eqb_sym k k'). destruct (String.eqb k' k); simpl.
  - reflexivity.
  - rewrite IH. now destruct (existsb _ _).
Qed.

Lemma od_set_In (k v : string) (d : list (string * string)) (k0 v0 : string) :
  In (k0, v0) (od_set k v d) ->
  (k0 = k /\ v0 = v) \/ In (k0, v0) d.
Proof.
  induction d as [| [k' v'] d IH]; simpl.
  - intros [[= <- <-] | []]. now left.
  - destruct (String.eqb k' k) eqn:E; simpl.
    + apply String.eqb_eq in E. subst k'.
      intros [[= <- <-] | H]; [now left | right; now right].
    + intros [H | H]; [right; now left |].
      destruct (IH H) as [? | ?]; [now left | right; now right].
Qed.

Lemma od_set_NoDup (k v : string) (d : list (string * string)) :
  NoDup (map fst d) -> NoDup (map fst (od_set k v d)).
Proof.
  intros H. rewrite od_set_keys. destruct (mem k (map fst d)) eqn:E.
  - assumption.
  - apply NoDup_app; [assumption | repeat constructor; intros [] |].
    intros x Hx [<- | []]. apply mem_false in E. contradiction.
Qed.

Lemma od_set_has_key (k v : string) (d : list (string * string)) :
  In k (map fst (od_set k v d)).
Proof.
  rewrite od_set_keys. destruct (mem k (map fst d)) eqn:E.
  - now apply mem_In.
  - apply in_or_app. right. now left.
Qed.

Lemma od_set_keeps_key (k v k0 : string) (d : list (string * string)) :
  In k0 (map fst d) -> In k0 (map fst (od_set k v d)).
Proof.
  intros H. rewrite od_set_keys. destruct (mem k (map fst d)); [assumption |].
  apply in_or_app. now left.
Qed.

(** The texts kept for a pole: the keys are distinct, every text is kept
    under its key and is the text of a row of the pole, and every row that
    has a text has its key among the keys. *)
Lemma unique_texts_spec (group : list Series) :
  forall d,
    NoDup (map fst d) ->
    (forall k v, In (k, v) d -> k = text_key v) ->
    let d' := fold_left add_row_text group d in
    NoDup (map fst d')
    /\ (forall k v, In (k, v) d' -> k = text_key v)
    /\ (forall k v, In (k, v) d' ->
          In (k, v) d \/ exists r, In r group /\ row_text r = Some v)
    /\ (forall k, In k (map fst d) -> In k (map fst d'))
    /\ (forall r t, In r group -> row_text r = Some t ->
          In (text_key t) (map fst d')).
Proof.
  induction group as [| r group IH]; intros d Hnd Hkey.
  - cbn. repeat split; auto. intros r t [].
  - cbn [fold_left].
    assert (Hnd1 : NoDup (map fst (add_row_text d r))).
    { unfold add_row_text. destruct (row_text r); [| assumption].
      now apply od_set_NoDup. }
    assert (Hkey1 : forall k v, In (k, v) (add_row_text d r) -> k = text_key v).
    { unfold add_row_text. destruct (row_text r) as [t |]; [| assumption].
      intros k v H. apply od_set_In in H. destruct H as [[-> ->] | H]; auto. }
    destruct (IH (add_row_text d r) Hnd1 Hkey1) as (H1 & H2 & H3 & H4 & H5).
    split; [assumption |]. split; [assumption |]. split; [| split].
    + intros k v H. destruct (H3 k v H) as [H' | (r' & Hr' & Ht)].
      * unfold add_row_text in H'. destruct (row_text r) as [t |] eqn:Et.
        -- apply od_set_In in H'. destruct H' as [[-> ->] | H']; [| now left].
           right. exists r. split; [now left | assumption].
        -- now left.
      * right. exists r'. split; [now right | assumption].
    + intros k Hk. apply H4. unfold add_row_text.
      destruct (row_text r); [now apply od_set_keeps_key | assumption].
    + intros r' t [<- | Hr'] Ht.
      * apply H4. unfold add_row_text. rewrite Ht. apply od_set_has_key.
      * now apply (H5 r' t).
Qed.

Lemma map_snd_keys (d : list (string * string)) :
  (forall k v, In (k, v) d -> k = text_key v) ->
  map text_key (map snd d) = map fst d.
Proof.
  induction d as [| [k v] d IH]; intros H; simpl; [reflexivity |].
  rewrite <- (H k v (or_introl eq_refl)), IH; [reflexivity |].
  intros k' v' Hin. apply H. now right.
Qed.

Lemma add_pole_app (doc : document) (g : value * list Series) :
  add_pole doc g = doc ++ add_pole [] g.
Proof.
  destruct g as [pole group]. unfold add_pole.
  destruct (String.eqb (strip (py_str pole)) ""); [now rewrite app_nil_r |].
  destruct (fold_left add_row_text group []); [now rewrite app_nil_r | reflexivity].
Qed.

(** The paragraphs of the document are those added for the groups. *)
Lemma add_pole_In (groups : list (value * list Series)) :
  forall doc p,
    In p (fold_left add_pole groups doc)
    <-> In p doc \/ exists g, In g groups /\ In p (add_pole [] g).
Proof.
  induction groups as [| g groups IH]; intros doc p; cbn [fold_left].
  - split; [now left | intros [H | (g & [] & _)]; assumption].
  - rewrite IH, add_pole_app, in_app_iff. split.
    + intros [[H | H] | (g' & Hg' & Hp)].
      * now left.
      * right. exists g. split; [now left | assumption].
      * right. exists g'. split; [now right | assumption].
    + intros [H | (g' & [<- | Hg'] & Hp)].
      * left. now left.
      * left. now right.
      * right. exists g'. split; assumption.
Qed.

(** The paragraph added for one group. *)
Lemma add_pole_paragraph (pole : value) (group : list Series) (p : paragraph) :
  In p (add_pole [] (pole, group)) ->
  strip (py_str pole) <> ""
  /\ fold_left add_row_text group [] <> []
  /\ p = PoleRun (strip (py_str pole))
           :: add_item_runs (map snd (fold_left add_row_text group [])).
Proof.
  unfold add_pole. destruct (String.eqb (strip (py_str pole)) "") eqn:E;
    [intros [] |].
  apply String.eqb_neq in E.
  destruct (fold_left add_row_text group []) as [| e d] eqn:Ed; [intros [] |].
  cbn [app]. intros [<- | []]. repeat split; [assumption | discriminate].
Qed.

Lemma poles_to_word_groups (df : DataFrame) (doc : document) :
  outcome (poles_to_word df) = Ok doc ->
  mem "pole" (columns df) = true
  /\ doc = fold_left add_pole
             (map (fun k => (k, filter (fun r => value_eqb (series_get r "pole") k)
                                       (rows (blank_missing df))))
                  (dropna_unique (column_values (blank_missing df) "pole"))) [].
Proof.
  unfold poles_to_word, groupby. cbn [blank_missing columns].
  destruct (mem "pole" (columns df)); [| discriminate].
  cbn. intros [= <-]. split; reflexivity.
Qed.

(** X21: every paragraph of the exported document starts with the pole
    number, which is not blank, and has at least one instruction; no two
    instructions of a paragraph are the same text once lower-cased and
    stripped. *)
Theorem paragraphs_have_distinct_instructions (df : DataFrame) (doc : document)
    (p : paragraph) :
  outcome (poles_to_word df) = Ok doc ->
  In p doc ->
  exists pole_str rest,
    p = PoleRun pole_str :: rest
    /\ pole_str <> ""
    /\ items_of p <> []
    /\ NoDup (map text_key (items_of p)).
Proof.
  intros Hrun Hp. destruct (poles_to_word_groups df doc Hrun) as [_ ->].
  apply add_pole_In in Hp. destruct Hp as [[] | ([pole group] & _ & Hp)].
  destruct (add_pole_paragraph pole group p Hp) as (Hs & Hne & ->).
  destruct (unique_texts_spec group [] (NoDup_nil _) (fun k v (H : In (k, v) []) => match H with end))
    as (Hnd & Hkey & _).
  do 2 eexists. split; [reflexivity |]. split; [assumption |].
  cbn [items_of]. rewrite items_of_add_item_runs. split.
  - destruct (fold_left add_row_text group []); [congruence | discriminate].
  - now rewrite map_snd_keys.
Qed.

Lemma paragraphs_have_distinct_instructions_witness :
  exists pole_str rest,
    [PoleRun "12"; ItemRun "erect pole" false; SeparatorRun;
     ItemRun "(access via farm)" false]
    = PoleRun pole_str :: rest
    /\ pole_str <> ""
    /\ items_of [PoleRun "12"; ItemRun "erect pole" false; SeparatorRun;
                 ItemRun "(access via farm)" false] <> []
    /\ NoDup (map text_key
                (items_of [PoleRun "12"; ItemRun "erect pole" false;
                           SeparatorRun; ItemRun "(access via farm)" false])).
Proof.
  apply (paragraphs_have_distinct_instructions works
           [ [PoleRun "12"; ItemRun "erect pole" false; SeparatorRun;
              ItemRun "(access via farm)" false];
             [PoleRun "A7"; ItemRun "Stay wire (rock)" false] ]).
  - reflexivity.
  - now left.
Defined.

Lemma blank_cell_not_null (v : value) : isna (blank_cell v) = false.
Proof.
  destruct v as [| s | z]; [reflexivity | | reflexivity].
  unfold blank_cell. now destruct (mem s ["nan"; "NaN"; "None"]).
Qed.

Lemma series_get_blank (r : Series) (c : string) :
  In c (series_index r) ->
  series_get (map (fun kv => (fst kv, blank_cell (snd kv))) r) c
  = blank_cell (series_get r c).
Proof.
  induction r as [| [k v] r IH]; intros Hin; [destruct Hin |].
  cbn [map fst snd series_get]. destruct (String.eqb k c) eqn:E; [reflexivity |].
  apply IH. destruct Hin as [Hin | Hin]; [| assumption].
  cbn in Hin. subst c. now rewrite String.eqb_refl in E.
Qed.

(** After the replacement no row of a well-formed table has a null pole. *)
Lemma blank_missing_pole (df : DataFrame) (r : Series) :
  df_wf df -> mem "pole" (columns df) = true ->
  In r (rows (blank_missing df)) -> isna (series_get r "pole") = false.
Proof.
  intros [_ Hwf] Hc Hr. rewrite Forall_forall in Hwf.
  cbn [blank_missing rows] in Hr. apply in_map_iff in Hr.
  destruct Hr as (r0 & <- & Hr0). rewrite series_get_blank.
  - apply blank_cell_not_null.
  - rewrite (Hwf r0 Hr0). now apply mem_In.
Qed.



Lemma od_set_In_other (k v : string) (d : list (string * string))
    (k0 v0 : string) :
  NoDup (map fst d) ->
  In (k0, v0) (od_set k v d) ->
  (k0 = k /\ v0 = v) \/ (k0 <> k /\ In (k0, v0) d).
Proof.
  induction d as [| [k' v'] d IH]; cbn [od_set map fst]; intros Hnd.
  - intros [[= <- <-] | []]. now left.
  - inversion Hnd as [| x l Hx Hnd']; subst.
    destruct (String.eqb k' k) eqn:E.
    + apply String.eqb_eq in E. subst k'.
      intros [[= <- <-] | H]; [now left | right].
      split; [| now right]. intros ->. apply Hx.
      apply (in_map fst) in H. exact H.
    + apply String.eqb_neq in E.
      intros [[= <- <-] | H]; [right; split; [assumption | now left] |].
      destruct (IH Hnd' H) as [? | [? ?]]; [now left | right].
      split; [assumption | now right].
Qed.

(** The text kept under a key is the one of the last row that has this
    key. *)
Lemma unique_texts_last (group : list Series) :
  forall d,
    NoDup (map fst d) ->
    forall k v,
      In (k, v) (fold_left add_row_text group d) ->
      (In (k, v) d
       /\ forall r t, In r group -> row_text r = Some t -> text_key t <> k)
      \/ exists before r after,
           group = before ++ r :: after
           /\ row_text r = Some v /\ k = text_key v
           /\ forall r' t', In r' after -> row_text r' = Some t' ->
                            text_key t' <> k.
Proof.
  induction group as [| r0 group IH]; intros d Hnd k v Hin.
  - left. split; [assumption | intros r t []].
  - cbn [fold_left] in Hin.
    assert (Hnd1 : NoDup (map fst (add_row_text d r0))).
    { unfold add_row_text. destruct (row_text r0); [| assumption].
      now apply od_set_NoDup. }
    destruct (IH _ Hnd1 k v Hin)
      as [[H1 Hno] | (before & r & after & -> & Ht & Hk & Hlast)].
    + unfold add_row_text in H1. destruct (row_text r0) as [t0 |] eqn:E0.
      * apply od_set_In_other in H1; [| assumption].
        destruct H1 as [[-> ->] | [Hne H1]].
        -- right. exists [], r0, group. repeat split; auto.
        -- left. split; [assumption |].
           intros r t [<- | Hr] Hrt; [| eauto].
           rewrite E0 in Hrt. injection Hrt as <-. unfold text_key. congruence.
      * left. split; [assumption |].
        intros r t [<- | Hr] Hrt; [congruence | eauto].
    + right. exists (r0 :: before), r, after. repeat split; auto.
Qed.

(** X23: when several rows of a pole give the same text up to letter case
    and outer whitespace, the paragraph shows the spelling of the last of
    them: an instruction shown is the text of a row of the pole after
    which no row of the pole has the same key. *)
Theorem last_spelling_is_shown (df : DataFrame) (doc : document)
    (pole_str : string) (rest : paragraph) (text : string) :
  outcome (poles_to_word df) = Ok doc ->
  In (PoleRun pole_str :: rest) doc ->
  In text (items_of rest) ->
  exists pole before r after,
    strip (py_str pole) = pole_str
    /\ filter (fun r => value_eqb (series_get r "pole") pole)
              (rows (blank_missing df))
       = before ++ r :: after
    /\ row_text r = Some text
    /\ forall r' text', In r' after -> row_text r' = Some text' ->
                        text_key text' <> text_key text.
Proof.
  intros Hrun Hp Ht. destruct (poles_to_word_groups df doc Hrun) as [Hc ->].
  apply add_pole_In in Hp. destruct Hp as [[] | (g & Hg & Hp)].
  apply in_map_iff in Hg. destruct Hg as (pole & <- & _).
  apply add_pole_paragraph in Hp. destruct Hp as (_ & _ & [= -> ->]).
  rewrite items_of_add_item_runs in Ht. apply in_map_iff in Ht.
  destruct Ht as ([k v] & <- & Hkv). cbn [snd].
  destruct (unique_texts_last _ [] (NoDup_nil _) k v Hkv)
    as [[[] _] | (before & r & after & Hsplit & Hr & -> & Hlast)].
  exists pole, before, r, after. auto.
Qed.

Lemma last_spelling_is_shown_witness :
  exists pole before r after,
    strip (py_str pole) = "12"
    /\ filter (fun r => value_eqb (series_get r "pole") pole)
              (rows (blank_missing works))
       = before ++ r :: after
    /\ row_text r = Some "erect pole"
    /\ forall r' text', In r' after -> row_text r' = Some text' ->
                        text_key text' <> text_key "erect pole".
Proof.
  apply (last_spelling_is_shown works
           [ [PoleRun "12"; ItemRun "erect pole" false; SeparatorRun;
              ItemRun "(access via farm)" false];
             [PoleRun "A7"; ItemRun "Stay wire (rock)" false] ]
           "12"
           [ItemRun "erect pole" false; SeparatorRun;
            ItemRun "(access via farm)" false]
           "erect pole").
  - reflexivity.
  - now left.
  - now left.
Defined.

(** * The weather requests *)

